(** * Hero.tsx: the procedural tunnel engine

    A shallow embedding of [src/components/Hero.tsx]: the wireframe builder
    of [createSegment], the slab placement of [populateImages], the
    recycling pass and the camera smoothing of [animate], the theme effect
    and the mount / cleanup pair of the set-up effect.

    Numbers.  JavaScript numbers are binary64 floats.  The depth positions
    of the segments only ever hold small integers (they start at [-6 * i]
    and are only assigned [minZ - 6] or [maxZ + 6]), so they are modelled in
    [Z].  Quantities that take fractional values (camera depth, the random
    rolls, the grid coordinates) are modelled in [Q]; the arithmetic of the
    camera, of the recycling thresholds and of the image index is written
    over an explicit rounding operator, so that results about it hold for
    exact arithmetic and for any monotone rounding alike.  The camera step is also given on
    the kernel's binary64 floats, where it can be evaluated exactly as the
    program evaluates it. *)

From stdpp Require Import list gmap strings.
From Stdlib Require Import QArith Qround Qabs Lqa ZArith Lia.
From Stdlib Require Import Floats.PrimFloat.

Close Scope Q_scope.

(** ** Configuration (lines 23-35) *)

Definition TUNNEL_WIDTH : Q := 24.
Definition TUNNEL_HEIGHT : Q := 16.
Definition SEGMENT_DEPTH : Z := 6.
Definition NUM_SEGMENTS : nat := 14.
Definition FLOOR_COLS : nat := 6.
Definition WALL_ROWS : nat := 4.

(** A loop counter read as a number. *)
Definition num (i : nat) : Q := inject_Z (Z.of_nat i).

(** [a < b] on numbers, as a test. *)
Definition Qltb (a b : Q) : bool := negb (Qle_bool b a).

Definition COL_WIDTH : Q := TUNNEL_WIDTH / num FLOOR_COLS.
Definition ROW_HEIGHT : Q := TUNNEL_HEIGHT / num WALL_ROWS.

(** ** Geometry builder: the grid lines of [createSegment] (lines 64-99) *)

Module Geometry.
Local Open Scope Q_scope.

Definition Point : Type := Q * Q * Q.
Definition Line : Type := Point * Point.

(** [vertices.push(a, b, c, a', b', c')] *)
Definition push (vertices : list Q) (a b c a' b' c' : Q) : list Q :=
  vertices ++ [a; b; c; a'; b'; c'].

Section Builder.
(** The builder is written over the five configuration values it reads,
    so that it can be stated for every grid; [lineVertices] below is the
    instance the program builds. *)
Variables (width height depth : Q) (floorCols wallRows : nat).

Definition halfW : Q := width / 2.
Definition halfH : Q := height / 2.
Definition colWidth : Q := width / num floorCols.
Definition rowHeight : Q := height / num wallRows.

(** [for (let i = 0; i <= FLOOR_COLS; i++)]: a floor and a ceiling line. *)
Definition floorCeilingStep (vertices : list Q) (i : nat) : list Q :=
  let x := - halfW + num i * colWidth in
  let vertices := push vertices x (- halfH) 0 x (- halfH) (- depth) in
  push vertices x halfH 0 x halfH (- depth).

(** [for (let i = 1; i < WALL_ROWS; i++)]: a left and a right wall line. *)
Definition wallStep (vertices : list Q) (i : nat) : list Q :=
  let y := - halfH + num i * rowHeight in
  let vertices := push vertices (- halfW) y 0 (- halfW) y (- depth) in
  push vertices halfW y 0 halfW y (- depth).

(** The ring at [z = 0]: floor, ceiling, left and right edge. *)
Definition ringStep (vertices : list Q) : list Q :=
  let vertices := push vertices (- halfW) (- halfH) 0 halfW (- halfH) 0 in
  let vertices := push vertices (- halfW) halfH 0 halfW halfH 0 in
  let vertices := push vertices (- halfW) (- halfH) 0 (- halfW) halfH 0 in
  push vertices halfW (- halfH) 0 halfW halfH 0.

Definition gridVertices : list Q :=
  let vertices := foldl floorCeilingStep [] (seq 0 (S floorCols)) in
  let vertices := foldl wallStep vertices (seq 1 (wallRows - 1)) in
  ringStep vertices.

(** The lines as the specification describes them (section 4.1): the
    longitudinal lines at [x = -w + i * (2w / floorCols)] on floor and
    ceiling and at evenly spaced heights on the side walls, each from
    [z = 0] to [z = -d], and the four lines of the ring at [z = 0]. *)
Definition xOffset (i : nat) : Q := - halfW + num i * (2 * halfW / num floorCols).
Definition yOffset (i : nat) : Q := - halfH + num i * (2 * halfH / num wallRows).

Definition floorLine (i : nat) : Line :=
  ((xOffset i, - halfH, 0), (xOffset i, - halfH, - depth)).

Definition ceilingLine (i : nat) : Line :=
  ((xOffset i, halfH, 0), (xOffset i, halfH, - depth)).

Definition leftWallLine (i : nat) : Line :=
  ((- halfW, yOffset i, 0), (- halfW, yOffset i, - depth)).

Definition rightWallLine (i : nat) : Line :=
  ((halfW, yOffset i, 0), (halfW, yOffset i, - depth)).

Definition ringLines : list Line :=
  [ ((- halfW, - halfH, 0), (halfW, - halfH, 0));
    ((- halfW, halfH, 0), (halfW, halfH, 0));
    ((- halfW, - halfH, 0), (- halfW, halfH, 0));
    ((halfW, - halfH, 0), (halfW, halfH, 0)) ].
End Builder.

(** The vertex buffer [createSegment] hands to [Float32BufferAttribute]. *)
Definition lineVertices : list Q :=
  gridVertices TUNNEL_WIDTH TUNNEL_HEIGHT (inject_Z SEGMENT_DEPTH)
               FLOOR_COLS WALL_ROWS.

(** [Float32BufferAttribute(vertices, 3)] reads the buffer three numbers at
    a time, and [LineSegments] draws one line per pair of points. *)
Fixpoint points (vertices : list Q) : list Point :=
  match vertices with
  | x :: y :: z :: rest => (x, y, z) :: points rest
  | _ => []
  end.

Fixpoint pairs (ps : list Point) : list Line :=
  match ps with
  | p :: q :: rest => (p, q) :: pairs rest
  | _ => []
  end.

Definition lineSegments (vertices : list Q) : list Line :=
  pairs (points vertices).

(** Equality of points and lines up to the value of their coordinates. *)
Definition point_eq (p q : Point) : Prop :=
  let '(x, y, z) := p in
  let '(x', y', z') := q in
  x == x' /\ y == y' /\ z == z'.

Definition line_eq (l m : Line) : Prop :=
  point_eq (fst l) (fst m) /\ point_eq (snd l) (snd m).

(** A line that runs along the tunnel: same [x] and [y] at both ends, from
    [z = 0] to [z = -depth]. *)
Definition longitudinal (depth : Q) (l : Line) : bool :=
  let '((x, y, z), (x', y', z')) := l in
  Qeq_bool x x' && Qeq_bool y y' && Qeq_bool z 0 && Qeq_bool z' (- depth).

(** A line of the near face: both ends at [z = 0]. *)
Definition latitudinal (l : Line) : bool :=
  let '((_, _, z), (_, _, z')) := l in
  Qeq_bool z 0 && Qeq_bool z' 0.

Definition atHeight (y0 : Q) (l : Line) : bool :=
  let '((_, y, _), _) := l in Qeq_bool y y0.

(** On the side wall at [x0], strictly between floor and ceiling. *)
Definition onWall (x0 h : Q) (l : Line) : bool :=
  let '((x, y, _), _) := l in
  Qeq_bool x x0 && Qltb (- h) y && Qltb y h.

Section Faces.
Variables (width height depth : Q).

(** The longitudinal lines of each face. *)
Definition isFloorLine (l : Line) : bool :=
  longitudinal depth l && atHeight (- halfH height) l.

Definition isCeilingLine (l : Line) : bool :=
  longitudinal depth l && atHeight (halfH height) l.

Definition isLeftWallLine (l : Line) : bool :=
  longitudinal depth l && onWall (- halfW width) (halfH height) l.

Definition isRightWallLine (l : Line) : bool :=
  longitudinal depth l && onWall (halfW width) (halfH height) l.
End Faces.

End Geometry.

(** ** The resource store and the ambient state

    What the program reaches through globals while it builds and recycles
    segments: the random source, the identity of the objects it allocates,
    and the GPU-side resources that [dispose()] releases. *)

Inductive Resource : Type :=
| Renderer
| LineGeometry (id : nat)
| LineMaterial (id : nat)
| SlabGeometry (id : nat)
| SlabMaterial (id : nat)
| SlabTexture (id : nat).

#[global] Instance Resource_eq_dec : EqDecision Resource.
Proof. solve_decision. Defined.

#[global] Instance Resource_countable : Countable Resource.
Proof.
  refine (inj_countable'
    (fun r => match r with
              | Renderer => (0, 0)
              | LineGeometry n => (1, n)
              | LineMaterial n => (2, n)
              | SlabGeometry n => (3, n)
              | SlabMaterial n => (4, n)
              | SlabTexture n => (5, n)
              end)%nat
    (fun p => match p with
              | (0, _) => Renderer
              | (1, n) => LineGeometry n
              | (2, n) => LineMaterial n
              | (3, n) => SlabGeometry n
              | (4, n) => SlabMaterial n
              | (_, n) => SlabTexture n
              end)%nat _).
  by intros [].
Defined.

(** [draws] counts the calls of [Math.random()] made so far, [nextId] the
    objects allocated so far (an object's number is its identity), and
    [live] holds the resources created and not yet disposed. *)
Record Heap : Type := mkHeap {
  draws : nat;
  nextId : nat;
  live : gset Resource
}.

Module Store.

(** Code that reads and updates the ambient state. *)
Definition M (A : Type) : Type := Heap -> A * Heap.

Definition ret {A} (a : A) : M A := fun h => (a, h).

Definition bind {A B} (m : M A) (k : A -> M B) : M B :=
  fun h => let '(a, h') := m h in k a h'.

(** [Math.random()]: the next value of the random source [rnd]. *)
Definition random (rnd : nat -> Q) : M Q :=
  fun h => (rnd (draws h), mkHeap (S (draws h)) (nextId h) (live h)).

(** [new ...]: the identity of a newly allocated object. *)
Definition fresh : M nat :=
  fun h => (nextId h, mkHeap (draws h) (S (nextId h)) (live h)).

Definition create (r : Resource) : M unit :=
  fun h => (tt, mkHeap (draws h) (nextId h) ({[ r ]} ∪ live h)).

(** [r.dispose()] *)
Definition dispose (r : Resource) : M unit :=
  fun h => (tt, mkHeap (draws h) (nextId h) (live h ∖ {[ r ]})).

End Store.

Notation "'let*' x ':=' m 'in' k" := (Store.bind m (fun x => k))
  (at level 10, x name, m at level 100, k at level 200, only parsing).

(** ** Arithmetic on numbers

    Every arithmetic operation of the program rounds its exact result to a
    binary64 value.  [fl] stands for that rounding; with [fl := fun x => x]
    the operations are exact. *)

Definition fadd (fl : Q -> Q) (a b : Q) : Q := fl (a + b)%Q.
Definition fsub (fl : Q -> Q) (a b : Q) : Q := fl (a - b)%Q.
Definition fmul (fl : Q -> Q) (a b : Q) : Q := fl (a * b)%Q.

(** Exact arithmetic. *)
Definition exact (x : Q) : Q := x.

(** A random source whose draws never exceed a threshold: no cell is filled. *)
Definition noSlabs (k : nat) : Q := 0%Q.

(** A random source whose draws always exceed the thresholds. *)
Definition allSlabs (k : nat) : Q := (9 # 10)%Q.

(** ** Scene objects *)

Inductive Face : Type := Floor | Ceiling | LeftWall | RightWall.

#[global] Instance Face_eq_dec : EqDecision Face.
Proof. solve_decision. Defined.

(** [THREE.LineBasicMaterial]: the fields the program reads or writes. *)
Record LineBasicMaterial : Type := mkLineMaterial {
  color : Z;
  transparent : bool;
  opacity : Q;
  needsUpdate : bool
}.

(** A content slab: the mesh [addImg] builds.  Its position, rotation and
    size are functions of the face and the cell it fills, so the model keeps
    those two; [slab_url] is the index drawn into [imageUrls], [slab_map]
    tells whether the texture has been set on the material, and
    [slab_opacity] is the opacity of the material. *)
Record Slab : Type := mkSlab {
  slab_id : nat;
  slab_face : Face;
  slab_cell : nat;
  slab_url : Z;
  slab_map : bool;
  slab_opacity : Q
}.

Inductive Object3D : Type :=
| LineSegments (id : nat) (material : LineBasicMaterial)
| Mesh (name : string) (slab : Slab).

Definition objName (o : Object3D) : string :=
  match o with
  | LineSegments _ _ => ""
  | Mesh name _ => name
  end.

Definition objId (o : Object3D) : nat :=
  match o with
  | LineSegments id _ => id
  | Mesh _ slab => slab_id slab
  end.

(** A segment: a [THREE.Group] with its depth and its children. *)
Record Group : Type := mkGroup {
  position_z : Z;
  children : list Object3D
}.

(** [group.remove(c)]: the child that is the object [c] leaves the group. *)
Definition removeChild (c : Object3D) (group : list Object3D) : list Object3D :=
  List.filter (fun o => negb (objId o =? objId c)%nat) group.

(** The slabs among the children of a group. *)
Definition slabsOf (group : list Object3D) : list Slab :=
  flat_map (fun o => match o with Mesh _ s => [s] | _ => [] end) group.

(** The cells of one face that hold a slab, in the order they were added. *)
Definition filledCells (face : Face) (group : list Object3D) : list nat :=
  map slab_cell
      (List.filter (fun s => bool_decide (slab_face s = face)) (slabsOf group)).

(** The resources a scene object holds. *)
Definition slabResources (s : Slab) : gset Resource :=
  {[ SlabGeometry (slab_id s); SlabMaterial (slab_id s) ]}
  ∪ (if slab_map s then {[ SlabTexture (slab_id s) ]} else ∅).

Definition resourcesOf (o : Object3D) : gset Resource :=
  match o with
  | LineSegments id _ => {[ LineGeometry id; LineMaterial id ]}
  | Mesh _ s => slabResources s
  end.


(** ** Content placement: [populateImages] (lines 109-177) *)

Module Placement.
Local Open Scope Q_scope.

(** [imageUrls.length] *)
Definition IMAGE_COUNT : Z := 14.

(** The number of cells the loop of a face walks. *)
Definition faceCells (face : Face) : nat :=
  match face with
  | Floor | Ceiling => FLOOR_COLS
  | LeftWall | RightWall => WALL_ROWS
  end.

(** [const cellMargin = 0.4] *)
Definition cellMargin : Q := 4 # 10.

(** What the four loops hand to [addImg] for cell [i] (lines 139, 150, 161
    and 172), with [w = TUNNEL_WIDTH / 2], [h = TUNNEL_HEIGHT / 2] and
    [d = SEGMENT_DEPTH]: the position of the mesh, *)
Definition slabPosition (face : Face) (i : nat) : Geometry.Point :=
  let w := TUNNEL_WIDTH / 2 in
  let h := TUNNEL_HEIGHT / 2 in
  let d := inject_Z SEGMENT_DEPTH in
  match face with
  | Floor => (- w + num i * COL_WIDTH + COL_WIDTH / 2, - h, - d / 2)
  | Ceiling => (- w + num i * COL_WIDTH + COL_WIDTH / 2, h, - d / 2)
  | LeftWall => (- w, - h + num i * ROW_HEIGHT + ROW_HEIGHT / 2, - d / 2)
  | RightWall => (w, - h + num i * ROW_HEIGHT + ROW_HEIGHT / 2, - d / 2)
  end.

(** its rotation, an Euler angle about each axis, counted in quarter turns
    ([Math.PI/2] is one), *)
Definition slabRotation (face : Face) : Z * Z * Z :=
  match face with
  | Floor => (-1, 0, 0)
  | Ceiling => (1, 0, 0)
  | LeftWall => (0, 1, 0)
  | RightWall => (0, -1, 0)
  end%Z.

(** and the width and height of [PlaneGeometry(wd - cellMargin, ht - cellMargin)]. *)
Definition slabPlane (face : Face) : Q * Q :=
  let d := inject_Z SEGMENT_DEPTH in
  match face with
  | Floor | Ceiling => (COL_WIDTH - cellMargin, d - cellMargin)
  | LeftWall | RightWall => (d - cellMargin, ROW_HEIGHT - cellMargin)
  end.

(** Cosine and sine of [q] quarter turns. *)
Definition cosQuarter (q : Z) : Q :=
  match (q mod 4)%Z with 0%Z => 1 | 2%Z => - (1) | _ => 0 end.

Definition sinQuarter (q : Z) : Q :=
  match (q mod 4)%Z with 1%Z => 1 | 3%Z => - (1) | _ => 0 end.

(** The rotations of three.js about the x, the y and the z axis. *)
Definition rotateX (q : Z) (p : Geometry.Point) : Geometry.Point :=
  let '(x, y, z) := p in
  (x, y * cosQuarter q - z * sinQuarter q, y * sinQuarter q + z * cosQuarter q).

Definition rotateY (q : Z) (p : Geometry.Point) : Geometry.Point :=
  let '(x, y, z) := p in
  (x * cosQuarter q + z * sinQuarter q, y, - x * sinQuarter q + z * cosQuarter q).

Definition rotateZ (q : Z) (p : Geometry.Point) : Geometry.Point :=
  let '(x, y, z) := p in
  (x * cosQuarter q - y * sinQuarter q, x * sinQuarter q + y * cosQuarter q, z).

(** An Euler angle of order XYZ turns a vector about z, then y, then x. *)
Definition rotate (r : Z * Z * Z) (p : Geometry.Point) : Geometry.Point :=
  let '(rx, ry, rz) := r in rotateX rx (rotateY ry (rotateZ rz p)).

Definition translate (o p : Geometry.Point) : Geometry.Point :=
  let '(ox, oy, oz) := o in
  let '(x, y, z) := p in
  (ox + x, oy + y, oz + z).

(** The four corners of the slab of cell [i], in the coordinates of its
    segment: a plane of width [wd] and height [ht] spans
    [-wd/2 .. wd/2] by [-ht/2 .. ht/2] at [z = 0] before it is turned and
    moved. *)
Definition slabCorners (face : Face) (i : nat) : list Geometry.Point :=
  let '(wd, ht) := slabPlane face in
  map (fun c => translate (slabPosition face i) (rotate (slabRotation face) c))
      [ (- (wd / 2), - (ht / 2), 0); (wd / 2, - (ht / 2), 0);
        (- (wd / 2), ht / 2, 0); (wd / 2, ht / 2, 0) ].

Section WithRandom.
Variable rnd : nat -> Q.
Variable fl : Q -> Q.

(** [addImg]: draw the image, build geometry and material, start the load
    and add the mesh to the group.  The index of the image is
    [Math.floor(Math.random() * imageUrls.length)], the floor of the
    rounded product.  The material starts without a map and with opacity
    0; the load resolves later (see [textureLoaded]). *)
Definition addImg (group : list Object3D) (face : Face) (i : nat)
  : Store.M (list Object3D) :=
  let* r := Store.random rnd in
  let url := Qfloor (fmul fl r (inject_Z IMAGE_COUNT)) in
  let* id := Store.fresh in
  let* _ := Store.create (SlabGeometry id) in
  let* _ := Store.create (SlabMaterial id) in
  Store.ret (group ++ [Mesh "slab_image" (mkSlab id face i url false 0)]).

(** One face: walk the cells in increasing order; a cell is eligible when
    [i > lastIdx + 1], an eligible cell draws one number and is filled when
    the number exceeds the threshold. *)
Fixpoint faceLoop (face : Face) (threshold : Q) (cells : list nat)
    (lastIdx : Z) (group : list Object3D) : Store.M (list Object3D) :=
  match cells with
  | [] => Store.ret group
  | i :: rest =>
      if (lastIdx + 1 <? Z.of_nat i)%Z then
        let* r := Store.random rnd in
        if Qltb threshold r then
          let* group := addImg group face i in
          faceLoop face threshold rest (Z.of_nat i) group
        else faceLoop face threshold rest lastIdx group
      else faceLoop face threshold rest lastIdx group
  end.

Definition floorLoop (group : list Object3D) : Store.M (list Object3D) :=
  faceLoop Floor (80 # 100) (seq 0 FLOOR_COLS) (-999) group.

Definition ceilingLoop (group : list Object3D) : Store.M (list Object3D) :=
  faceLoop Ceiling (88 # 100) (seq 0 FLOOR_COLS) (-999) group.

Definition leftWallLoop (group : list Object3D) : Store.M (list Object3D) :=
  faceLoop LeftWall (80 # 100) (seq 0 WALL_ROWS) (-999) group.

Definition rightWallLoop (group : list Object3D) : Store.M (list Object3D) :=
  faceLoop RightWall (80 # 100) (seq 0 WALL_ROWS) (-999) group.

Definition populateImages (group : list Object3D) : Store.M (list Object3D) :=
  let* group := floorLoop group in
  let* group := ceilingLoop group in
  let* group := leftWallLoop group in
  rightWallLoop group.

(** [createSegment] (lines 56-106): the wireframe, whose vertex buffer is
    [Geometry.lineVertices], with the light palette, then the slabs. *)
Definition createSegment (zPos : Z) : Store.M Group :=
  let* id := Store.fresh in
  let* _ := Store.create (LineMaterial id) in
  let* _ := Store.create (LineGeometry id) in
  let lines := LineSegments id (mkLineMaterial 0xb0b0b0 true (1 # 2) false) in
  let* group := populateImages [lines] in
  Store.ret (mkGroup zPos group).

End WithRandom.

(** Cells filled under the adjacency gate: each one lies more than one
    cell after the one filled before it ([lastIdx] before the first). *)
Fixpoint Gated (lastIdx : Z) (cells : list nat) : Prop :=
  match cells with
  | [] => True
  | i :: rest => (lastIdx + 1 < Z.of_nat i)%Z /\ Gated (Z.of_nat i) rest
  end.

(** The random source of the scenario: 0.1 and 0.9 in turn. *)
Definition scenarioDraws : list Q :=
  [1 # 10; 9 # 10; 1 # 10; 9 # 10; 1 # 10; 9 # 10].

Definition scenarioSource (k : nat) : Q :=
  if Nat.even k then 1 # 10 else 9 # 10.

End Placement.

(** ** Segment pool and recycling: the [forEach] of [animate] (lines 224-270) *)

Module Pool.

Definition tunnelLength : Z := Z.of_nat NUM_SEGMENTS * SEGMENT_DEPTH.

(** [let minZ = 0; segmentsRef.current.forEach(s => minZ = Math.min(minZ, s.position.z))] *)
Definition minZ (positions : list Z) : Z := foldl Z.min 0%Z positions.

(** [let maxZ = -999999; segmentsRef.current.forEach(s => maxZ = Math.max(maxZ, s.position.z))] *)
Definition maxZ (positions : list Z) : Z := foldl Z.max (-999999)%Z positions.

(** The body of [toRemove.forEach]: the child leaves the segment and, being
    a mesh, has its geometry, its map when it has one, and its material
    disposed. *)
Definition release (group : list Object3D) (c : Object3D)
  : Store.M (list Object3D) :=
  let group := removeChild c group in
  match c with
  | Mesh _ slab =>
      let* _ := Store.dispose (SlabGeometry (slab_id slab)) in
      let* _ := (if slab_map slab
                 then Store.dispose (SlabTexture (slab_id slab))
                 else Store.ret tt) in
      let* _ := Store.dispose (SlabMaterial (slab_id slab)) in
      Store.ret group
  | LineSegments _ _ => Store.ret group
  end.

Fixpoint forEach {A S : Type} (f : S -> A -> Store.M S) (s : S) (l : list A)
  : Store.M S :=
  match l with
  | [] => Store.ret s
  | a :: rest => let* s := f s a in forEach f s rest
  end.

(** [segment.traverse] visits the segment, whose name is empty, and its
    children, which have none of their own; [toRemove] collects those named
    ["slab_image"]. *)
Definition toRemove (group : list Object3D) : list Object3D :=
  List.filter (fun c => String.eqb (objName c) "slab_image") group.

(** Lines 236-245 and 257-266. *)
Definition sweep (group : list Object3D) : Store.M (list Object3D) :=
  forEach release group (toRemove group).

Section WithSources.
Variable rnd : nat -> Q.
Variable fl : Q -> Q.

(** The "Re-populate" block, after the segment has been moved to [z]. *)
Definition repopulate (z : Z) (segment : Group) : Store.M Group :=
  let* group := sweep (children segment) in
  let* group := Placement.populateImages rnd fl group in
  Store.ret (mkGroup z group).

(** [segment.position.z > camZ + SEGMENT_DEPTH] *)
Definition passedBehind (camZ : Q) (z : Z) : bool :=
  Qltb (fadd fl camZ (inject_Z SEGMENT_DEPTH)) (inject_Z z).

(** [segment.position.z < camZ - tunnelLength - SEGMENT_DEPTH] *)
Definition passedAhead (camZ : Q) (z : Z) : bool :=
  Qltb (inject_Z z)
       (fsub fl (fsub fl camZ (inject_Z tunnelLength)) (inject_Z SEGMENT_DEPTH)).

(** The callback of the outer [forEach] on [segment], the array holding the
    segments [done] already visited in this frame, then [segment], then
    [rest]. *)
Definition visit (camZ : Q) (done rest : list Group) (segment : Group)
  : Store.M Group :=
  let* segment :=
    (if passedBehind camZ (position_z segment)
     then
       let m := minZ (map position_z (done ++ segment :: rest)) in
       repopulate (m - SEGMENT_DEPTH) segment
     else Store.ret segment) in
  if passedAhead camZ (position_z segment)
  then
    let m := maxZ (map position_z (done ++ segment :: rest)) in
    repopulate (m + SEGMENT_DEPTH) segment
  else Store.ret segment.

Fixpoint pass (camZ : Q) (done todo : list Group) : Store.M (list Group) :=
  match todo with
  | [] => Store.ret done
  | segment :: rest =>
      let* segment := visit camZ done rest segment in
      pass camZ (done ++ [segment]) rest
  end.

Definition recyclePass (camZ : Q) (segments : list Group)
  : Store.M (list Group) :=
  pass camZ [] segments.

(** The calls of [visit] that [pass] makes, in the order it makes them:
    each with the segments visited before, the segment, the segments
    after it, and the store at the time of the call. *)
Fixpoint visits (camZ : Q) (done todo : list Group) (h : Heap)
  : list (list Group * Group * list Group * Heap) :=
  match todo with
  | [] => []
  | segment :: rest =>
      (done, segment, rest, h)
      :: (let '(segment', h') := visit camZ done rest segment h in
          visits camZ (done ++ [segment']) rest h')
  end.

(** Lines 204-211: the pool is built at depths [0, -6, ..., -78]. *)
Fixpoint generate (indices : list nat) (segments : list Group)
  : Store.M (list Group) :=
  match indices with
  | [] => Store.ret segments
  | i :: rest =>
      let z := (- Z.of_nat i * SEGMENT_DEPTH)%Z in
      let* segment := Placement.createSegment rnd fl z in
      generate rest (segments ++ [segment])
  end.

Definition generateSegments : Store.M (list Group) :=
  generate (seq 0 NUM_SEGMENTS) [].

(** The heap right after the renderer has been created. *)
Definition heap0 : Heap := mkHeap 0 0 {[ Renderer ]}.

(** The pool after the recycling pass has run once for each camera depth
    of [camZs], in order. *)
Definition recycleFrames (camZs : list Q) (pool : list Group * Heap)
  : list Group * Heap :=
  foldl (fun p camZ => recyclePass camZ (fst p) (snd p)) pool camZs.

End WithSources.

Definition depths (segments : list Group) : list Z := map position_z segments.

(** Fourteen consecutive multiples of the segment depth, the largest being
    [SEGMENT_DEPTH * top]. *)
Definition run (top : Z) : list Z :=
  map (fun i => (SEGMENT_DEPTH * (top - Z.of_nat i))%Z) (seq 0 NUM_SEGMENTS).

Definition consecutive (positions : list Z) : Prop :=
  exists top : Z, positions ≡ₚ run top.

End Pool.

(** ** Camera driver: the smoothing of [animate] (lines 219-221) *)

Module Camera.
Local Open Scope Q_scope.

Section Rounded.
Variable fl : Q -> Q.

(** The literals [0.05] and [0.1], as the nearest representable values. *)
Definition SCROLL_FACTOR : Q := fl (5 # 100).
Definition SMOOTHING : Q := fl (1 # 10).

(** [const targetZ = -scrollPosRef.current * 0.05] *)
Definition targetDepth (scroll : Q) : Q := fmul fl (- scroll) SCROLL_FACTOR.

(** [cameraRef.current.position.z += (targetZ - currentZ) * 0.1] *)
Definition cameraStep (currentZ targetZ : Q) : Q :=
  fadd fl currentZ (fmul fl (fsub fl targetZ currentZ) SMOOTHING).

(** The camera depth after one frame that reads the scroll offset [scroll]. *)
Definition frameDepth (currentZ scroll : Q) : Q :=
  cameraStep currentZ (targetDepth scroll).

(** The camera depth after each frame of a run that reads the scroll
    offsets [scrolls], one per frame, starting from [currentZ]. *)
Fixpoint cameraTrace (currentZ : Q) (scrolls : list Q) : list Q :=
  match scrolls with
  | [] => []
  | scroll :: rest =>
      let z := frameDepth currentZ scroll in
      z :: cameraTrace z rest
  end.

(** The camera depth after [n] frames with the target held at [targetZ]. *)
Fixpoint approach (n : nat) (currentZ targetZ : Q) : Q :=
  match n with
  | O => currentZ
  | S k => approach k (cameraStep currentZ targetZ) targetZ
  end.

End Rounded.

(** What the proofs ask of a rounding: it is monotone, it leaves the
    integers up to [2^53] unchanged, and the opposite of a value it
    produced is a value it leaves unchanged.  Rounding to the nearest
    binary64 value has these properties on the range where no overflow
    occurs; so has exact arithmetic. *)
Record Rounding (fl : Q -> Q) : Prop := mkRounding {
  fl_mono : forall x y, x <= y -> fl x <= fl y;
  fl_int : forall n : Z, (Z.abs n <= 2 ^ 53)%Z -> fl (inject_Z n) == inject_Z n;
  fl_neg : forall x, fl (- fl x) == - fl x
}.

(** A rounding other than the exact one: down to a multiple of [1/1024]. *)
Definition grid (x : Q) : Q := inject_Z (Qfloor (x * 1024)) * (1 # 1024).

(** A rounding to the nearest value does not move a number further than
    that number lies from 0, which it leaves unchanged: the rounded value
    lies between 0 and twice the number. *)
Record Nearest (fl : Q -> Q) : Prop := mkNearest {
  near_pos : forall x, 0 <= x -> fl x <= 2 * x;
  near_neg : forall x, x <= 0 -> 2 * x <= fl x
}.

(** A rounding to nearest other than the exact one: to the nearest
    multiple of [1/1024], halves upwards. *)
Definition nearest (x : Q) : Q :=
  inject_Z (Qfloor (x * 1024 + (1 # 2))) * (1 # 1024).

End Camera.

(** The same step on binary64 floats, as the program evaluates it. *)
Module Binary64.
Local Open Scope float_scope.

Definition cameraStep (currentZ targetZ : float) : float :=
  currentZ + (targetZ - currentZ) * 0x1.999999999999ap-4.

Fixpoint approach (n : nat) (currentZ targetZ : float) : float :=
  match n with
  | O => currentZ
  | S k => approach k (cameraStep currentZ targetZ) targetZ
  end.

(** [|currentZ - targetZ|] *)
Definition distance (currentZ targetZ : float) : float :=
  abs (currentZ - targetZ).

End Binary64.

(** ** The component: refs, effects and events *)

Record Scene : Type := mkScene {
  background : option Z;
  fog : option Z
}.

(** The refs of the component and what its effects set up.  [frameId] tells
    whether an animation frame is requested. *)
Record World : Type := mkWorld {
  sceneRef : option Scene;
  cameraZ : Q;
  scrollPosRef : Q;
  segmentsRef : list Group;
  heap : Heap;
  scrollListener : bool;
  resizeListener : bool;
  frameId : bool
}.

Module Theme.
Local Open Scope Z_scope.

Definition bgHex (isDarkMode : bool) : Z :=
  if isDarkMode then 0x050505 else 0xffffff.

Definition fogHex (isDarkMode : bool) : Z :=
  if isDarkMode then 0x050505 else 0xffffff.

Definition lineHex (isDarkMode : bool) : Z :=
  if isDarkMode then 0x555555 else 0xb0b0b0.

Definition lineOp (isDarkMode : bool) : Q :=
  if isDarkMode then (35 # 100)%Q else (1 # 2)%Q.

(** Lines 316-323: the body of [segment.children.forEach]. *)
Definition themeChild (isDarkMode : bool) (child : Object3D) : Object3D :=
  match child with
  | LineSegments id mat =>
      LineSegments id
        (mkLineMaterial (lineHex isDarkMode) (transparent mat)
                        (lineOp isDarkMode) true)
  | Mesh _ _ => child
  end.

Definition themeSegment (isDarkMode : bool) (segment : Group) : Group :=
  mkGroup (position_z segment) (map (themeChild isDarkMode) (children segment)).

(** Lines 309-312: the background is replaced; the fog colour is set when
    the scene has a fog. *)
Definition themeScene (isDarkMode : bool) (scene : Scene) : Scene :=
  mkScene (Some (bgHex isDarkMode))
          (match fog scene with
           | Some _ => Some (fogHex isDarkMode)
           | None => None
           end).

(** The theme effect (lines 296-325). *)
Definition applyTheme (isDarkMode : bool) (w : World) : World :=
  match sceneRef w with
  | None => w
  | Some scene =>
      mkWorld (Some (themeScene isDarkMode scene)) (cameraZ w)
              (scrollPosRef w)
              (map (themeSegment isDarkMode) (segmentsRef w)) (heap w)
              (scrollListener w) (resizeListener w) (frameId w)
  end.

(** The fog colour of a world, when its scene exists and has a fog. *)
Definition fogColour (w : World) : option Z :=
  match sceneRef w with
  | Some scene => fog scene
  | None => None
  end.

(** The line materials of a group, and of a world segment by segment. *)
Definition linesOf (group : list Object3D) : list LineBasicMaterial :=
  flat_map (fun o => match o with
                     | LineSegments _ mat => [mat]
                     | Mesh _ _ => []
                     end) group.

Definition lineMaterials (w : World) : list LineBasicMaterial :=
  flat_map (fun segment => linesOf (children segment)) (segmentsRef w).

(** The slabs of a world, segment by segment. *)
Definition slabs (w : World) : list Slab :=
  flat_map (fun segment => slabsOf (children segment)) (segmentsRef w).

End Theme.

Module Lifecycle.
Local Open Scope Q_scope.

Section WithSources.
Variable rnd : nat -> Q.
Variable fl : Q -> Q.

(** [animate] (lines 215-273): request the next frame, move the camera, run
    the recycling pass, draw.  Drawing changes nothing the model holds. *)
Definition animate (w : World) : World :=
  match sceneRef w with
  | None =>
      mkWorld (sceneRef w) (cameraZ w) (scrollPosRef w) (segmentsRef w)
              (heap w) (scrollListener w) (resizeListener w) true
  | Some _ =>
      let camZ := Camera.frameDepth fl (cameraZ w) (scrollPosRef w) in
      let '(segments, h) := Pool.recyclePass rnd fl camZ (segmentsRef w) (heap w) in
      mkWorld (sceneRef w) camZ (scrollPosRef w) segments h
              (scrollListener w) (resizeListener w) true
  end.

(** The set-up effect (lines 180-286), with the canvas and the container
    in place: scene, camera at depth 0, renderer, pool, first call of
    [animate], listeners.  The resize handler only touches the camera
    aspect and the size of the drawing surface, which the model does not
    hold, so resizing is no event of the model. *)
Definition setup : World :=
  let '(segments, h) := Pool.generateSegments rnd fl Pool.heap0 in
  let w := mkWorld (Some (mkScene None None)) 0 0 segments h false false false in
  let w := animate w in
  mkWorld (sceneRef w) (cameraZ w) (scrollPosRef w) (segmentsRef w) (heap w)
          true true (frameId w).

(** Mounting runs the set-up effect, then the theme effect. *)
Definition mount (isDarkMode : bool) : World :=
  Theme.applyTheme isDarkMode setup.

(** The clean-up of the set-up effect (lines 287-292). *)
Definition teardown (w : World) : World :=
  mkWorld (sceneRef w) (cameraZ w) (scrollPosRef w) (segmentsRef w)
          (snd (Store.dispose Renderer (heap w)))
          false false false.

(** The callback of [textureLoader.load] (lines 117-122) for the slab
    [id]: the texture becomes the map of its material and the fade towards
    opacity 0.85 starts; the model records the value the fade ends at. *)
Definition loadSlab (id : nat) (o : Object3D) : Object3D :=
  match o with
  | Mesh name s =>
      if (slab_id s =? id)%nat
      then Mesh name (mkSlab (slab_id s) (slab_face s) (slab_cell s)
                             (slab_url s) true (85 # 100))
      else o
  | LineSegments _ _ => o
  end.

Definition attached (id : nat) (segments : list Group) : bool :=
  existsb (fun segment =>
             existsb (fun s => (slab_id s =? id)%nat) (slabsOf (children segment)))
          segments.

(** The texture is made by the loader; the store counts it from the moment
    it is the map of a material that the scene holds, which is when the
    renderer can upload it and when the sweep can reach it.  A load that
    resolves after its slab was swept writes to a material that no segment
    holds any more (specification, section 5: such loads resolve into
    unreferenced slabs); the renderer never draws it, so the store records
    no resource for it. *)
Definition textureLoaded (id : nat) (w : World) : World :=
  if attached id (segmentsRef w) then
    mkWorld (sceneRef w) (cameraZ w) (scrollPosRef w)
            (map (fun segment =>
                    mkGroup (position_z segment)
                            (map (loadSlab id) (children segment)))
                 (segmentsRef w))
            (snd (Store.create (SlabTexture id) (heap w)))
            (scrollListener w) (resizeListener w) (frameId w)
  else w.

(** What the browser can deliver to the page: [Tick] when it runs the
    animation frame that was requested, if one is; [ScrollTo] when the
    window scrolls, which reaches the component through its listener, if
    it is attached; a texture load that resolves; a change of the theme
    flag. *)
Inductive Event : Type :=
| Tick
| ScrollTo (y : Q)
| TextureLoaded (id : nat)
| ThemeChange (isDarkMode : bool).

Definition step (w : World) (e : Event) : World :=
  match e with
  | Tick => if frameId w then animate w else w
  | ScrollTo y =>
      if scrollListener w
      then mkWorld (sceneRef w) (cameraZ w) y (segmentsRef w) (heap w)
                   (scrollListener w) (resizeListener w) (frameId w)
      else w
  | TextureLoaded id => textureLoaded id w
  | ThemeChange isDarkMode => Theme.applyTheme isDarkMode w
  end.

Definition runEvents (w : World) (events : list Event) : World :=
  foldl step w events.

End WithSources.



End Lifecycle.

(** ** Invariants and abstractions used in the proofs *)

Module Invariants.

(** The two lines one iteration of each loop of the builder adds. *)
Definition floorCeilingLines (width height depth : Q) (floorCols i : nat)
  : list Geometry.Line :=
  let x := (- Geometry.halfW width + num i * Geometry.colWidth width floorCols)%Q in
  let h := Geometry.halfH height in
  [ ((x, - h, 0), (x, - h, - depth)); ((x, h, 0), (x, h, - depth)) ]%Q.

Definition wallLines (width height depth : Q) (wallRows i : nat)
  : list Geometry.Line :=
  let y := (- Geometry.halfH height + num i * Geometry.rowHeight height wallRows)%Q in
  let w := Geometry.halfW width in
  [ ((- w, y, 0), (- w, y, - depth)); ((w, y, 0), (w, y, - depth)) ]%Q.

(** Every mesh of the scene carries the name the sweep looks for. *)
Definition wellNamed (o : Object3D) : Prop :=
  match o with
  | Mesh name _ => name = "slab_image"
  | LineSegments _ _ => True
  end.

Definition isMesh (o : Object3D) : bool :=
  match o with
  | Mesh _ _ => true
  | LineSegments _ _ => false
  end.

(** [new] is what was allocated between the heaps [h] and [h']: objects
    numbered from [nextId h] on, whose resources are the ones added. *)
Record Placed (h h' : Heap) (new : list Object3D) : Prop := mkPlaced {
  placed_ids : map objId new = seq (nextId h) (length new);
  placed_next : nextId h' = (nextId h + length new)%nat;
  placed_live : live h' = live h ∪ ⋃ (map resourcesOf new);
  placed_named : Forall wellNamed new
}.

(** The object a resource belongs to. *)
Definition resOwner (r : Resource) : option nat :=
  match r with
  | Renderer => None
  | LineGeometry id | LineMaterial id
  | SlabGeometry id | SlabMaterial id | SlabTexture id => Some id
  end.

(** All scene objects of a pool. *)
Definition objects (segments : list Group) : list Object3D :=
  flat_map children segments.

(** The invariant of the store while the component is mounted: objects
    have distinct identities, all allocated already; meshes are named; and
    the live resources are the renderer and the resources of the objects in
    the scene. *)
Record ObjInv (objs : list Object3D) (h : Heap) : Prop := mkObjInv {
  inv_ids : NoDup (map objId objs);
  inv_fresh : Forall (fun o => objId o < nextId h) objs;
  inv_named : Forall wellNamed objs;
  inv_live : forall r,
    r ∈ live h <-> r = Renderer \/ exists o, o ∈ objs /\ r ∈ resourcesOf o
}.

(** The invariant of a mounted component: the store invariant holds of
    its pool. *)
Definition WorldInv (w : World) : Prop :=
  ObjInv (objects (segmentsRef w)) (heap w).



(** The recycling pass on the depths alone, over the two tests of the
    pass: a segment is sent to the far end when [fwd] holds of its depth,
    and to the near end when [bwd] holds of the depth it then has. *)
Fixpoint passDepths (fwd bwd : Z -> bool) (done todo : list Z) : list Z :=
  match todo with
  | [] => done
  | z :: rest =>
      let z1 := if fwd z
                then (Pool.minZ (done ++ z :: rest) - SEGMENT_DEPTH)%Z
                else z in
      let z2 := if bwd z1
                then (Pool.maxZ (done ++ z1 :: rest) + SEGMENT_DEPTH)%Z
                else z1 in
      passDepths fwd bwd (done ++ [z2]) rest
  end.

(** What a pass that only moves one way does to the depths: the [n]-th
    depth of which [sel] holds becomes [base + step * (c + n)]. *)
Fixpoint relocate (sel : Z -> bool) (base step c : Z) (l : list Z) : list Z :=
  match l with
  | [] => []
  | z :: rest =>
      if sel z
      then (base + step * (c + 1))%Z :: relocate sel base step (c + 1) rest
      else z :: relocate sel base step c rest
  end.

(** The depths [relocate] hands out to [k] segments. *)
Definition relocated (base step c : Z) (k : nat) : list Z :=
  map (fun j => (base + step * (c + 1 + Z.of_nat j))%Z) (seq 0 k).

(** The [n] consecutive multiples of 6 from [6 * top] downwards. *)
Definition desc (top : Z) (n : nat) : list Z :=
  map (fun i => (6 * (top - Z.of_nat i))%Z) (seq 0 n).

(** The pool invariant: the depths are the fourteen consecutive multiples
    of 6 below [6 * top], and [6 * top] lies between the two sentinels of
    the pass. *)
Definition PoolInv (top : Z) (positions : list Z) : Prop :=
  positions ≡ₚ Pool.run top /\ (-999999 <= 6 * top <= 0)%Z.

(** An object as [addImg] adds it in the loop of [face] over [cells]: a
    named mesh in one of the cells, without a map, with opacity 0, whose
    image is the one some draw of the random source picks. *)
Definition addedSlab (rnd : nat -> Q) (fl : Q -> Q) (face : Face)
    (cells : list nat) (o : Object3D) : Prop :=
  exists id i k,
    i ∈ cells
    /\ o = Mesh "slab_image"
             (mkSlab id face i
                     (Qfloor (fmul fl (rnd k) (inject_Z Placement.IMAGE_COUNT)))
                     false 0).

(** A slab sits in a cell of its face; it has opacity 0 until its texture
    is set, and 0.85 from then on. *)
Definition slabOK (s : Slab) : Prop :=
  slab_cell s < Placement.faceCells (slab_face s)
  /\ slab_opacity s = (if slab_map s then (85 # 100)%Q else 0%Q).

(** The content of a segment: slabs as above, under the adjacency gate on
    each face. *)
Definition contentOK (segment : Group) : Prop :=
  Forall slabOK (slabsOf (children segment))
  /\ forall face, Placement.Gated (-999) (filledCells face (children segment)).

(** A segment has one wireframe. *)
Definition oneWireframe (segment : Group) : Prop :=
  length (Theme.linesOf (children segment)) = 1.

(** A line material shows the palette of a theme. *)
Definition palette (isDarkMode : bool) (m : LineBasicMaterial) : Prop :=
  color m = Theme.lineHex isDarkMode /\ opacity m = Theme.lineOp isDarkMode.

(** The wireframe of a segment shows the palette of a theme. *)
Definition themed (isDarkMode : bool) (segment : Group) : Prop :=
  Forall (palette isDarkMode) (Theme.linesOf (children segment)).

(** The theme flag of the last theme change among [events], [isDarkMode]
    when there is none. *)
Definition lastTheme (isDarkMode : bool) (events : list Lifecycle.Event) : bool :=
  foldl (fun b e => match e with
                    | Lifecycle.ThemeChange b' => b'
                    | _ => b
                    end) isDarkMode events.

(** The scroll offsets for which the camera target stays above the
    sentinel -999999 of the recycling pass. *)
Definition scrollWithin (e : Lifecycle.Event) : Prop :=
  match e with
  | Lifecycle.ScrollTo y => (0 <= y <= 9999990)%Q
  | _ => True
  end.

(** The camera and the pool while the scroll offsets stay in that range:
    the pool satisfies its invariant, and the camera depth is a value of
    the arithmetic between -999999 and 0. *)
Definition Tracking (fl : Q -> Q) (w : World) : Prop :=
  (exists top, PoolInv top (Pool.depths (segmentsRef w)))
  /\ (-999999 <= cameraZ w <= 0)%Q
  /\ (fl (cameraZ w) == cameraZ w)%Q
  /\ (0 <= scrollPosRef w <= 9999990)%Q.

(** The shape of the pool of a mounted component. *)
Definition Shape (w : World) : Prop :=
  length (segmentsRef w) = NUM_SEGMENTS
  /\ Forall oneWireframe (segmentsRef w)
  /\ Forall contentOK (segmentsRef w).

(** A point of a segment strictly inside cell [i] of a face: on the plane
    of the face, between the grid lines [i] and [i + 1] of the wireframe,
    and between the near and the far end of the segment. *)
Definition insideCell (face : Face) (i : nat) (p : Geometry.Point) : Prop :=
  let '(x, y, z) := p in
  let x0 := Geometry.xOffset TUNNEL_WIDTH FLOOR_COLS in
  let y0 := Geometry.yOffset TUNNEL_HEIGHT WALL_ROWS in
  (- inject_Z SEGMENT_DEPTH < z < 0)%Q
  /\ match face with
     | Floor =>
         (y == - Geometry.halfH TUNNEL_HEIGHT /\ x0 i < x < x0 (S i))%Q
     | Ceiling =>
         (y == Geometry.halfH TUNNEL_HEIGHT /\ x0 i < x < x0 (S i))%Q
     | LeftWall =>
         (x == - Geometry.halfW TUNNEL_WIDTH /\ y0 i < y < y0 (S i))%Q
     | RightWall =>
         (x == Geometry.halfW TUNNEL_WIDTH /\ y0 i < y < y0 (S i))%Q
     end.

(** A point within the box of a segment: the cross-section of the tunnel,
    from the near end [z = 0] to the far end [z = -depth]. *)
Definition inBox (width height depth : Q) (p : Geometry.Point) : Prop :=
  let '(x, y, z) := p in
  (- Geometry.halfW width <= x <= Geometry.halfW width
   /\ - Geometry.halfH height <= y <= Geometry.halfH height
   /\ - depth <= z <= 0)%Q.

End Invariants.

(** * Properties *)

(** ** Tests on numbers *)

Module NumFacts.
Local Open Scope Q_scope.

Lemma Qeqb_true (a b : Q) : a == b -> Qeq_bool a b = true.
Proof. apply Qeq_bool_iff. Qed.

Lemma Qeqb_false (a b : Q) : ~ a == b -> Qeq_bool a b = false.
Proof.
  intros H. destruct (Qeq_bool a b) eqn:E; [|done].
  by apply Qeq_bool_iff in E.
Qed.

Lemma Qltb_true (a b : Q) : a < b -> Qltb a b = true.
Proof.
  intros H. unfold Qltb. destruct (Qle_bool b a) eqn:E; [|done].
  apply Qle_bool_iff in E. lra.
Qed.

Lemma Qltb_false (a b : Q) : b <= a -> Qltb a b = false.
Proof. intros H. unfold Qltb. apply Qle_bool_iff in H. by rewrite H. Qed.

Lemma Qltb_iff (a b : Q) : Qltb a b = true <-> a < b.
Proof.
  split; [|apply Qltb_true]. intros H.
  destruct (Qlt_le_dec a b) as [|Hle]; [done|].
  by rewrite (Qltb_false _ _ Hle) in H.
Qed.

End NumFacts.

(** ** Theme applier *)

Module ThemeFacts.
Import Theme.

Lemma themeChild_idem (b : bool) (o : Object3D) :
  themeChild b (themeChild b o) = themeChild b o.
Proof. by destruct o. Qed.

Lemma themeSegment_idem (b : bool) (g : Group) :
  themeSegment b (themeSegment b g) = themeSegment b g.
Proof.
  unfold themeSegment; simpl. f_equal.
  rewrite <- list_fmap_compose.
  apply list_fmap_ext; intros i o _. apply themeChild_idem.
Qed.

Lemma themeScene_idem (b : bool) (sc : Scene) :
  themeScene b (themeScene b sc) = themeScene b sc.
Proof. unfold themeScene; simpl. by destruct (fog sc). Qed.

(** C8: applying the same theme flag a second time changes nothing: the
    world after two applications is the world after one (background, fog,
    and every line material, together with everything else). *)
Theorem applyTheme_idempotent (isDarkMode : bool) (w : World) :
  applyTheme isDarkMode (applyTheme isDarkMode w) = applyTheme isDarkMode w.
Proof.
  unfold applyTheme.
  destruct (sceneRef w) as [sc|] eqn:E; simpl; [|by rewrite E].
  rewrite themeScene_idem. f_equal.
  rewrite <- list_fmap_compose.
  apply list_fmap_ext; intros i g _. apply themeSegment_idem.
Qed.

Lemma slabsOf_themed (b : bool) (group : list Object3D) :
  slabsOf (map (themeChild b) group) = slabsOf group.
Proof.
  induction group as [|o group IH]; [done|].
  unfold slabsOf in *; simpl. rewrite IH. by destruct o.
Qed.

Lemma slabs_themed (b : bool) (segments : list Group) :
  flat_map (fun g => slabsOf (children g)) (map (themeSegment b) segments)
  = flat_map (fun g => slabsOf (children g)) segments.
Proof.
  induction segments as [|g segments IH]; [done|].
  simpl. by rewrite IH, slabsOf_themed.
Qed.

Lemma linesOf_themed (b : bool) (group : list Object3D) :
  Forall2 (fun m' m => color m' = lineHex b /\ opacity m' = lineOp b
                       /\ transparent m' = transparent m)
          (linesOf (map (themeChild b) group)) (linesOf group).
Proof.
  induction group as [|o group IH]; [constructor|].
  destruct o; simpl; [constructor; auto|exact IH].
Qed.

Lemma lineMaterials_themed (b : bool) (segments : list Group) :
  Forall2 (fun m' m => color m' = lineHex b /\ opacity m' = lineOp b
                       /\ transparent m' = transparent m)
          (flat_map (fun g => linesOf (children g)) (map (themeSegment b) segments))
          (flat_map (fun g => linesOf (children g)) segments).
Proof.
  induction segments as [|g segments IH]; [constructor|].
  simpl. apply Forall2_app; [apply linesOf_themed|exact IH].
Qed.

End ThemeFacts.
(** ** Content placement *)

Module PlacementFacts.
Import Placement Invariants.

Lemma Placed_nil (h h' : Heap) :
  nextId h' = nextId h -> live h' = live h -> Placed h h' [].
Proof.
  intros Hn Hl. split; simpl; [done|lia| |constructor].
  rewrite Hl. set_solver.
Qed.

Lemma Placed_app (h h1 h2 : Heap) (n1 n2 : list Object3D) :
  Placed h h1 n1 -> Placed h1 h2 n2 -> Placed h h2 (n1 ++ n2).
Proof.
  intros [I1 N1 L1 S1] [I2 N2 L2 S2]. split.
  - rewrite map_app, length_app, seq_app, I1, I2, N1. done.
  - rewrite N2, N1, length_app. lia.
  - rewrite L2, L1, map_app, union_list_app_L. set_solver.
  - by apply Forall_app.
Qed.

Lemma filledCells_app (face : Face) (g1 g2 : list Object3D) :
  filledCells face (g1 ++ g2) = filledCells face g1 ++ filledCells face g2.
Proof.
  unfold filledCells, slabsOf.
  by rewrite flat_map_app, List.filter_app, map_app.
Qed.

Lemma bind_inv {A B} (m : Store.M A) (k : A -> Store.M B) (h h' : Heap) (b : B) :
  Store.bind m k h = (b, h') ->
  exists a h1, m h = (a, h1) /\ k a h1 = (b, h').
Proof.
  unfold Store.bind. destruct (m h) as [a h1]. intros E. by exists a, h1.
Qed.

Section WithRandom.
Variable rnd : nat -> Q.
Variable fl : Q -> Q.

Lemma addImg_placed (g g' : list Object3D) (face : Face) (i : nat) (h h' : Heap) :
  addImg rnd fl g face i h = (g', h') ->
  exists s, g' = g ++ [Mesh "slab_image" s]
    /\ slab_face s = face /\ slab_cell s = i
    /\ nextId h <= slab_id s
    /\ Placed h h' [Mesh "slab_image" s].
Proof.
  intros E. injection E as <- <-.
  eexists. split; [reflexivity|]. split; [done|]. split; [done|].
  split; [simpl; lia|].
  split; simpl.
  - done.
  - lia.
  - unfold slabResources; simpl. set_solver.
  - by repeat constructor.
Qed.

Lemma Placed_draw (h h' : Heap) (new : list Object3D) :
  Placed (mkHeap (S (draws h)) (nextId h) (live h)) h' new -> Placed h h' new.
Proof. intros [I N L S]. by split. Qed.

Lemma faceLoop_spec (face : Face) (thr : Q) (cells : list nat) :
  forall (lastIdx : Z) (g g' : list Object3D) (h h' : Heap),
  faceLoop rnd fl face thr cells lastIdx g h = (g', h') ->
  exists new,
    g' = g ++ new
    /\ Gated lastIdx (filledCells face new)
    /\ (forall f, f <> face -> filledCells f new = [])
    /\ Placed h h' new.
Proof.
  induction cells as [|i rest IH]; intros lastIdx g g' h h' E.
  - injection E as <- <-. exists []. rewrite app_nil_r.
    repeat split; try done. by apply Placed_nil.
  - simpl in E. destruct (lastIdx + 1 <? Z.of_nat i)%Z eqn:Hgate; [|by eapply IH].
    apply bind_inv in E as (r & h1 & Er & E). injection Er as <- <-.
    destruct (Qltb thr (rnd (draws h))) eqn:Hroll.
    + apply bind_inv in E as (g1 & h2 & Ea & E).
      apply addImg_placed in Ea as (s & -> & Hf & Hc & _ & Hp).
      apply IH in E as (new & -> & Hgated & Hother & Hp').
      exists ([Mesh "slab_image" s] ++ new).
      split; [by rewrite <- app_assoc|]. split; [|split].
      * rewrite filledCells_app. unfold filledCells at 1; simpl.
        rewrite Hf, bool_decide_true by done. simpl. rewrite Hc.
        split; [by apply Z.ltb_lt|done].
      * intros f Hne. rewrite filledCells_app, Hother by done.
        unfold filledCells; simpl. rewrite Hf, bool_decide_false; [done|congruence].
      * apply Placed_draw. eapply Placed_app; [exact Hp|exact Hp'].
    + apply IH in E as (new & -> & Hgated & Hother & Hp').
      exists new. repeat split; try done; apply Hp'.
Qed.

(** The three ways one cell of a face loop can go. *)
Lemma faceLoop_skip face thr i rest lastIdx g h :
  (lastIdx + 1 <? Z.of_nat i)%Z = false ->
  faceLoop rnd fl face thr (i :: rest) lastIdx g h
  = faceLoop rnd fl face thr rest lastIdx g h.
Proof. intros E. simpl. by rewrite E. Qed.

Lemma faceLoop_miss face thr i rest lastIdx g h :
  (lastIdx + 1 <? Z.of_nat i)%Z = true ->
  Qltb thr (rnd (draws h)) = false ->
  faceLoop rnd fl face thr (i :: rest) lastIdx g h
  = faceLoop rnd fl face thr rest lastIdx g
             (mkHeap (S (draws h)) (nextId h) (live h)).
Proof.
  intros E R. simpl. rewrite E. unfold Store.bind, Store.random. by rewrite R.
Qed.

Lemma faceLoop_fill face thr i rest lastIdx g h :
  (lastIdx + 1 <? Z.of_nat i)%Z = true ->
  Qltb thr (rnd (draws h)) = true ->
  faceLoop rnd fl face thr (i :: rest) lastIdx g h
  = faceLoop rnd fl face thr rest (Z.of_nat i)
      (g ++ [Mesh "slab_image"
               (mkSlab (nextId h) face i
                       (Qfloor (fmul fl (rnd (S (draws h))) (inject_Z IMAGE_COUNT)))
                       false 0)])
      (mkHeap (S (S (draws h))) (S (nextId h))
              ({[ SlabMaterial (nextId h) ]}
               ∪ ({[ SlabGeometry (nextId h) ]} ∪ live h))).
Proof.
  intros E R. simpl. rewrite E. unfold Store.bind at 1, Store.random.
  by rewrite R.
Qed.

Lemma populateImages_spec (g g' : list Object3D) (h h' : Heap) :
  populateImages rnd fl g h = (g', h') ->
  exists new,
    g' = g ++ new
    /\ (forall face, Gated (-999) (filledCells face new))
    /\ Placed h h' new.
Proof.
  unfold populateImages, floorLoop, ceilingLoop, leftWallLoop, rightWallLoop.
  intros E.
  apply bind_inv in E as (g1 & h1 & E1 & E).
  apply bind_inv in E as (g2 & h2 & E2 & E).
  apply bind_inv in E as (g3 & h3 & E3 & E4).
  apply faceLoop_spec in E1 as (n1 & -> & G1 & O1 & P1).
  apply faceLoop_spec in E2 as (n2 & -> & G2 & O2 & P2).
  apply faceLoop_spec in E3 as (n3 & -> & G3 & O3 & P3).
  apply faceLoop_spec in E4 as (n4 & -> & G4 & O4 & P4).
  exists (n1 ++ n2 ++ n3 ++ n4).
  split; [by rewrite <- !app_assoc|]. split.
  - intros face. rewrite !filledCells_app.
    destruct face.
    + rewrite O2, O3, O4 by done. by rewrite !app_nil_r.
    + rewrite O1, O3, O4 by done. by rewrite !app_nil_r.
    + rewrite O1, O2, O4 by done. by rewrite !app_nil_r.
    + by rewrite O1, O2, O3 by done.
  - eauto using Placed_app.
Qed.

End WithRandom.

Lemma Gated_lower (lastIdx : Z) (cells : list nat) :
  Gated lastIdx cells -> Forall (fun i => (lastIdx + 1 < Z.of_nat i)%Z) cells.
Proof.
  revert lastIdx; induction cells as [|i rest IH]; intros lastIdx; [constructor|].
  intros [Hi Hrest]. constructor; [done|].
  eapply Forall_impl; [by apply IH|]. simpl. lia.
Qed.

Lemma Gated_no_neighbours (lastIdx : Z) (cells : list nat) :
  Gated lastIdx cells ->
  forall i j, In i cells -> In j cells -> i <> S j.
Proof.
  revert lastIdx; induction cells as [|c rest IH]; intros lastIdx; [done|].
  intros [Hc Hrest] i j [<-|Hi] [<-|Hj].
  - lia.
  - apply Gated_lower in Hrest. rewrite Forall_forall in Hrest.
    apply list_elem_of_In, Hrest in Hj. lia.
  - apply Gated_lower in Hrest. rewrite Forall_forall in Hrest.
    apply list_elem_of_In, Hrest in Hi. lia.
  - by eapply IH.
Qed.

(** C6: whatever the random source, one run of [populateImages] adds, on
    each of the four faces, slabs whose cells each lie more than one cell
    after the cell filled before it on that face; so no two filled cells of
    a face are neighbours. *)
Theorem adjacency_law (rnd : nat -> Q) (fl : Q -> Q) (group : list Object3D)
    (h : Heap) :
  exists new,
    fst (populateImages rnd fl group h) = group ++ new
    /\ forall face,
         Gated (-999) (filledCells face new)
         /\ forall i j, In i (filledCells face new) ->
                        In j (filledCells face new) -> i <> S j.
Proof.
  destruct (populateImages rnd fl group h) as [g' h'] eqn:E.
  apply populateImages_spec in E as (new & -> & Hg & _).
  exists new. split; [done|]. intros face. split; [apply Hg|].
  eapply Gated_no_neighbours, Hg.
Qed.

Lemma Qltb_proper (a b b' : Q) : (b == b')%Q -> Qltb a b = Qltb a b'.
Proof. intros E. unfold Qltb. by rewrite E. Qed.

(** C3, as the program runs it: with draws 0.1, 0.9, 0.1, 0.9, 0.1, 0.9 the
    floor loop fills the cells 1, 3 and 5.  A draw fills its cell when it
    exceeds 0.80, each fill takes the next draw for the choice of the image,
    and the cell after a filled one draws nothing. *)
Theorem floor_scenario (rnd : nat -> Q) (fl : Q -> Q) (group : list Object3D)
    (h : Heap) :
  draws h = 0 ->
  Forall2 Qeq (map rnd (seq 0 6)) scenarioDraws ->
  filledCells Floor (fst (floorLoop rnd fl group h))
  = filledCells Floor group ++ [1; 3; 5].
Proof.
  intros Hd Hr. destruct h as [d n l]; simpl in Hd; subst d.
  unfold scenarioDraws in Hr; simpl in Hr.
  repeat match goal with
         | H : Forall2 _ (_ :: _) _ |- _ =>
             apply Forall2_cons_inv_l in H as (? & ? & ? & H & [=<- <-])
         | H : Forall2 _ [] _ |- _ => clear H
         end.
  assert (Hlo : forall x, (x == 1 # 10)%Q -> Qltb (80 # 100) x = false).
  { intros x E. by rewrite (Qltb_proper _ x (1 # 10)). }
  assert (Hhi : forall x, (x == 9 # 10)%Q -> Qltb (80 # 100) x = true).
  { intros x E. by rewrite (Qltb_proper _ x (9 # 10)). }
  unfold floorLoop, FLOOR_COLS; simpl seq.
  rewrite faceLoop_miss by (try apply Hlo; done).
  rewrite faceLoop_fill by (try apply Hhi; done).
  rewrite faceLoop_skip by done.
  rewrite faceLoop_fill by (try apply Hhi; done).
  rewrite faceLoop_skip by done.
  rewrite faceLoop_fill by (try apply Hhi; done).
  simpl. rewrite !filledCells_app. by rewrite <- !app_assoc.
Qed.

(** The scenario source gives the six draws of the scenario, and the
    theorem applies to it. *)
Lemma floor_scenario_witness :
  filledCells Floor (fst (floorLoop scenarioSource exact [] (mkHeap 0 0 ∅))) = [1; 3; 5].
Proof.
  apply (floor_scenario scenarioSource exact [] (mkHeap 0 0 ∅)).
  - reflexivity.
  - repeat constructor.
Defined.

(** C3, as the specification states it, fails: on that random source the
    filled cells are not 0, 2 and 4. *)
Lemma floor_scenario_not_0_2_4 :
  map scenarioSource (seq 0 6) = scenarioDraws
  /\ filledCells Floor (fst (floorLoop scenarioSource exact [] (mkHeap 0 0 ∅)))
     <> [0; 2; 4].
Proof. split; [reflexivity|]. vm_compute. discriminate. Qed.

End PlacementFacts.

(** ** Camera driver *)

Module CameraFacts.
Import Camera.
Local Open Scope Q_scope.

Lemma Rounding_exact : Rounding exact.
Proof. split; unfold exact; intros; (done || lra). Qed.

Lemma grid_mult (x : Q) : grid x * 1024 == inject_Z (Qfloor (x * 1024)).
Proof. unfold grid. field. Qed.

Lemma Rounding_grid : Rounding grid.
Proof.
  split.
  - intros x y Hxy. unfold grid.
    assert (Qfloor (x * 1024) <= Qfloor (y * 1024))%Z as Hf
      by (apply Qfloor_resp_le; lra).
    rewrite Zle_Qle in Hf. lra.
  - intros n _. unfold grid.
    assert (inject_Z n * 1024 == inject_Z (n * 1024)) as ->
      by (rewrite inject_Z_mult; reflexivity).
    rewrite Qfloor_Z, inject_Z_mult. field.
  - intros x. unfold grid at 1.
    assert (- grid x * 1024 == inject_Z (- Qfloor (x * 1024))) as ->
      by (rewrite inject_Z_opp, <- grid_mult; ring).
    rewrite Qfloor_Z, inject_Z_opp. unfold grid. field.
Qed.

Section Rounded.
Variable fl : Q -> Q.
Hypothesis Hfl : Rounding fl.

Lemma fl_proper (x y : Q) : x == y -> fl x == fl y.
Proof using Hfl.
  intros E. apply Qle_antisym; apply (fl_mono fl Hfl); rewrite E; apply Qle_refl.
Qed.

Lemma fl_zero : fl 0 == 0.
Proof using Hfl. apply (fl_int fl Hfl 0). done. Qed.

Lemma fl_one : fl 1 == 1.
Proof using Hfl. apply (fl_int fl Hfl 1). done. Qed.

Lemma fl_nonpos (x : Q) : x <= 0 -> fl x <= 0.
Proof using Hfl. intros H. rewrite <- fl_zero. by apply (fl_mono fl Hfl). Qed.

Lemma fl_nonneg (x : Q) : 0 <= x -> 0 <= fl x.
Proof using Hfl. intros H. rewrite <- fl_zero. by apply (fl_mono fl Hfl). Qed.

Lemma fl_le_int (x : Q) (m : Z) :
  (Z.abs m <= 2 ^ 53)%Z -> x <= inject_Z m -> fl x <= inject_Z m.
Proof using Hfl.
  intros Hm Hx. rewrite <- (fl_int fl Hfl m Hm). by apply (fl_mono fl Hfl).
Qed.

Lemma fl_ge_int (x : Q) (m : Z) :
  (Z.abs m <= 2 ^ 53)%Z -> inject_Z m <= x -> inject_Z m <= fl x.
Proof using Hfl.
  intros Hm Hx. rewrite <- (fl_int fl Hfl m Hm). by apply (fl_mono fl Hfl).
Qed.

Lemma SMOOTHING_range : 0 <= SMOOTHING fl <= 1.
Proof using Hfl.
  unfold SMOOTHING. split; [apply fl_nonneg; lra|].
  rewrite <- fl_one. apply (fl_mono fl Hfl). lra.
Qed.

Lemma targetDepth_nonpos (scroll : Q) : 0 <= scroll -> targetDepth fl scroll <= 0.
Proof using Hfl.
  intros Hs. unfold targetDepth, fmul, SCROLL_FACTOR. apply fl_nonpos.
  assert (0 <= fl (5 # 100)) by (apply fl_nonneg; lra). nra.
Qed.

(** One step keeps a camera that is at or behind depth 0 there, when the
    target is at or behind depth 0 too. *)
Lemma cameraStep_nonpos (z t : Q) :
  z <= 0 -> fl (- z) == - z -> t <= 0 -> cameraStep fl z t <= 0.
Proof using Hfl.
  intros Hz Hrep Ht. unfold cameraStep, fadd, fmul, fsub.
  apply fl_nonpos.
  pose proof SMOOTHING_range as [Hk0 Hk1].
  assert (fl (t - z) <= - z) as Hd.
  { rewrite <- Hrep. apply (fl_mono fl Hfl). lra. }
  destruct (Qlt_le_dec 0 (fl (t - z))) as [Hpos|Hneg].
  - assert (fl (fl (t - z) * SMOOTHING fl) <= - z).
    { rewrite <- Hrep. apply (fl_mono fl Hfl). nra. }
    lra.
  - assert (fl (fl (t - z) * SMOOTHING fl) <= 0) by (apply fl_nonpos; nra).
    lra.
Qed.

Lemma cameraStep_representable (z t : Q) :
  fl (- cameraStep fl z t) == - cameraStep fl z t.
Proof using Hfl. unfold cameraStep, fadd. apply (fl_neg fl Hfl). Qed.

Lemma cameraTrace_nonpos (scrolls : list Q) :
  Forall (fun y => 0 <= y) scrolls ->
  forall z, z <= 0 -> fl (- z) == - z ->
  Forall (fun z' => z' <= 0) (cameraTrace fl z scrolls).
Proof using Hfl.
  induction 1 as [|y scrolls Hy _ IH]; intros z Hz Hrep; [constructor|].
  simpl. assert (frameDepth fl z y <= 0) as Hstep.
  { apply cameraStep_nonpos; [done|done|by apply targetDepth_nonpos]. }
  constructor; [done|].
  apply IH; [done|apply cameraStep_representable].
Qed.

End Rounded.

(** C10: whatever the rounding of the arithmetic, for every sequence of
    non-negative scroll offsets, read one per frame, the camera depth, which
    starts at 0, is at most 0 after every frame. *)
Theorem camera_never_in_front (fl : Q -> Q) (scrolls : list Q) :
  Rounding fl ->
  Forall (fun y => 0 <= y) scrolls ->
  Forall (fun z => z <= 0) (cameraTrace fl 0 scrolls).
Proof.
  intros Hfl Hs. apply cameraTrace_nonpos; [done|done|lra|].
  assert (- 0 == 0) as E by ring.
  rewrite (fl_proper fl Hfl _ _ E), E. by apply fl_zero.
Qed.

Lemma camera_never_in_front_witness :
  Forall (fun z => z <= 0) (cameraTrace grid 0 [100; 2500; 0]).
Proof.
  apply (camera_never_in_front grid [100; 2500; 0] Rounding_grid).
  repeat constructor; discriminate.
Defined.

(** The step in exact arithmetic. *)
Lemma cameraStep_exact (z t : Q) :
  cameraStep exact z t == z + (t - z) * (1 # 10).
Proof. reflexivity. Qed.

Lemma approach_S (fl : Q -> Q) (n : nat) (z t : Q) :
  approach fl (S n) z t = cameraStep fl (approach fl n z t) t.
Proof. revert z; induction n as [|n IH]; intros z; [done|]. simpl in *. by rewrite IH. Qed.

Lemma approach_below (n : nat) (z t : Q) : z < t -> approach exact n z t < t.
Proof.
  induction n as [|n IH]; intros Hz; [done|].
  rewrite approach_S. specialize (IH Hz).
  rewrite cameraStep_exact. lra.
Qed.

Lemma approach_above (n : nat) (z t : Q) : t < z -> t < approach exact n z t.
Proof.
  induction n as [|n IH]; intros Hz; [done|].
  rewrite approach_S. specialize (IH Hz).
  rewrite cameraStep_exact. lra.
Qed.

(** C7, in exact arithmetic: with the target held at [t] and the camera
    started at a depth [z] other than [t], every update brings the camera
    strictly closer to the target and leaves it strictly on the side of the
    target it started on. *)
Theorem smoothing_monotone (n : nat) (z t : Q) :
  ~ z == t ->
  Qabs (approach exact (S n) z t - t) < Qabs (approach exact n z t - t)
  /\ (z < t -> approach exact n z t < approach exact (S n) z t < t)
  /\ (t < z -> t < approach exact (S n) z t < approach exact n z t).
Proof.
  intros Hne. rewrite approach_S. set (a := approach exact n z t).
  pose proof (cameraStep_exact a t) as Hs.
  destruct (Q_dec z t) as [[Hlt|Hgt]|Heq]; [| |done].
  - pose proof (approach_below n z t Hlt) as Ha. fold a in Ha.
    split; [|split; [intros _; lra|intros ?; lra]].
    rewrite (Qabs_neg (a - t)), Qabs_neg by lra. lra.
  - pose proof (approach_above n z t Hgt) as Ha. fold a in Ha.
    split; [|split; [intros ?; lra|intros _; lra]].
    rewrite (Qabs_pos (a - t)), Qabs_pos by lra. lra.
Qed.

Lemma smoothing_monotone_witness :
  Qabs (approach exact 3 0 (-5) - -5) < Qabs (approach exact 2 0 (-5) - -5)
  /\ (0 < -5 -> approach exact 2 0 (-5) < approach exact 3 0 (-5) < -5)
  /\ (-5 < 0 -> -5 < approach exact 3 0 (-5) < approach exact 2 0 (-5)).
Proof. apply (smoothing_monotone 2 0 (-5)). discriminate. Defined.

(** C7 on binary64 floats, as the program computes: from depth 0 with the
    target held at -5 (a scroll offset of 100), the camera reaches
    -4.9999999999999964 after 400 frames and stays there; the update no
    longer changes the depth, and the distance to the target, which is not
    zero, no longer decreases. *)
Lemma smoothing_stalls_binary64 :
  let z := (-0x1.3fffffffffffcp+2)%float in
  let t := (-5)%float in
  Binary64.approach 400 0%float t = z
  /\ PrimFloat.eqb z t = false
  /\ Binary64.cameraStep z t = z
  /\ PrimFloat.ltb (Binary64.distance (Binary64.cameraStep z t) t)
                   (Binary64.distance z t) = false.
Proof. vm_compute. repeat split. Qed.

End CameraFacts.

(** ** Geometry builder *)

Module GeometryFacts.
Import Geometry Invariants NumFacts.
Local Open Scope Q_scope.

Lemma num_le (i j : nat) : (i <= j)%nat -> num i <= num j.
Proof. intros H. unfold num. rewrite <- Zle_Qle. lia. Qed.

Lemma num_lt (i j : nat) : (i < j)%nat -> num i < num j.
Proof. intros H. unfold num. rewrite <- Zlt_Qlt. lia. Qed.

Lemma filter_flat_map {A B} (p : B -> bool) (f : A -> list B) (l : list A) :
  List.filter p (flat_map f l) = flat_map (fun a => List.filter p (f a)) l.
Proof.
  induction l as [|a l IH]; [done|]. simpl. by rewrite List.filter_app, IH.
Qed.

Lemma flat_map_singleton {A B} (P : A -> Prop) (f : A -> list B) (g : A -> B)
    (l : list A) :
  Forall P l -> (forall a, P a -> f a = [g a]) -> flat_map f l = map g l.
Proof.
  intros Hl Hf. induction Hl as [|a l Ha _ IH]; [done|].
  simpl. by rewrite Hf, IH.
Qed.

Lemma flat_map_empty {A B} (P : A -> Prop) (f : A -> list B) (l : list A) :
  Forall P l -> (forall a, P a -> f a = []) -> flat_map f l = [].
Proof.
  intros Hl Hf. induction Hl as [|a l Ha _ IH]; [done|].
  simpl. by rewrite Hf, IH.
Qed.

Section Builder.
Variables (width height depth : Q) (floorCols wallRows : nat).
Hypothesis Hwidth : 0 < width.
Hypothesis Hheight : 0 < height.
Hypothesis Hdepth : 0 < depth.

Abbreviation w := (halfW width).
Abbreviation h := (halfH height).
Abbreviation d := depth.

Lemma halfW_eq : w == width * (1 # 2).
Proof. reflexivity. Qed.

Lemma halfH_eq : h == height * (1 # 2).
Proof. reflexivity. Qed.

Lemma halfW_pos : 0 < w.
Proof using Hwidth. rewrite halfW_eq. lra. Qed.

Lemma halfH_pos : 0 < h.
Proof using Hheight. rewrite halfH_eq. lra. Qed.

Lemma floorCeiling_lines (l : list nat) (vs : list Q) (rest : list Q) :
  foldl (floorCeilingStep width height depth floorCols) vs l ++ rest
  = vs ++ flat_map (fun i =>
        let x := - w + num i * colWidth width floorCols in
        [x; - h; 0; x; - h; - d; x; h; 0; x; h; - d]) l ++ rest.
Proof.
  revert vs; induction l as [|i l IH]; intros vs; [done|].
  simpl. rewrite IH. unfold floorCeilingStep, push.
  by rewrite <- !app_assoc.
Qed.

Lemma wall_lines (l : list nat) (vs : list Q) (rest : list Q) :
  foldl (wallStep width height depth wallRows) vs l ++ rest
  = vs ++ flat_map (fun i =>
        let y := - h + num i * rowHeight height wallRows in
        [- w; y; 0; - w; y; - d; w; y; 0; w; y; - d]) l ++ rest.
Proof.
  revert vs; induction l as [|i l IH]; intros vs; [done|].
  simpl. rewrite IH. unfold wallStep, push.
  by rewrite <- !app_assoc.
Qed.

Lemma lineSegments_blocks {A} (f : A -> list Q) (g : A -> list Line)
    (l : list A) (rest : list Q) :
  (forall a tail, lineSegments (f a ++ tail) = g a ++ lineSegments tail) ->
  lineSegments (flat_map f l ++ rest) = flat_map g l ++ lineSegments rest.
Proof.
  intros Hf. induction l as [|a l IH]; [done|].
  simpl. by rewrite <- !app_assoc, Hf, IH.
Qed.

(** The line list of the grid, block by block. *)
Lemma gridVertices_lines :
  lineSegments (gridVertices width height depth floorCols wallRows)
  = flat_map (floorCeilingLines width height depth floorCols) (seq 0 (S floorCols))
    ++ flat_map (wallLines width height depth wallRows) (seq 1 (wallRows - 1))
    ++ ringLines width height.
Proof.
  unfold gridVertices, ringStep, push.
  rewrite <- !app_assoc.
  rewrite wall_lines, floorCeiling_lines, app_nil_l.
  rewrite (lineSegments_blocks _ (floorCeilingLines width height depth floorCols))
    by done.
  rewrite (lineSegments_blocks _ (wallLines width height depth wallRows))
    by done.
  done.
Qed.

Lemma longitudinal_along (x y : Q) :
  longitudinal d ((x, y, 0), (x, y, - d)) = true.
Proof. unfold longitudinal. by rewrite !Qeqb_true. Qed.

Lemma longitudinal_near (p : Point) (x y : Q) :
  longitudinal d (p, (x, y, 0)) = false.
Proof using Hdepth.
  destruct p as [[x0 y0] z0]. unfold longitudinal.
  rewrite (Qeqb_false 0 (- d)) by lra. by rewrite andb_false_r.
Qed.

Lemma latitudinal_along (p : Point) (x y : Q) :
  latitudinal (p, (x, y, - d)) = false.
Proof using Hdepth.
  destruct p as [[x0 y0] z0]. unfold latitudinal.
  rewrite (Qeqb_false (- d) 0) by lra. by rewrite andb_false_r.
Qed.

Lemma rowHeight_mult : rowHeight height wallRows * num wallRows == height \/ wallRows = O.
Proof.
  destruct wallRows as [|r]; [by right|left].
  unfold rowHeight. field. unfold num. intros E.
  apply (Qeq_bool_neq _ _ (eq_refl : Qeq_bool (inject_Z (Z.of_nat (S r))) 0 = false)) in E; done.
Qed.

Lemma rowHeight_pos : (0 < wallRows)%nat -> 0 < rowHeight height wallRows.
Proof using Hheight.
  intros Hr. destruct rowHeight_mult as [E|E]; [|lia].
  apply (num_lt 0) in Hr. change (num 0) with 0 in Hr.
  destruct (Qlt_le_dec 0 (rowHeight height wallRows)) as [|Hle]; [done|].
  nra.
Qed.

(** The heights of the wall lines lie strictly between floor and ceiling. *)
Lemma wall_height_inside (i : nat) :
  (1 <= i < wallRows)%nat ->
  - h < - h + num i * rowHeight height wallRows < h.
Proof using Hheight.
  intros [Hi Hr].
  pose proof (rowHeight_pos ltac:(lia)) as Hq.
  destruct rowHeight_mult as [E|E]; [|lia].
  apply (num_le 1) in Hi. change (num 1) with 1 in Hi.
  apply num_lt in Hr. rewrite halfH_eq. split; nra.
Qed.

Abbreviation isFloorLine := (isFloorLine height depth).
Abbreviation isCeilingLine := (isCeilingLine height depth).
Abbreviation isLeftWallLine := (isLeftWallLine width height depth).
Abbreviation isRightWallLine := (isRightWallLine width height depth).

Lemma floorCeiling_filters (i : nat) :
  let ls := floorCeilingLines width height depth floorCols i in
  List.filter isFloorLine ls = take 1 ls
  /\ List.filter isCeilingLine ls = drop 1 ls
  /\ List.filter isLeftWallLine ls = []
  /\ List.filter isRightWallLine ls = []
  /\ List.filter latitudinal ls = [].
Proof using Hheight Hdepth.
  pose proof halfH_pos as Hh.
  unfold floorCeilingLines, Geometry.isFloorLine, Geometry.isCeilingLine,
    Geometry.isLeftWallLine, Geometry.isRightWallLine. cbn [List.filter].
  rewrite !longitudinal_along, !latitudinal_along. cbn [andb atHeight onWall].
  rewrite (Qeqb_true (- h) (- h)), (Qeqb_true h h) by reflexivity.
  rewrite (Qeqb_false h (- h)), (Qeqb_false (- h) h) by lra.
  rewrite (Qltb_false (- h) (- h)), (Qltb_false h h) by lra.
  by rewrite !andb_false_r.
Qed.

Lemma wall_filters (i : nat) :
  (1 <= i < wallRows)%nat ->
  let ls := wallLines width height depth wallRows i in
  List.filter isFloorLine ls = []
  /\ List.filter isCeilingLine ls = []
  /\ List.filter isLeftWallLine ls = take 1 ls
  /\ List.filter isRightWallLine ls = drop 1 ls
  /\ List.filter latitudinal ls = [].
Proof using Hwidth Hheight Hdepth.
  intros Hi. pose proof (wall_height_inside i Hi) as [Hlo Hhi].
  pose proof halfW_pos as Hw.
  unfold wallLines, Geometry.isFloorLine, Geometry.isCeilingLine,
    Geometry.isLeftWallLine, Geometry.isRightWallLine. cbn [List.filter].
  rewrite !longitudinal_along, !latitudinal_along. cbn [andb atHeight onWall].
  rewrite (Qeqb_false _ (- h)), (Qeqb_false _ h) by lra.
  rewrite (Qeqb_true (- w) (- w)), (Qeqb_true w w) by reflexivity.
  rewrite (Qeqb_false w (- w)), (Qeqb_false (- w) w) by lra.
  rewrite (Qltb_true (- h)), (Qltb_true _ h) by lra.
  done.
Qed.

Lemma ring_filters :
  let ls := ringLines width height in
  List.filter isFloorLine ls = []
  /\ List.filter isCeilingLine ls = []
  /\ List.filter isLeftWallLine ls = []
  /\ List.filter isRightWallLine ls = []
  /\ List.filter latitudinal ls = ls.
Proof using Hdepth.
  unfold ringLines, Geometry.isFloorLine, Geometry.isCeilingLine,
    Geometry.isLeftWallLine, Geometry.isRightWallLine. cbn [List.filter].
  rewrite !longitudinal_near. cbn [andb latitudinal].
  by rewrite (Qeqb_true 0 0) by reflexivity.
Qed.

Lemma colWidth_spec : colWidth width floorCols == 2 * w / num floorCols.
Proof. unfold colWidth, halfW, Qdiv. change (/ 2) with (1 # 2). ring. Qed.

Lemma rowHeight_spec : rowHeight height wallRows == 2 * h / num wallRows.
Proof. unfold rowHeight, halfH, Qdiv. change (/ 2) with (1 # 2). ring. Qed.

Lemma floorCeiling_spec (i : nat) :
  Forall2 line_eq (floorCeilingLines width height depth floorCols i)
    [floorLine width height depth floorCols i;
     ceilingLine width height depth floorCols i].
Proof.
  unfold floorCeilingLines, floorLine, ceilingLine, xOffset.
  repeat constructor; simpl; rewrite ?colWidth_spec; reflexivity.
Qed.

Lemma wall_spec (i : nat) :
  Forall2 line_eq (wallLines width height depth wallRows i)
    [leftWallLine width height depth wallRows i;
     rightWallLine width height depth wallRows i].
Proof.
  unfold wallLines, leftWallLine, rightWallLine, yOffset.
  repeat constructor; simpl; rewrite ?rowHeight_spec; reflexivity.
Qed.

End Builder.

Lemma flat_map_ext_Forall {A B} (P : A -> Prop) (f g : A -> list B) (l : list A) :
  Forall P l -> (forall a, P a -> f a = g a) -> flat_map f l = flat_map g l.
Proof.
  intros Hl Hfg. induction Hl as [|a l Ha _ IH]; [done|].
  simpl. by rewrite Hfg, IH.
Qed.

Lemma Forall2_flat_map_one {A B} (R : B -> A -> Prop) (P : A -> Prop)
    (f : A -> list B) (l : list A) :
  Forall P l -> (forall a, P a -> exists b, f a = [b] /\ R b a) ->
  Forall2 R (flat_map f l) l.
Proof.
  intros Hl Hf. induction Hl as [|a l Ha _ IH]; [constructor|].
  simpl. destruct (Hf a Ha) as (b & -> & Hb). by constructor.
Qed.

(** C9: for every grid, the line list built by [createSegment] consists of
    [floorCols + 1] longitudinal lines on the floor and as many on the
    ceiling, at [x = -w + i * (2w / floorCols)] for [i] from 0 to
    [floorCols], each from [z = 0] to [z = -d]; of [wallRows - 1]
    longitudinal lines on each side wall, for [i] from 1 to [wallRows - 1],
    at heights strictly between floor and ceiling; and of the four lines of
    the ring at [z = 0], spanning the full width or height; and of nothing
    else. *)
Theorem grid_lines (width height depth : Q) (floorCols wallRows : nat) :
  0 < width -> 0 < height -> 0 < depth ->
  let w := halfW width in
  let h := halfH height in
  let L := lineSegments (gridVertices width height depth floorCols wallRows) in
  Forall2 (fun l i => line_eq l (floorLine width height depth floorCols i))
          (List.filter (isFloorLine height depth) L) (seq 0 (S floorCols))
  /\ Forall2 (fun l i => line_eq l (ceilingLine width height depth floorCols i))
             (List.filter (isCeilingLine height depth) L) (seq 0 (S floorCols))
  /\ Forall2 (fun l i => line_eq l (leftWallLine width height depth wallRows i)
                         /\ - h < yOffset height wallRows i < h)
             (List.filter (isLeftWallLine width height depth) L)
             (seq 1 (wallRows - 1))
  /\ Forall2 (fun l i => line_eq l (rightWallLine width height depth wallRows i)
                         /\ - h < yOffset height wallRows i < h)
             (List.filter (isRightWallLine width height depth) L)
             (seq 1 (wallRows - 1))
  /\ List.filter latitudinal L = ringLines width height
  /\ length L = (2 * S floorCols + 2 * (wallRows - 1) + 4)%nat.
Proof.
  intros Hw Hh Hd w h L. subst L.
  rewrite gridVertices_lines.
  assert (Forall (fun _ => True) (seq 0 (S floorCols))) as Hall
    by (apply Forall_forall; done).
  assert (Forall (fun i => 1 <= i < wallRows)%nat (seq 1 (wallRows - 1))) as Hrows
    by (apply Forall_seq; lia).
  pose proof (fun i => floorCeiling_filters width height depth floorCols Hh Hd i) as FC.
  pose proof (fun i => wall_filters width height depth wallRows Hw Hh Hd i) as WL.
  pose proof (ring_filters width height depth Hd) as RF.
  cbv zeta in FC, WL, RF. destruct RF as (R1 & R2 & R3 & R4 & R5).
  pose proof (fun i => floorCeiling_spec width height depth floorCols i) as FS.
  pose proof (fun i => wall_spec width height depth wallRows i) as WS.
  assert (forall i, (1 <= i < wallRows)%nat -> - h < yOffset height wallRows i < h) as Hin.
  { intros i Hi. unfold yOffset. rewrite <- rowHeight_spec.
    by apply wall_height_inside. }
  rewrite !List.filter_app, !filter_flat_map, R1, R2, R3, R4, R5.
  rewrite (flat_map_empty _ (fun i => List.filter (isFloorLine height depth) _) _ Hrows)
    by (intros i Hi; apply (WL i Hi)).
  rewrite (flat_map_empty _ (fun i => List.filter (isCeilingLine height depth) _) _ Hrows)
    by (intros i Hi; apply (WL i Hi)).
  rewrite (flat_map_empty _ (fun i => List.filter (isLeftWallLine width height depth) (floorCeilingLines _ _ _ _ _)) _ Hall)
    by (intros i _; apply (FC i)).
  rewrite (flat_map_empty _ (fun i => List.filter (isRightWallLine width height depth) (floorCeilingLines _ _ _ _ _)) _ Hall)
    by (intros i _; apply (FC i)).
  rewrite (flat_map_empty _ (fun i => List.filter latitudinal (floorCeilingLines _ _ _ _ _)) _ Hall)
    by (intros i _; apply (FC i)).
  rewrite (flat_map_empty _ (fun i => List.filter latitudinal (wallLines _ _ _ _ _)) _ Hrows)
    by (intros i Hi; apply (WL i Hi)).
  rewrite ?app_nil_r, ?app_nil_l.
  repeat split.
  - apply (Forall2_flat_map_one _ _ _ _ Hall). intros i _. cbv beta.
    destruct (FC i) as (-> & _). specialize (FS i).
    apply Forall2_cons_1 in FS as [F1 _]. eexists; split; [reflexivity|exact F1].
  - apply (Forall2_flat_map_one _ _ _ _ Hall). intros i _. cbv beta.
    destruct (FC i) as (_ & -> & _). specialize (FS i).
    apply Forall2_cons_1 in FS as [_ FS].
    apply Forall2_cons_1 in FS as [F2 _]. eexists; split; [reflexivity|exact F2].
  - apply (Forall2_flat_map_one _ _ _ _ Hrows). intros i Hi. cbv beta.
    destruct (WL i Hi) as (_ & _ & -> & _). specialize (WS i).
    apply Forall2_cons_1 in WS as [W1 _].
    eexists; split; [reflexivity|]. split; [exact W1|by apply Hin].
  - apply (Forall2_flat_map_one _ _ _ _ Hrows). intros i Hi. cbv beta.
    destruct (WL i Hi) as (_ & _ & _ & -> & _). specialize (WS i).
    apply Forall2_cons_1 in WS as [_ WS].
    apply Forall2_cons_1 in WS as [W2 _].
    eexists; split; [reflexivity|]. split; [exact W2|by apply Hin].
  - rewrite !length_app, !flat_map_constant_length with (c := 2%nat) by done.
    rewrite !length_seq. simpl. lia.
Qed.

(** The grid of the program: 24 wide, 16 high, 6 deep, 6 columns, 4 rows. *)
Lemma grid_lines_witness :
  let L := lineSegments lineVertices in
  Forall2 (fun l i => line_eq l (floorLine 24 16 6 6 i))
          (List.filter (isFloorLine 16 6) L) (seq 0 7)
  /\ Forall2 (fun l i => line_eq l (ceilingLine 24 16 6 6 i))
             (List.filter (isCeilingLine 16 6) L) (seq 0 7)
  /\ Forall2 (fun l i => line_eq l (leftWallLine 24 16 6 4 i)
                         /\ - halfH 16 < yOffset 16 4 i < halfH 16)
             (List.filter (isLeftWallLine 24 16 6) L) (seq 1 3)
  /\ Forall2 (fun l i => line_eq l (rightWallLine 24 16 6 4 i)
                         /\ - halfH 16 < yOffset 16 4 i < halfH 16)
             (List.filter (isRightWallLine 24 16 6) L) (seq 1 3)
  /\ List.filter latitudinal L = ringLines 24 16
  /\ length L = 24%nat.
Proof. apply (grid_lines 24 16 6 6 4); reflexivity. Defined.

End GeometryFacts.

(** ** Segment pool and recycling *)

Module PoolFacts.
Import Pool Invariants NumFacts.
Local Open Scope Z_scope.

(** *** The two running extrema *)

Lemma foldl_min_spec (l : list Z) (a : Z) :
  foldl Z.min a l <= a
  /\ Forall (fun x => foldl Z.min a l <= x) l
  /\ (foldl Z.min a l = a \/ foldl Z.min a l ∈ l).
Proof.
  revert a; induction l as [|x l IH]; intros a; simpl.
  - repeat split; [lia|constructor|by left].
  - destruct (IH (Z.min a x)) as (H1 & H2 & H3). repeat split.
    + lia.
    + constructor; [lia|done].
    + destruct H3 as [H3|H3]; [|right; set_solver].
      destruct (Z.min_spec a x) as [[_ E]|[_ E]].
      * left. by rewrite H3.
      * right. rewrite H3, E. set_solver.
Qed.

Lemma foldl_max_spec (l : list Z) (a : Z) :
  a <= foldl Z.max a l
  /\ Forall (fun x => x <= foldl Z.max a l) l
  /\ (foldl Z.max a l = a \/ foldl Z.max a l ∈ l).
Proof.
  revert a; induction l as [|x l IH]; intros a; simpl.
  - repeat split; [lia|constructor|by left].
  - destruct (IH (Z.max a x)) as (H1 & H2 & H3). repeat split.
    + lia.
    + constructor; [lia|done].
    + destruct H3 as [H3|H3]; [|right; set_solver].
      destruct (Z.max_spec a x) as [[_ E]|[_ E]].
      * right. rewrite H3, E. set_solver.
      * left. by rewrite H3.
Qed.

(** [minZ] is the least depth as soon as that depth is at most 0. *)
Lemma minZ_is (l : list Z) (m : Z) :
  m <= 0 -> m ∈ l -> Forall (fun x => m <= x) l -> minZ l = m.
Proof.
  intros Hm Hin Hall. unfold minZ.
  destruct (foldl_min_spec l 0) as (H1 & H2 & H3).
  rewrite Forall_forall in H2, Hall. specialize (H2 m Hin).
  destruct H3 as [H3|H3]; [lia|]. specialize (Hall _ H3). lia.
Qed.

(** [maxZ] is the greatest depth as soon as that depth is at least -999999. *)
Lemma maxZ_is (l : list Z) (m : Z) :
  -999999 <= m -> m ∈ l -> Forall (fun x => x <= m) l -> maxZ l = m.
Proof.
  intros Hm Hin Hall. unfold maxZ.
  destruct (foldl_max_spec l (-999999)) as (H1 & H2 & H3).
  rewrite Forall_forall in H2, Hall. specialize (H2 m Hin).
  destruct H3 as [H3|H3]; [lia|]. specialize (Hall _ H3). lia.
Qed.

(** *** A pass that only moves segments one way *)

Section OneWay.
Variables fwd bwd : Z -> bool.

Lemma pass_forward (bot : Z) (todo : list Z) :
  forall (done : list Z) (c : Z),
  bot - 6 * c <= 0 ->
  bot - 6 * c ∈ done ++ todo ->
  Forall (fun x => bot - 6 * c <= x) (done ++ todo) ->
  Forall (fun z => bwd z = false) todo ->
  (forall j, c < j <= c + Z.of_nat (length (List.filter fwd todo)) ->
             bwd (bot - 6 * j) = false) ->
  passDepths fwd bwd done todo = done ++ relocate fwd bot (-6) c todo.
Proof.
  induction todo as [|z rest IH]; intros done c Hm Hin Hall Hbwd Hnew.
  - simpl. by rewrite app_nil_r.
  - simpl. inversion Hbwd as [|? ? Hz Hrest]; subst.
    rewrite (minZ_is _ (bot - 6 * c)) by done. unfold SEGMENT_DEPTH.
    simpl in Hnew. destruct (fwd z) eqn:Hf; simpl in Hnew.
    + assert (bot - 6 * c - 6 = bot + -6 * (c + 1)) as E by lia. rewrite E.
      assert (bwd (bot + -6 * (c + 1)) = false) as ->.
      { replace (bot + -6 * (c + 1)) with (bot - 6 * (c + 1)) by lia.
        apply Hnew. lia. }
      rewrite IH with (c := c + 1).
      * by rewrite <- app_assoc.
      * lia.
      * rewrite elem_of_app, elem_of_app, list_elem_of_singleton.
        left; right. lia.
      * apply Forall_app in Hall as [Hd Hr]. inversion Hr; subst.
        apply Forall_app; split; [apply Forall_app; split|].
        -- eapply Forall_impl; [exact Hd|]. simpl. lia.
        -- repeat constructor. lia.
        -- eapply Forall_impl; [eassumption|]. simpl. lia.
      * done.
      * intros j Hj. apply Hnew. lia.
    + rewrite Hz. rewrite IH with (c := c).
      * by rewrite <- app_assoc.
      * done.
      * by rewrite <- app_assoc.
      * by rewrite <- app_assoc.
      * done.
      * intros j Hj. apply Hnew. lia.
Qed.

Lemma pass_backward (top : Z) (todo : list Z) :
  forall (done : list Z) (c : Z),
  -999999 <= top + 6 * c ->
  top + 6 * c ∈ done ++ todo ->
  Forall (fun x => x <= top + 6 * c) (done ++ todo) ->
  Forall (fun z => fwd z = false) todo ->
  passDepths fwd bwd done todo = done ++ relocate bwd top 6 c todo.
Proof.
  induction todo as [|z rest IH]; intros done c Hm Hin Hall Hfwd.
  - simpl. by rewrite app_nil_r.
  - simpl. inversion Hfwd as [|? ? Hz Hrest]; subst. rewrite Hz.
    destruct (bwd z) eqn:Hb.
    + rewrite (maxZ_is _ (top + 6 * c)) by done. unfold SEGMENT_DEPTH.
      assert (top + 6 * c + 6 = top + 6 * (c + 1)) as E by lia. rewrite E.
      rewrite IH with (c := c + 1).
      * by rewrite <- app_assoc.
      * lia.
      * rewrite elem_of_app, elem_of_app, list_elem_of_singleton.
        left; right. lia.
      * apply Forall_app in Hall as [Hd Hr]. inversion Hr; subst.
        apply Forall_app; split; [apply Forall_app; split|].
        -- eapply Forall_impl; [exact Hd|]. simpl. lia.
        -- repeat constructor. lia.
        -- eapply Forall_impl; [eassumption|]. simpl. lia.
      * done.
    + rewrite IH with (c := c).
      * by rewrite <- app_assoc.
      * done.
      * by rewrite <- app_assoc.
      * by rewrite <- app_assoc.
      * done.
Qed.

End OneWay.

(** What [relocate] leaves and what it hands out. *)
Lemma relocate_perm (sel : Z -> bool) (base step : Z) (l : list Z) :
  forall c,
  relocate sel base step c l
  ≡ₚ List.filter (fun z => negb (sel z)) l
     ++ relocated base step c (length (List.filter sel l)).
Proof.
  induction l as [|z rest IH]; intros c; [done|].
  simpl. destruct (sel z); simpl.
  - rewrite IH. unfold relocated. simpl.
    rewrite <- Permutation_middle. f_equiv.
    + f_equal. lia.
    + f_equiv. rewrite <- seq_shift, map_map.
      apply Permutation_refl'. apply map_ext. intros j. f_equal. lia.
  - by rewrite IH.
Qed.

Lemma filter_perm {A} (p : A -> bool) (l l' : list A) :
  l ≡ₚ l' -> List.filter p l ≡ₚ List.filter p l'.
Proof.
  induction 1 as [|x l l' _ IH|x y l|l l' l'' _ IH1 _ IH2]; simpl.
  - done.
  - destruct (p x); by rewrite IH.
  - destruct (p x), (p y); try done. apply perm_swap.
  - by rewrite IH1.
Qed.

(** *** Runs of consecutive depths *)

Lemma run_desc (top : Z) : run top = desc top 14.
Proof. reflexivity. Qed.

Lemma desc_from (top : Z) (a n : nat) :
  map (fun i => 6 * (top - Z.of_nat i)) (seq a n)
  = desc (top - Z.of_nat a) n.
Proof.
  unfold desc. replace (seq a n) with (seq (a + 0) n) by (f_equal; lia).
  rewrite <- (fmap_add_seq a 0 n).
  change (map ?f (Nat.add a <$> ?l)) with (f <$> (Nat.add a <$> l)).
  rewrite <- list_fmap_compose. apply list_fmap_ext.
  intros _ i _. simpl. f_equal. lia.
Qed.

Lemma desc_S (top : Z) (n : nat) :
  desc top (S n) = 6 * top :: desc (top - 1) n.
Proof.
  unfold desc at 1. simpl. f_equal; [f_equal; lia|].
  by rewrite (desc_from top 1 n).
Qed.

Lemma desc_app (top : Z) (a b : nat) :
  desc top (a + b) = desc top a ++ desc (top - Z.of_nat a) b.
Proof.
  unfold desc at 1. rewrite seq_app, map_app. f_equal. apply desc_from.
Qed.

Lemma length_desc (top : Z) (n : nat) : length (desc top n) = n.
Proof. unfold desc. by rewrite length_map, length_seq. Qed.

Lemma elem_of_desc (top : Z) (n : nat) (z : Z) :
  z ∈ desc top n <-> exists i, 0 <= i < Z.of_nat n /\ z = 6 * (top - i).
Proof.
  unfold desc. rewrite list_elem_of_fmap. split.
  - intros (i & -> & Hi). apply elem_of_seq in Hi. exists (Z.of_nat i). lia.
  - intros (i & Hi & ->). exists (Z.to_nat i). split; [f_equal; lia|].
    apply elem_of_seq. lia.
Qed.

(** On a descending run, a test that holds of everything above a depth it
    holds of selects an initial part. *)
Lemma desc_split (P : Z -> bool) (n : nat) :
  (forall a b, P a = true -> a <= b -> P b = true) ->
  forall top, exists k,
    (k <= n)%nat
    /\ List.filter P (desc top n) = desc top k
    /\ List.filter (fun z => negb (P z)) (desc top n)
       = desc (top - Z.of_nat k) (n - k)
    /\ ((0 < k)%nat -> P (6 * (top - Z.of_nat k + 1)) = true).
Proof.
  intros Hup. induction n as [|n IH]; intros top.
  - exists O. repeat split; try done. lia.
  - rewrite desc_S. simpl. destruct (P (6 * top)) eqn:Htop.
    + destruct (IH (top - 1)) as (k & Hk & Hf & Hn & Hw).
      exists (S k). repeat split.
      * lia.
      * by rewrite Hf, desc_S.
      * simpl. rewrite Hn. f_equal. lia.
      * intros _. destruct k as [|k].
        -- rewrite <- Htop. f_equal. lia.
        -- rewrite <- Hw by lia. f_equal. lia.
    + exists O. simpl.
      assert (Forall (fun z => P z = false) (desc (top - 1) n)) as Hall.
      { apply Forall_forall. intros z Hz. apply elem_of_desc in Hz as (i & Hi & ->).
        destruct (P (6 * (top - 1 - i))) eqn:E; [|done].
        rewrite (Hup _ (6 * top) E) in Htop by lia. done. }
      repeat split.
      * lia.
      * induction Hall as [|z l Hz _ IHl]; [done|]. simpl. by rewrite Hz.
      * change (Z.of_nat 0) with 0. rewrite Z.sub_0_r, desc_S. f_equal.
        induction Hall as [|z l Hz _ IHl]; [done|]. simpl. rewrite Hz. simpl.
        by rewrite IHl.
      * lia.
Qed.

(** The part of a run a forward pass leaves, followed by the depths it
    hands out, is the run [k] places further. *)
Lemma run_forward (top : Z) (k : nat) :
  (k <= 14)%nat ->
  desc (top - Z.of_nat k) (14 - k) ++ relocated (6 * top - 78) (-6) 0 k
  = run (top - Z.of_nat k).
Proof.
  intros Hk. rewrite run_desc.
  replace 14%nat with ((14 - k) + k)%nat at 2 by lia.
  rewrite desc_app. f_equal.
  unfold relocated, desc. apply map_ext. intros j. lia.
Qed.

Lemma relocated_backward (top : Z) (k : nat) :
  relocated (6 * top) 6 0 k ≡ₚ desc (top + Z.of_nat k) k.
Proof.
  induction k as [|k IH].
  - done.
  - rewrite desc_S. unfold relocated in *. rewrite seq_S, map_app. simpl.
    rewrite <- Permutation_cons_append. rewrite IH.
    apply Permutation_refl'. f_equal; [lia|f_equal; lia].
Qed.

Lemma run_backward (top : Z) (k : nat) :
  (k <= 14)%nat ->
  desc top (14 - k) ++ relocated (6 * top) 6 0 k ≡ₚ run (top + Z.of_nat k).
Proof.
  intros Hk. rewrite run_desc.
  replace 14%nat with (k + (14 - k))%nat at 2 by lia.
  rewrite desc_app, relocated_backward, Permutation_app_comm.
  apply Permutation_refl'. f_equal. f_equal. lia.
Qed.

Lemma filter_none {A} (p : A -> bool) (l : list A) :
  length (List.filter p l) = O -> Forall (fun x => p x = false) l.
Proof.
  induction l as [|x l IH]; [constructor|]. simpl.
  destruct (p x) eqn:E; [done|]. intros H. constructor; auto.
Qed.

Lemma filter_ext_bool {A} (p q : A -> bool) (l : list A) :
  (forall x, p x = q x) -> List.filter p l = List.filter q l.
Proof.
  intros E. induction l as [|x l IH]; [done|]. simpl. by rewrite E, IH.
Qed.

(** *** One pass keeps the pool invariant *)

Section Tests.
Variables fwd bwd : Z -> bool.
Hypothesis fwd_up : forall a b, fwd a = true -> a <= b -> fwd b = true.
Hypothesis bwd_down : forall a b, bwd a = true -> b <= a -> bwd b = true.
Hypothesis apart : forall a b, fwd a = true -> bwd b = true -> b + 84 < a.
Hypothesis fwd_low : forall a, fwd a = true -> -999993 < a.
Hypothesis bwd_high : forall b, bwd b = true -> b < -90.

Lemma passDepths_forward (top : Z) (l : list Z) (k : nat) :
  PoolInv top l -> (0 < k <= 14)%nat ->
  List.filter fwd (run top) = desc top k ->
  List.filter (fun z => negb (fwd z)) (run top)
  = desc (top - Z.of_nat k) (14 - k) ->
  fwd (6 * (top - Z.of_nat k + 1)) = true ->
  PoolInv (top - Z.of_nat k) (passDepths fwd bwd [] l).
Proof using All.
  intros [Hperm Hrange] Hk Hf Hn Hw.
  assert (length (List.filter fwd l) = k) as Hlen.
  { rewrite (Permutation_length (filter_perm fwd _ _ Hperm)), Hf.
    apply length_desc. }
  assert (forall z, z ∈ l -> exists i, 0 <= i < 14 /\ z = 6 * (top - i)) as Hl.
  { intros z Hz. rewrite Hperm, run_desc in Hz. by apply elem_of_desc in Hz. }
  rewrite (pass_forward fwd bwd (6 * top - 78) l [] 0).
  - split.
    + simpl. rewrite relocate_perm, Hlen, (filter_perm _ _ _ Hperm), Hn.
      rewrite run_forward by lia. done.
    + pose proof (fwd_low _ Hw). lia.
  - lia.
  - simpl. rewrite Hperm, run_desc. apply elem_of_desc. exists 13. lia.
  - simpl. apply Forall_forall. intros z Hz.
    destruct (Hl z Hz) as (i & Hi & ->). lia.
  - apply Forall_forall. intros z Hz. destruct (Hl z Hz) as (i & Hi & ->).
    destruct (bwd (6 * (top - i))) eqn:E; [|done].
    pose proof (apart _ _ Hw E). lia.
  - intros j Hj. rewrite Hlen in Hj.
    destruct (bwd (6 * top - 78 - 6 * j)) eqn:E; [|done].
    pose proof (apart _ _ Hw E). lia.
Qed.

Lemma passDepths_backward (top : Z) (l : list Z) (k : nat) :
  PoolInv top l -> (k <= 14)%nat ->
  Forall (fun z => fwd z = false) l ->
  List.filter (fun z => negb (bwd z)) (run top) = desc top (14 - k) ->
  List.filter bwd (run top) = desc (top - Z.of_nat (14 - k)) k ->
  PoolInv (top + Z.of_nat k) (passDepths fwd bwd [] l).
Proof using All.
  intros [Hperm Hrange] Hk Hnone Hn Hb.
  assert (length (List.filter bwd l) = k) as Hlen.
  { rewrite (Permutation_length (filter_perm bwd _ _ Hperm)), Hb.
    apply length_desc. }
  assert (forall z, z ∈ l -> exists i, 0 <= i < 14 /\ z = 6 * (top - i)) as Hl.
  { intros z Hz. rewrite Hperm, run_desc in Hz. by apply elem_of_desc in Hz. }
  rewrite (pass_backward fwd bwd (6 * top) l [] 0).
  - split.
    + simpl. rewrite relocate_perm, Hlen, (filter_perm _ _ _ Hperm), Hn.
      by apply run_backward.
    + destruct k as [|k]; [lia|].
      assert (bwd (6 * (top - Z.of_nat (14 - S k))) = true) as E.
      { assert (6 * (top - Z.of_nat (14 - S k)) ∈ List.filter bwd (run top)) as Hin.
        { rewrite Hb, desc_S. apply elem_of_cons. by left. }
        apply list_elem_of_In, filter_In in Hin. apply Hin. }
      pose proof (bwd_high _ E). lia.
  - lia.
  - simpl. rewrite Hperm, run_desc. apply elem_of_desc. exists 0. lia.
  - simpl. apply Forall_forall. intros z Hz.
    destruct (Hl z Hz) as (i & Hi & ->). lia.
  - done.
Qed.

(** Under the five conditions on the tests, a pass takes a pool that
    satisfies the invariant to one that does. *)
Lemma passDepths_PoolInv (top : Z) (l : list Z) :
  PoolInv top l -> exists top', PoolInv top' (passDepths fwd bwd [] l).
Proof using All.
  intros Hinv. pose proof Hinv as [Hperm Hrange].
  destruct (desc_split fwd 14 fwd_up top) as (k & Hk & Hf & Hn & Hw).
  rewrite <- run_desc in Hf, Hn.
  destruct k as [|k].
  - assert (Forall (fun z => fwd z = false) l) as Hnone.
    { apply filter_none.
      by rewrite (Permutation_length (filter_perm fwd _ _ Hperm)), Hf. }
    destruct (desc_split (fun z => negb (bwd z)) 14) with (top := top)
      as (k0 & Hk0 & Hf0 & Hn0 & _).
    { intros a b Ha Hab. destruct (bwd b) eqn:E; [|done].
      by rewrite (bwd_down _ _ E Hab) in Ha. }
    rewrite <- run_desc in Hf0, Hn0.
    rewrite (filter_ext_bool _ bwd) in Hn0 by (intros; apply negb_involutive).
    exists (top + Z.of_nat (14 - k0)).
    apply passDepths_backward; try done.
    + lia.
    + rewrite Hf0. f_equal. lia.
    + rewrite Hn0. f_equal. f_equal. lia.
  - exists (top - Z.of_nat (S k)).
    apply passDepths_forward; try done; [lia|]. apply Hw. lia.
Qed.

End Tests.

(** *** The tests of the program *)

Section ProgramTests.
Variable fl : Q -> Q.
Hypothesis Hfl : Camera.Rounding fl.
Variable camZ : Q.
Hypothesis Hlow : (-999999 <= camZ)%Q.
Hypothesis Hhigh : (camZ <= 0)%Q.

Lemma camZ_floor :
  -999999 <= Qfloor camZ <= 0
  /\ (inject_Z (Qfloor camZ) <= camZ)%Q
  /\ (camZ < inject_Z (Qfloor camZ + 1))%Q.
Proof using Hlow Hhigh.
  split; [split|split].
  - change (-999999) with (Qfloor (inject_Z (-999999))).
    by apply Qfloor_resp_le.
  - change 0 with (Qfloor (inject_Z 0)). by apply Qfloor_resp_le.
  - apply Qfloor_le.
  - apply Qlt_floor.
Qed.

(** The threshold of the forward test is at least [n + 6] and at least
    -999993, that of the backward test at most [n - 89] and at most -90,
    where [n] is the integer part of the camera depth. *)
Lemma thresholds :
  let hi := fadd fl camZ (inject_Z SEGMENT_DEPTH) in
  let lo := fsub fl (fsub fl camZ (inject_Z tunnelLength)) (inject_Z SEGMENT_DEPTH) in
  (inject_Z (Qfloor camZ + 6) <= hi)%Q
  /\ (inject_Z (-999993) <= hi)%Q
  /\ (lo <= inject_Z (Qfloor camZ - 89))%Q
  /\ (lo <= inject_Z (-90))%Q.
Proof using Hfl Hlow Hhigh.
  destruct camZ_floor as ((Hn1 & Hn2) & Hfl1 & Hfl2).
  unfold fadd, fsub, tunnelLength, SEGMENT_DEPTH, NUM_SEGMENTS.
  change (inject_Z (Z.of_nat 14 * 6)) with 84%Q.
  change (inject_Z 6) with 6%Q.
  rewrite inject_Z_plus in Hfl2. change (inject_Z 1) with 1%Q in Hfl2.
  assert (fl (camZ - 84) <= inject_Z (Qfloor camZ - 83))%Q as H84.
  { apply (CameraFacts.fl_le_int fl Hfl); [lia|].
    replace (Qfloor camZ - 83) with (Qfloor camZ + -83) by lia.
    rewrite inject_Z_plus. change (inject_Z (-83)) with (-83)%Q. lra. }
  replace (Qfloor camZ - 83) with (Qfloor camZ + -83) in H84 by lia.
  rewrite inject_Z_plus in H84. change (inject_Z (-83)) with (-83)%Q in H84.
  assert (fl (camZ - 84) <= inject_Z (-84))%Q as H84'.
  { apply (CameraFacts.fl_le_int fl Hfl); [done|].
    change (inject_Z (-84)) with (-84)%Q. lra. }
  repeat split.
  - apply (CameraFacts.fl_ge_int fl Hfl); [lia|].
    rewrite inject_Z_plus. change (inject_Z 6) with 6%Q. lra.
  - apply (CameraFacts.fl_ge_int fl Hfl); [done|].
    change (inject_Z (-999993)) with (-999993)%Q. lra.
  - apply (CameraFacts.fl_le_int fl Hfl); [lia|].
    replace (Qfloor camZ - 89) with (Qfloor camZ + -89) by lia.
    rewrite inject_Z_plus. change (inject_Z (-89)) with (-89)%Q. lra.
  - apply (CameraFacts.fl_le_int fl Hfl); [done|].
    change (inject_Z (-90)) with (-90)%Q.
    change (inject_Z (-84)) with (-84)%Q in H84'. lra.
Qed.

Lemma passedBehind_iff (z : Z) :
  passedBehind fl camZ z = true
  <-> (fadd fl camZ (inject_Z SEGMENT_DEPTH) < inject_Z z)%Q.
Proof. apply Qltb_iff. Qed.

Lemma passedAhead_iff (z : Z) :
  passedAhead fl camZ z = true
  <-> (inject_Z z
       < fsub fl (fsub fl camZ (inject_Z tunnelLength)) (inject_Z SEGMENT_DEPTH))%Q.
Proof. apply Qltb_iff. Qed.

Lemma program_tests :
  (forall a b, passedBehind fl camZ a = true -> a <= b -> passedBehind fl camZ b = true)
  /\ (forall a b, passedAhead fl camZ a = true -> b <= a -> passedAhead fl camZ b = true)
  /\ (forall a b, passedBehind fl camZ a = true -> passedAhead fl camZ b = true -> b + 84 < a)
  /\ (forall a, passedBehind fl camZ a = true -> -999993 < a)
  /\ (forall b, passedAhead fl camZ b = true -> b < -90).
Proof using Hfl Hlow Hhigh.
  pose proof thresholds as (H1 & H2 & H3 & H4). cbv zeta in *.
  repeat split.
  - intros a b Ha Hab. apply passedBehind_iff in Ha. apply passedBehind_iff.
    rewrite Zle_Qle in Hab. lra.
  - intros a b Ha Hab. apply passedAhead_iff in Ha. apply passedAhead_iff.
    rewrite Zle_Qle in Hab. lra.
  - intros a b Ha Hb. apply passedBehind_iff in Ha. apply passedAhead_iff in Hb.
    assert (inject_Z (Qfloor camZ + 6) < inject_Z a)%Q as Ha' by lra.
    assert (inject_Z b < inject_Z (Qfloor camZ - 89))%Q as Hb' by lra.
    rewrite <- Zlt_Qlt in Ha', Hb'. lia.
  - intros a Ha. apply passedBehind_iff in Ha.
    assert (inject_Z (-999993) < inject_Z a)%Q as Ha' by lra.
    by rewrite <- Zlt_Qlt in Ha'.
  - intros b Hb. apply passedAhead_iff in Hb.
    assert (inject_Z b < inject_Z (-90))%Q as Hb' by lra.
    by rewrite <- Zlt_Qlt in Hb'.
Qed.

End ProgramTests.

(** *** The pass on segments follows the pass on depths *)

Section Simulation.
Variable rnd : nat -> Q.
Variable fl : Q -> Q.

Lemma repopulate_depth (z : Z) (segment : Group) (h : Heap) :
  position_z (fst (repopulate rnd fl z segment h)) = z.
Proof.
  unfold repopulate, Store.bind.
  destruct (sweep (children segment) h) as [g h1].
  by destruct (Placement.populateImages rnd fl g h1) as [g' h2].
Qed.

Lemma visit_depth (camZ : Q) (visited rest : list Group) (segment : Group) (h : Heap) :
  let z := position_z segment in
  let z1 := if passedBehind fl camZ z
            then minZ (depths visited ++ z :: depths rest) - SEGMENT_DEPTH
            else z in
  let z2 := if passedAhead fl camZ z1
            then maxZ (depths visited ++ z1 :: depths rest) + SEGMENT_DEPTH
            else z1 in
  position_z (fst (visit rnd fl camZ visited rest segment h)) = z2.
Proof.
  intros z z1 z2. unfold visit, Store.bind.
  assert (forall s, map position_z (visited ++ s :: rest)
                    = depths visited ++ position_z s :: depths rest) as Hmap
    by (intros s; unfold depths; by rewrite map_app).
  rewrite Hmap. fold z.
  destruct (passedBehind fl camZ z) eqn:Hf.
  - pose proof (repopulate_depth (minZ (depths visited ++ z :: depths rest) - SEGMENT_DEPTH)
                                 segment h) as Hr.
    destruct (repopulate rnd fl _ segment h) as [s1 h1]. simpl in Hr.
    rewrite Hmap, Hr. fold z1. subst z2.
    destruct (passedAhead fl camZ z1); [apply repopulate_depth|done].
  - unfold Store.ret. rewrite Hmap. fold z. subst z2 z1.
    destruct (passedAhead fl camZ z); [apply repopulate_depth|done].
Qed.

Lemma pass_depths (camZ : Q) (todo : list Group) :
  forall (visited : list Group) (h : Heap),
  depths (fst (pass rnd fl camZ visited todo h))
  = passDepths (passedBehind fl camZ) (passedAhead fl camZ)
               (depths visited) (depths todo).
Proof.
  induction todo as [|segment rest IH]; intros visited h; [done|].
  simpl. unfold Store.bind at 1.
  pose proof (visit_depth camZ visited rest segment h) as Hv. cbv zeta in Hv.
  destruct (visit rnd fl camZ visited rest segment h) as [s h1]. simpl in Hv.
  rewrite IH. unfold depths at 1. rewrite map_app. simpl. by rewrite Hv.
Qed.

Lemma recyclePass_depths (camZ : Q) (segments : list Group) (h : Heap) :
  depths (fst (recyclePass rnd fl camZ segments h))
  = passDepths (passedBehind fl camZ) (passedAhead fl camZ) [] (depths segments).
Proof. apply pass_depths. Qed.

Lemma createSegment_depth (z : Z) (h : Heap) :
  position_z (fst (Placement.createSegment rnd fl z h)) = z.
Proof.
  unfold Placement.createSegment, Store.bind, Store.fresh, Store.create.
  simpl. by destruct (Placement.populateImages rnd fl _ _).
Qed.

Lemma generate_depths (indices : list nat) :
  forall (segments : list Group) (h : Heap),
  depths (fst (generate rnd fl indices segments h))
  = depths segments ++ map (fun i => - Z.of_nat i * SEGMENT_DEPTH) indices.
Proof.
  induction indices as [|i rest IH]; intros segments h.
  - simpl. by rewrite app_nil_r.
  - simpl. unfold Store.bind at 1.
    pose proof (createSegment_depth (- Z.of_nat i * SEGMENT_DEPTH) h) as Hc.
    destruct (Placement.createSegment rnd fl _ h) as [s h1]. simpl in Hc.
    rewrite IH. unfold depths at 1. rewrite map_app, <- app_assoc. simpl.
    by rewrite Hc.
Qed.

(** The pool is built at the depths 0, -6, ..., -78. *)
Lemma initial_depths : depths (fst (generateSegments rnd fl heap0)) = run 0.
Proof.
  unfold generateSegments. rewrite generate_depths. reflexivity.
Qed.

Lemma recycleFrames_PoolInv (camZs : list Q) :
  Camera.Rounding fl ->
  Forall (fun camZ => -999999 <= camZ <= 0)%Q camZs ->
  forall (pool : list Group * Heap) (top : Z),
  PoolInv top (depths (fst pool)) ->
  exists top', PoolInv top' (depths (fst (recycleFrames rnd fl camZs pool))).
Proof.
  intros Hfl. induction 1 as [|camZ camZs [Hlo Hhi] _ IH]; intros pool top Hinv.
  - by exists top.
  - simpl.
    destruct (program_tests fl Hfl camZ Hlo Hhi) as (T1 & T2 & T3 & T4 & T5).
    destruct (passDepths_PoolInv _ _ T1 T2 T3 T4 T5 top _ Hinv) as (top1 & Hinv1).
    rewrite <- recyclePass_depths with (h := snd pool) in Hinv1.
    by apply (IH _ top1).
Qed.

End Simulation.

(** C1, for the camera depths the pass is written for: whatever the random
    source and the rounding of the arithmetic, after the recycling pass has
    run for any sequence of camera depths between -999999 and 0, the pool
    built at 0, -6, ..., -78 still holds 14 segments, and their depths are
    14 consecutive multiples of 6. *)
Theorem pool_invariant (rnd : nat -> Q) (fl : Q -> Q) (camZs : list Q) :
  Camera.Rounding fl ->
  Forall (fun camZ => -999999 <= camZ <= 0)%Q camZs ->
  let segments := fst (recycleFrames rnd fl camZs (generateSegments rnd fl heap0)) in
  length segments = NUM_SEGMENTS /\ consecutive (depths segments).
Proof.
  intros Hfl Hc segments.
  destruct (recycleFrames_PoolInv rnd fl camZs Hfl Hc (generateSegments rnd fl heap0) 0)
    as (top & Hperm & _).
  { split; [by rewrite initial_depths|lia]. }
  fold segments in Hperm. split; [|by exists top].
  apply Permutation_length in Hperm. unfold depths in Hperm.
  by rewrite length_map in Hperm.
Qed.

Lemma pool_invariant_witness :
  let segments :=
    fst (recycleFrames allSlabs Camera.grid [-7; -500; -20 # 3; 0]%Q
                       (generateSegments allSlabs Camera.grid heap0)) in
  length segments = NUM_SEGMENTS /\ consecutive (depths segments).
Proof.
  apply (pool_invariant allSlabs Camera.grid [-7; -500; -20 # 3; 0]%Q
                        CameraFacts.Rounding_grid).
  repeat constructor; discriminate.
Defined.

(** C1 as the specification states it, for every sequence of camera
    depths, fails: once the camera has been at depth 100 every segment lies
    in front of depth 0, and at depth 70 the forward branch, whose running
    minimum starts at 0, sends two segments to -6 and -12; the depths are
    then 6, ..., 72, -6, -12, with 0 missing. *)
Lemma pool_gap_after_positive_depths :
  let segments :=
    fst (recycleFrames noSlabs exact [100; 70]%Q (generateSegments noSlabs exact heap0)) in
  depths segments = [6; 12; 18; 24; 30; 36; 42; 48; 54; 60; 66; 72; -6; -12]
  /\ ~ consecutive (depths segments).
Proof.
  assert (depths (fst (recycleFrames noSlabs exact [100; 70]%Q
                                     (generateSegments noSlabs exact heap0)))
          = [6; 12; 18; 24; 30; 36; 42; 48; 54; 60; 66; 72; -6; -12]) as E
    by (vm_compute; reflexivity).
  cbv zeta. rewrite E. split; [done|]. intros [top Hp].
  assert (72 ∈ run top) as H1
    by (rewrite <- Hp; by apply (list_elem_of_lookup_2 _ 11%nat)).
  assert (-12 ∈ run top) as H2
    by (rewrite <- Hp; by apply (list_elem_of_lookup_2 _ 13%nat)).
  rewrite run_desc in H1, H2.
  apply elem_of_desc in H1 as (i & Hi & Ei), H2 as (j & Hj & Ej). lia.
Qed.

(** The two tests of the pass exclude each other: for a camera depth
    between -999999 and 0, no depth is both behind the camera's trailing
    edge and beyond the far end of the window. *)
Lemma tests_exclusive (fl : Q -> Q) (camZ : Q) (z : Z) :
  Camera.Rounding fl -> (-999999 <= camZ <= 0)%Q ->
  passedBehind fl camZ z = true -> passedAhead fl camZ z = false.
Proof.
  intros Hfl [Hlo Hhi] Hb.
  destruct (program_tests fl Hfl camZ Hlo Hhi) as (_ & _ & T3 & _).
  destruct (passedAhead fl camZ z) eqn:Ha; [|done].
  pose proof (T3 z z Hb Ha). lia.
Qed.

Lemma tests_exclusive_witness :
  passedAhead Camera.grid (-20 # 3) 0 = false.
Proof.
  apply (tests_exclusive Camera.grid (-20 # 3) 0 CameraFacts.Rounding_grid).
  - split; discriminate.
  - reflexivity.
Defined.

(** The scenario of the specification: while the camera goes from depth 0
    to depth -90 in steps of one segment, every segment is recycled once,
    84 deeper than it was built, and the pool still holds 14 segments. *)
Lemma scenario_camera_to_minus_90 :
  let camZs := map (fun k => inject_Z (-6 * Z.of_nat k)) (seq 1 15) in
  let segments :=
    fst (recycleFrames allSlabs exact camZs (generateSegments allSlabs exact heap0)) in
  depths segments = map (fun z => z - 84) (run 0)
  /\ length segments = NUM_SEGMENTS.
Proof. vm_compute. split; reflexivity. Qed.

End PoolFacts.

(** ** Resources: recycling, theme and teardown *)

Module LifecycleFacts.
Import Pool Lifecycle Invariants PlacementFacts.

(** *** The sweep *)

Lemma release_spec (g g' : list Object3D) (c : Object3D) (h h' : Heap) :
  release g c h = (g', h') ->
  g' = removeChild c g
  /\ draws h' = draws h /\ nextId h' = nextId h
  /\ live h' = live h ∖ (if isMesh c then resourcesOf c else ∅).
Proof.
  destruct c as [id mat|name s]; simpl.
  - intros [= <- <-]. repeat split. set_solver.
  - unfold Store.bind, Store.dispose, Store.ret, slabResources.
    destruct (slab_map s); simpl; intros [= <- <-]; repeat split; simpl;
      set_solver.
Qed.

Lemma forEach_release (cs : list Object3D) :
  forall (g g' : list Object3D) (h h' : Heap),
  forEach release g cs h = (g', h') ->
  g' = foldl (fun g c => removeChild c g) g cs
  /\ draws h' = draws h /\ nextId h' = nextId h
  /\ live h' = live h ∖ ⋃ (map (fun c => if isMesh c then resourcesOf c else ∅) cs).
Proof.
  induction cs as [|c cs IH]; intros g g' h h' E; simpl in *.
  - injection E as <- <-. repeat split. set_solver.
  - apply bind_inv in E as (g1 & h1 & E1 & E).
    apply release_spec in E1 as (-> & D1 & N1 & L1).
    apply IH in E as (-> & D2 & N2 & L2).
    repeat split; [congruence|congruence|]. rewrite L2, L1. set_solver.
Qed.

Lemma foldl_removeChild (cs g : list Object3D) :
  foldl (fun g c => removeChild c g) g cs
  = List.filter (fun o => forallb (fun c => negb (objId o =? objId c)) cs) g.
Proof.
  revert g; induction cs as [|c cs IH]; intros g; simpl.
  - induction g as [|o g IHg]; [done|]. simpl. by rewrite <- IHg.
  - rewrite IH. unfold removeChild.
    induction g as [|o g IHg]; [done|]. simpl.
    destruct (objId o =? objId c); simpl; [done|].
    destruct (forallb _ cs); simpl; by rewrite IHg.
Qed.

Lemma toRemove_meshes (g : list Object3D) :
  Forall wellNamed g -> toRemove g = List.filter isMesh g.
Proof.
  induction 1 as [|o g Ho _ IH]; [done|].
  unfold toRemove in *. simpl. rewrite IH.
  destruct o as [id mat|name s]; simpl in *; [done|]. by rewrite Ho.
Qed.

Lemma meshes_resources (g : list Object3D) :
  ⋃ (map (fun c => if isMesh c then resourcesOf c else ∅) (List.filter isMesh g))
  = ⋃ (map slabResources (slabsOf g)).
Proof.
  induction g as [|o g IH]; [done|].
  destruct o as [id mat|name s]; simpl; [done|]. by rewrite IH.
Qed.

Lemma objId_inj (g : list Object3D) (o o' : Object3D) :
  NoDup (map objId g) -> o ∈ g -> o' ∈ g -> objId o = objId o' -> o = o'.
Proof.
  induction g as [|x g IH]; intros Hnd Ho Ho' E; [by apply elem_of_nil in Ho|].
  simpl in Hnd. apply NoDup_cons in Hnd as [Hx Hnd].
  apply elem_of_cons in Ho as [->|Ho], Ho' as [->|Ho'].
  - done.
  - exfalso. apply Hx. rewrite E. by apply list_elem_of_fmap_2.
  - exfalso. apply Hx. rewrite <- E. by apply list_elem_of_fmap_2.
  - by apply IH.
Qed.

(** The sweep of a group whose meshes are named and whose objects are
    distinct: the meshes leave, the lines stay, and exactly the resources
    of the slabs are released. *)
Lemma sweep_spec (g g' : list Object3D) (h h' : Heap) :
  Forall wellNamed g -> NoDup (map objId g) ->
  sweep g h = (g', h') ->
  g' = List.filter (fun o => negb (isMesh o)) g
  /\ draws h' = draws h /\ nextId h' = nextId h
  /\ live h' = live h ∖ ⋃ (map slabResources (slabsOf g)).
Proof.
  intros Hnamed Hnd E. unfold sweep in E.
  apply forEach_release in E as (-> & D & N & L).
  rewrite toRemove_meshes in * by done.
  rewrite meshes_resources in L. repeat split; try done.
  rewrite foldl_removeChild. apply filter_ext_in. intros o Ho.
  apply list_elem_of_In in Ho.
  destruct (isMesh o) eqn:Em; simpl.
  - apply not_true_is_false. intros Hall.
    rewrite forallb_forall in Hall.
    specialize (Hall o). rewrite Nat.eqb_refl in Hall.
    discriminate Hall. apply filter_In. split; [by apply list_elem_of_In|done].
  - apply forallb_forall. intros c Hc. apply filter_In in Hc as [Hc Hm].
    apply negb_true_iff, Nat.eqb_neq. intros Eid.
    apply list_elem_of_In in Hc.
    rewrite (objId_inj g o c Hnd Ho Hc Eid) in Em. congruence.
Qed.

Lemma slabsOf_lines (g : list Object3D) :
  slabsOf (List.filter (fun o => negb (isMesh o)) g) = [].
Proof. induction g as [|[id mat|name s] g IH]; simpl; done. Qed.

Lemma linesOf_lines (g : list Object3D) :
  Theme.linesOf (List.filter (fun o => negb (isMesh o)) g) = Theme.linesOf g.
Proof.
  induction g as [|[id mat|name s] g IH]; simpl; [done| |done].
  unfold Theme.linesOf in *. simpl. by rewrite IH.
Qed.

(** *** The invariant of the store *)

Lemma resourcesOf_owner (r : Resource) (o : Object3D) :
  r ∈ resourcesOf o -> resOwner r = Some (objId o).
Proof.
  destruct o as [id mat|name s]; simpl; unfold slabResources.
  - set_unfold. by intros [->| ->].
  - destruct (slab_map s); set_unfold; intros H; by destruct_or!; subst.
Qed.


Lemma elem_of_resources (objs : list Object3D) (r : Resource) :
  r ∈ ⋃ (map resourcesOf objs) <-> exists o, o ∈ objs /\ r ∈ resourcesOf o.
Proof.
  rewrite elem_of_union_list. split.
  - intros (X & HX & Hr). apply list_elem_of_fmap in HX as (o & -> & Ho). eauto.
  - intros (o & Ho & Hr). exists (resourcesOf o). split; [|done].
    by apply list_elem_of_fmap_2.
Qed.

Lemma elem_of_slab_resources (g : list Object3D) (r : Resource) :
  r ∈ ⋃ (map slabResources (slabsOf g))
  <-> exists o, o ∈ g /\ isMesh o = true /\ r ∈ resourcesOf o.
Proof.
  induction g as [|o g IH]; simpl.
  - set_unfold. split; [done|]. by intros (o & [] & _).
  - destruct o as [id mat|name s]; simpl.
    + rewrite IH. split.
      * intros (o & Ho & Hm & Hr). exists o. set_solver.
      * intros (o & Ho & Hm & Hr). apply elem_of_cons in Ho as [->|Ho]; [done|]. eauto.
    + rewrite elem_of_union, IH. split.
      * intros [Hr|(o & Ho & Hm & Hr)].
        -- exists (Mesh name s). set_solver.
        -- exists o. set_solver.
      * intros (o & Ho & Hm & Hr). apply elem_of_cons in Ho as [->|Ho]; [by left|].
        right. eauto.
Qed.

Lemma ObjInv_perm (objs objs' : list Object3D) (h : Heap) :
  objs ≡ₚ objs' -> ObjInv objs h -> ObjInv objs' h.
Proof.
  intros Hp [I F N L]. split.
  - by rewrite <- Hp.
  - by rewrite <- Hp.
  - by rewrite <- Hp.
  - intros r. rewrite L. by setoid_rewrite Hp.
Qed.

(** Drawing a number changes nothing the invariant speaks of. *)
Lemma ObjInv_heap (objs : list Object3D) (h h' : Heap) :
  nextId h' = nextId h -> live h' = live h -> ObjInv objs h -> ObjInv objs h'.
Proof. intros En El [I F N L]. split; try done; by rewrite ?En, ?El. Qed.

(** Objects allocated at the end of the heap extend the invariant. *)
Lemma ObjInv_placed (objs new : list Object3D) (h h' : Heap) :
  ObjInv objs h -> Placed h h' new -> ObjInv (objs ++ new) h'.
Proof.
  intros [I F N L] [PI PN PL PS]. split.
  - rewrite map_app. apply NoDup_app. split; [done|]. split.
    + intros x Hx. rewrite PI, elem_of_seq.
      apply list_elem_of_fmap in Hx as (o & -> & Ho).
      rewrite Forall_forall in F. specialize (F o Ho). lia.
    + rewrite PI. apply NoDup_seq.
  - apply Forall_app. split.
    + eapply Forall_impl; [exact F|]. simpl. lia.
    + apply Forall_forall. intros o Ho.
      assert (objId o ∈ map objId new) as Hin by by apply list_elem_of_fmap_2.
      rewrite PI, elem_of_seq in Hin. lia.
  - by apply Forall_app.
  - intros r. rewrite PL, elem_of_union, L, elem_of_resources.
    setoid_rewrite elem_of_app. naive_solver.
Qed.

(** Sweeping one group of the scene keeps the invariant. *)
Lemma ObjInv_swept (O1 g O2 : list Object3D) (h h' : Heap) :
  ObjInv (O1 ++ g ++ O2) h ->
  nextId h' = nextId h ->
  live h' = live h ∖ ⋃ (map slabResources (slabsOf g)) ->
  ObjInv (O1 ++ List.filter (fun o => negb (isMesh o)) g ++ O2) h'.
Proof.
  intros [I F N L] En El.
  assert (forall o, o ∈ O1 ++ List.filter (fun o => negb (isMesh o)) g ++ O2 ->
                    o ∈ O1 ++ g ++ O2) as Hsub.
  { intros o. rewrite !elem_of_app, !list_elem_of_In, filter_In. tauto. }
  split.
  - rewrite !map_app in *. rewrite !NoDup_app in *.
    destruct I as (I1 & I12 & Ig & Ig2 & I2).
    assert (forall x, x ∈ map objId (List.filter (fun o => negb (isMesh o)) g) ->
                      x ∈ map objId g) as Hg.
    { intros x Hx. apply list_elem_of_fmap in Hx as (o & -> & Ho).
      apply list_elem_of_fmap_2. apply list_elem_of_In, filter_In in Ho as [Ho _].
      by apply list_elem_of_In. }
    repeat split; try done.
    + intros x Hx Hx'. apply (I12 x Hx). rewrite elem_of_app in *.
      destruct Hx'; auto.
    + clear -Ig. induction g as [|o g IH]; [constructor|].
      simpl in *. apply NoDup_cons in Ig as [Ho Ig].
      destruct (isMesh o); simpl; [by apply IH|].
      apply NoDup_cons. split; [|by apply IH].
      intros Hin. apply Ho. apply list_elem_of_fmap in Hin as (o' & -> & Ho').
      apply list_elem_of_fmap_2. apply list_elem_of_In, filter_In in Ho' as [Ho' _].
      by apply list_elem_of_In.
    + intros x Hx. apply Ig2. by apply Hg.
  - rewrite En. apply Forall_forall. intros o Ho.
    rewrite Forall_forall in F. by apply F, Hsub.
  - apply Forall_forall. intros o Ho.
    rewrite Forall_forall in N. by apply N, Hsub.
  - intros r. rewrite El, elem_of_difference, L, elem_of_slab_resources. split.
    + intros [[->|(o & Ho & Hr)] Hnot]; [by left|]. right. exists o. split; [|done].
      rewrite !elem_of_app in *. destruct Ho as [Ho|[Ho|Ho]]; auto.
      right; left. apply list_elem_of_In, filter_In.
      split; [by apply list_elem_of_In|].
      destruct (isMesh o) eqn:Em; [|done]. exfalso. apply Hnot. eauto.
    + intros [->|(o & Ho & Hr)].
      * split; [by left|]. intros (o & _ & _ & Hr).
        by apply resourcesOf_owner in Hr.
      * split; [right; exists o; split; [by apply Hsub|done]|].
        intros (o' & Ho' & Hm' & Hr').
        assert (objId o = objId o') as Eid.
        { apply resourcesOf_owner in Hr, Hr'. congruence. }
        assert (o' ∈ O1 ++ g ++ O2) as Ho'' by (rewrite !elem_of_app; auto).
        pose proof (objId_inj _ o o' I (Hsub o Ho) Ho'' Eid) as ->.
        rewrite !elem_of_app in Ho. destruct Ho as [Ho|[Ho|Ho]].
        -- rewrite map_app, NoDup_app in I. destruct I as (_ & I & _).
           apply (I (objId o')); [by apply list_elem_of_fmap_2|].
           apply list_elem_of_fmap_2. rewrite elem_of_app. auto.
        -- apply list_elem_of_In, filter_In in Ho as [_ Ho]. by rewrite Hm' in Ho.
        -- rewrite !map_app, !NoDup_app in I. destruct I as (_ & _ & _ & I & _).
           apply (I (objId o')); by apply list_elem_of_fmap_2.
Qed.

Lemma ObjInv_part (O1 g O2 : list Object3D) (h : Heap) :
  ObjInv (O1 ++ g ++ O2) h -> Forall wellNamed g /\ NoDup (map objId g).
Proof.
  intros [I _ N _]. split.
  - by apply Forall_app in N as [_ [N _]%Forall_app].
  - rewrite !map_app in I. by apply NoDup_app in I as (_ & _ & (I & _)%NoDup_app).
Qed.

Lemma objects_app (l1 l2 : list Group) :
  objects (l1 ++ l2) = objects l1 ++ objects l2.
Proof. unfold objects. apply flat_map_app. Qed.

Lemma objects_cons (g : Group) (l : list Group) :
  objects (g :: l) = children g ++ objects l.
Proof. done. Qed.

Section WithSources.
Variable rnd : nat -> Q.
Variable fl : Q -> Q.

(** *** Recycling keeps the invariant *)

Lemma repopulate_inv (z : Z) (segment segment' : Group)
    (O1 O2 : list Object3D) (h h' : Heap) :
  ObjInv (O1 ++ children segment ++ O2) h ->
  repopulate rnd fl z segment h = (segment', h') ->
  ObjInv (O1 ++ children segment' ++ O2) h'.
Proof.
  intros Hinv E. unfold repopulate in E.
  apply bind_inv in E as (g1 & h1 & Es & E).
  apply bind_inv in E as (g2 & h2 & Ep & E). injection E as <- <-. simpl.
  destruct (ObjInv_part _ _ _ _ Hinv) as [Hn Hd].
  apply sweep_spec in Es as (-> & _ & N1 & L1); [|done..].
  apply populateImages_spec in Ep as (new & -> & _ & Hp).
  pose proof (ObjInv_swept _ _ _ _ _ Hinv N1 L1) as Hinv1.
  pose proof (ObjInv_placed _ _ _ _ Hinv1 Hp) as Hinv2.
  eapply ObjInv_perm; [|exact Hinv2].
  rewrite <- !app_assoc. do 2 f_equiv. apply Permutation_app_comm.
Qed.

Lemma visit_inv (camZ : Q) (visited rest : list Group) (segment segment' : Group)
    (h h' : Heap) :
  ObjInv (objects (visited ++ segment :: rest)) h ->
  visit rnd fl camZ visited rest segment h = (segment', h') ->
  ObjInv (objects (visited ++ segment' :: rest)) h'.
Proof.
  rewrite !objects_app, !objects_cons. intros Hinv E. unfold visit in E.
  apply bind_inv in E as (s1 & h1 & E1 & E2).
  assert (ObjInv (objects visited ++ children s1 ++ objects rest) h1) as Hinv1.
  { destruct (passedBehind fl camZ (position_z segment)).
    - by eapply repopulate_inv.
    - by injection E1 as <- <-. }
  destruct (passedAhead fl camZ (position_z s1)).
  - by eapply repopulate_inv.
  - by injection E2 as <- <-.
Qed.

Lemma pass_inv (camZ : Q) (todo : list Group) :
  forall (visited segments' : list Group) (h h' : Heap),
  ObjInv (objects (visited ++ todo)) h ->
  pass rnd fl camZ visited todo h = (segments', h') ->
  ObjInv (objects segments') h'.
Proof.
  induction todo as [|segment rest IH]; intros visited segments' h h' Hinv E.
  - injection E as <- <-. by rewrite app_nil_r in Hinv.
  - simpl in E. apply bind_inv in E as (s & h1 & Ev & E).
    eapply IH; [|exact E]. rewrite <- app_assoc. simpl.
    by eapply visit_inv.
Qed.

(** *** Building the pool establishes it *)

Lemma createSegment_placed (z : Z) (segment : Group) (h h' : Heap) :
  Placement.createSegment rnd fl z h = (segment, h') ->
  Placed h h' (children segment).
Proof.
  unfold Placement.createSegment. intros E.
  apply bind_inv in E as (id & h1 & [= <- <-] & E).
  apply bind_inv in E as (u1 & h2 & [= <- <-] & E).
  apply bind_inv in E as (u2 & h3 & [= <- <-] & E).
  apply bind_inv in E as (g & h4 & Ep & [= <- <-]).
  apply populateImages_spec in Ep as (new & -> & _ & Hp). simpl.
  change (?x :: new) with ([x] ++ new).
  eapply Placed_app; [|exact Hp].
  split; simpl; [done|lia| |by repeat constructor]. set_solver.
Qed.

Lemma generate_inv (indices : list nat) :
  forall (segments segments' : list Group) (h h' : Heap),
  ObjInv (objects segments) h ->
  generate rnd fl indices segments h = (segments', h') ->
  ObjInv (objects segments') h'.
Proof.
  induction indices as [|i rest IH]; intros segments segments' h h' Hinv E.
  - by injection E as <- <-.
  - simpl in E. apply bind_inv in E as (s & h1 & Ec & E).
    eapply IH; [|exact E]. rewrite objects_app. unfold objects at 2. simpl.
    rewrite app_nil_r. eapply ObjInv_placed; [exact Hinv|].
    by eapply createSegment_placed.
Qed.

Lemma heap0_inv : ObjInv [] heap0.
Proof.
  split; simpl; [constructor..|].
  intros r. rewrite elem_of_singleton. split; [by left|].
  intros [->|(o & Ho & _)]; [done|]. by apply elem_of_nil in Ho.
Qed.

(** *** Every event keeps the invariant *)

Lemma ObjInv_map (f : Object3D -> Object3D) (objs : list Object3D) (h : Heap) :
  (forall o, objId (f o) = objId o) ->
  (forall o, resourcesOf (f o) = resourcesOf o) ->
  (forall o, wellNamed o -> wellNamed (f o)) ->
  ObjInv objs h -> ObjInv (map f objs) h.
Proof.
  intros Hid Hres Hname [I F N L]. split.
  - rewrite map_map. by rewrite (map_ext _ objId Hid).
  - apply Forall_fmap. eapply Forall_impl; [exact F|]. simpl.
    intros o. by rewrite Hid.
  - apply Forall_fmap. eapply Forall_impl; [exact N|]. done.
  - intros r. rewrite L. split; (intros [->|(o & Ho & Hr)]; [by left|right]).
    + exists (f o). split; [by apply list_elem_of_fmap_2|by rewrite Hres].
    + apply list_elem_of_fmap in Ho as (o' & -> & Ho').
      exists o'. split; [done|by rewrite <- Hres].
Qed.

Lemma objects_map (f : Object3D -> Object3D) (segments : list Group) :
  objects (map (fun g => mkGroup (position_z g) (map f (children g))) segments)
  = map f (objects segments).
Proof.
  induction segments as [|g segments IH]; [done|].
  rewrite objects_cons, map_app, <- IH. done.
Qed.

Lemma applyTheme_inv (b : bool) (w : World) :
  WorldInv w -> WorldInv (Theme.applyTheme b w).
Proof.
  unfold WorldInv, Theme.applyTheme. intros Hinv.
  destruct (sceneRef w); [|done]. simpl.
  unfold Theme.themeSegment. rewrite objects_map.
  apply ObjInv_map; try done; by intros [].
Qed.

Lemma animate_inv (w : World) : WorldInv w -> WorldInv (animate rnd fl w).
Proof.
  unfold WorldInv, animate. intros Hinv.
  destruct (sceneRef w); [|done].
  destruct (recyclePass rnd fl _ (segmentsRef w) (heap w)) as [segments h] eqn:E.
  simpl. eapply (pass_inv _ _ []); [exact Hinv|exact E].
Qed.

Lemma resourcesOf_loadSlab (id : nat) (o : Object3D) (r : Resource) :
  r ∈ resourcesOf (loadSlab id o)
  <-> r ∈ resourcesOf o
      \/ (r = SlabTexture id /\ isMesh o = true /\ objId o = id).
Proof.
  destruct o as [i mat|name s]; simpl.
  - naive_solver.
  - destruct (Nat.eqb_spec (slab_id s) id) as [E|E]; simpl.
    + unfold slabResources; simpl. rewrite E.
      destruct (slab_map s); set_solver.
    + naive_solver.
Qed.

Lemma attached_iff (id : nat) (segments : list Group) :
  attached id segments = true
  <-> exists o, o ∈ objects segments /\ isMesh o = true /\ objId o = id.
Proof.
  unfold attached. rewrite existsb_exists. split.
  - intros (g & Hg & Hs). apply existsb_exists in Hs as (s & Hs & Hid).
    apply Nat.eqb_eq in Hid.
    unfold slabsOf in Hs. apply in_flat_map in Hs as (o & Ho & Hso).
    destruct o as [i mat|name s']; [done|]. destruct Hso as [->|[]].
    exists (Mesh name s). split; [|done].
    apply list_elem_of_In, in_flat_map. eauto.
  - intros (o & Ho & Hm & Hid).
    apply list_elem_of_In, in_flat_map in Ho as (g & Hg & Ho).
    exists g. split; [done|]. destruct o as [i mat|name s]; [done|].
    apply existsb_exists. exists s. split; [|by apply Nat.eqb_eq].
    unfold slabsOf. apply in_flat_map. exists (Mesh name s). split; [done|by left].
Qed.

Lemma textureLoaded_inv (id : nat) (w : World) :
  WorldInv w -> WorldInv (textureLoaded id w).
Proof.
  unfold WorldInv, textureLoaded. intros [I F N L].
  destruct (attached id (segmentsRef w)) eqn:Ha; [|done]. simpl.
  apply attached_iff in Ha as (o0 & Ho0 & Hm0 & Hid0).
  rewrite objects_map. split.
  - rewrite map_map. erewrite map_ext; [exact I|]. by intros [|? ?]; simpl; [|case_match].
  - apply Forall_fmap. eapply Forall_impl; [exact F|].
    by intros [|? ?]; simpl; [|case_match].
  - apply Forall_fmap. eapply Forall_impl; [exact N|].
    by intros [|? ?]; simpl; [|case_match].
  - intros r. unfold Store.create. simpl.
    rewrite elem_of_union, elem_of_singleton, L. split.
    + intros [->|[->|(o & Ho & Hr)]].
      * right. exists (loadSlab id o0).
        split; [by apply list_elem_of_fmap_2|].
        apply resourcesOf_loadSlab. by right.
      * by left.
      * right. exists (loadSlab id o).
        split; [by apply list_elem_of_fmap_2|].
        apply resourcesOf_loadSlab. by left.
    + intros [->|(o' & Ho' & Hr)]; [right; by left|].
      apply list_elem_of_fmap in Ho' as (o & -> & Ho).
      apply resourcesOf_loadSlab in Hr as [Hr|(-> & _)]; [|by left].
      right; right. eauto.
Qed.

Lemma step_inv (w : World) (e : Event) : WorldInv w -> WorldInv (step rnd fl w e).
Proof.
  intros Hinv. destruct e as [|y|id|b]; simpl.
  - destruct (frameId w); [by apply animate_inv|done].
  - by destruct (scrollListener w).
  - by apply textureLoaded_inv.
  - by apply applyTheme_inv.
Qed.

Lemma setup_inv : WorldInv (setup rnd fl).
Proof.
  unfold setup.
  destruct (generateSegments rnd fl heap0) as [segments h] eqn:E.
  assert (WorldInv (mkWorld (Some (mkScene None None)) 0 0 segments h
                            false false false)) as Hinv.
  { unfold WorldInv; simpl. eapply generate_inv; [|exact E]. apply heap0_inv. }
  apply animate_inv in Hinv. exact Hinv.
Qed.

Lemma runEvents_inv (events : list Event) :
  forall w, WorldInv w -> WorldInv (runEvents rnd fl w events).
Proof.
  induction events as [|e events IH]; intros w Hinv; [done|].
  simpl. by apply IH, step_inv.
Qed.

Lemma reachable_inv (isDarkMode : bool) (events : list Event) :
  WorldInv (runEvents rnd fl (mount rnd fl isDarkMode) events).
Proof. apply runEvents_inv, applyTheme_inv, setup_inv. Qed.

End WithSources.



Lemma WorldInv_segment (w : World) (segment : Group) :
  WorldInv w -> segment ∈ segmentsRef w ->
  Forall wellNamed (children segment) /\ NoDup (map objId (children segment)).
Proof.
  unfold WorldInv. intros Hinv Hin.
  apply list_elem_of_split in Hin as (l1 & l2 & E). rewrite E in Hinv.
  rewrite objects_app, objects_cons in Hinv. by eapply ObjInv_part.
Qed.

(** *** Every call of the pass sweeps before it places *)

Section Calls.
Variable rnd : nat -> Q.
Variable fl : Q -> Q.




(** The trace is the trace of the pass: the pass ends with what its last
    call of [visit] returns. *)
Lemma pass_visits (camZ : Q) (todo : list Group) :
  forall (visited : list Group) (h : Heap),
  pass rnd fl camZ visited todo h
  = match last (visits rnd fl camZ visited todo h) with
    | None => (visited, h)
    | Some (v, segment, rest, h0) =>
        let '(segment', h') := visit rnd fl camZ v rest segment h0 in
        (v ++ [segment'], h')
    end.
Proof.
  induction todo as [|segment rest IH]; intros visited h; [done|].
  simpl. unfold Store.bind at 1.
  destruct (visit rnd fl camZ visited rest segment h) as [segment' h'] eqn:E.
  rewrite IH, last_cons.
  destruct (last (visits rnd fl camZ (visited ++ [segment']) rest h')) as [call|] eqn:El;
    [done|].
  apply last_None in El. destruct rest as [|next rest]; [by rewrite E|].
  simpl in El. discriminate El.
Qed.

End Calls.


(** C5, with the guard of the program: applying a theme flag to a world
    whose scene exists sets the background colour, sets the fog colour
    when the scene has a fog, and gives every line material of every
    segment the line colour and opacity of the theme; the slabs, the
    depths, the camera and the store stay as they are.  Without a scene
    nothing changes. *)
Theorem applyTheme_effect (isDarkMode : bool) (w : World) :
  let w' := Theme.applyTheme isDarkMode w in
  match sceneRef w with
  | None => w' = w
  | Some scene =>
      (exists scene',
         sceneRef w' = Some scene'
         /\ background scene' = Some (Theme.bgHex isDarkMode)
         /\ fog scene' = match fog scene with
                         | Some _ => Some (Theme.fogHex isDarkMode)
                         | None => None
                         end)
      /\ Forall2 (fun m' m => color m' = Theme.lineHex isDarkMode
                              /\ opacity m' = Theme.lineOp isDarkMode
                              /\ transparent m' = transparent m)
                 (Theme.lineMaterials w') (Theme.lineMaterials w)
      /\ Theme.slabs w' = Theme.slabs w
      /\ depths (segmentsRef w') = depths (segmentsRef w)
      /\ heap w' = heap w
      /\ cameraZ w' = cameraZ w
  end.
Proof.
  unfold Theme.applyTheme. destruct (sceneRef w) as [scene|] eqn:E; simpl.
  - split; [eexists; split; [reflexivity|]; by split|].
    split; [apply ThemeFacts.lineMaterials_themed|].
    split; [apply ThemeFacts.slabs_themed|].
    split; [|done]. unfold depths. rewrite map_map. by apply map_ext.
  - done.
Qed.

(** C5 as the specification states it fails: the set-up effect creates the
    scene without a fog, so toggling a mounted component from light to dark
    sets no fog colour. *)
Lemma theme_sets_no_fog_colour :
  let w := Theme.applyTheme true (mount noSlabs exact false) in
  Theme.fogColour w = None
  /\ Theme.fogColour w <> Some (Theme.fogHex true).
Proof. vm_compute. split; [reflexivity|discriminate]. Qed.

(** C4, for what the clean-up does: after [teardown] the render loop is
    stopped, the scroll and resize listeners are detached and the renderer
    has been disposed.  The loop is stopped in that no animation frame is
    requested any more, so the browser, which runs a frame only when one is
    requested, runs none ([Tick] changes nothing); a scroll finds no
    listener ([ScrollTo] changes nothing).  The clean-up touches nothing
    else: the pool, the camera and every other live resource stay. *)
Theorem teardown_effect (rnd : nat -> Q) (fl : Q -> Q) (w : World) :
  let w' := teardown w in
  frameId w' = false
  /\ scrollListener w' = false
  /\ resizeListener w' = false
  /\ (Renderer ∉ live (heap w'))
  /\ step rnd fl w' Tick = w'
  /\ (forall y, step rnd fl w' (ScrollTo y) = w')
  /\ segmentsRef w' = segmentsRef w
  /\ cameraZ w' = cameraZ w
  /\ live (heap w') = live (heap w) ∖ {[ Renderer ]}.
Proof.
  simpl. repeat split; try done. set_solver.
Qed.

(** The frame callback itself has no guard for the clean-up: [animate]
    called on a world after its clean-up requests a frame again.  The loop
    stops because the browser no longer calls it, not because it would do
    nothing. *)
Lemma animate_has_no_guard (rnd : nat -> Q) (fl : Q -> Q) (w : World) :
  frameId (animate rnd fl (teardown w)) = true.
Proof.
  unfold animate. destruct (sceneRef (teardown w)); [|done].
  by destruct (recyclePass rnd fl _ _ _).
Qed.

(** C4 as the specification states it fails: after mounting, one load
    that resolves, and the clean-up, the line geometry and material of the
    first segment and the geometry, material and texture of its first slab
    are still live; the clean-up disposes the renderer only. *)
Lemma teardown_keeps_segment_resources :
  let w := teardown (runEvents allSlabs exact (mount allSlabs exact false)
                               [TextureLoaded 1]) in
  LineGeometry 0 ∈ live (heap w)
  /\ LineMaterial 0 ∈ live (heap w)
  /\ SlabGeometry 1 ∈ live (heap w)
  /\ SlabMaterial 1 ∈ live (heap w)
  /\ SlabTexture 1 ∈ live (heap w).
Proof. cbv zeta. repeat split; vm_compute; reflexivity. Qed.

End LifecycleFacts.

(** ** Camera driver under rounding to nearest *)

Module CameraBounds.
Import Camera CameraFacts.
Local Open Scope Q_scope.

Lemma Nearest_exact : Nearest exact.
Proof. split; unfold exact; intros; lra. Qed.

Lemma nearest_mult (x : Q) :
  nearest x * 1024 == inject_Z (Qfloor (x * 1024 + (1 # 2))).
Proof. unfold nearest. field. Qed.

Lemma Rounding_nearest : Rounding nearest.
Proof.
  split.
  - intros x y Hxy. unfold nearest.
    assert (Qfloor (x * 1024 + (1 # 2)) <= Qfloor (y * 1024 + (1 # 2)))%Z as Hf
      by (apply Qfloor_resp_le; lra).
    rewrite Zle_Qle in Hf. lra.
  - intros n _. unfold nearest.
    assert (Qfloor (inject_Z n * 1024 + (1 # 2)) = (n * 1024)%Z) as ->.
    { apply Z.le_antisymm.
      - assert (inject_Z (Qfloor (inject_Z n * 1024 + (1 # 2)))
                < inject_Z (n * 1024 + 1)) as H.
        { eapply Qle_lt_trans; [apply Qfloor_le|].
          rewrite inject_Z_plus, inject_Z_mult.
          change (inject_Z 1024) with 1024. change (inject_Z 1) with 1. lra. }
        rewrite <- Zlt_Qlt in H. lia.
      - rewrite <- (Qfloor_Z (n * 1024)). apply Qfloor_resp_le.
        rewrite inject_Z_mult. change (inject_Z 1024) with 1024. lra. }
    rewrite inject_Z_mult. change (inject_Z 1024) with 1024. field.
  - intros x. set (f := Qfloor (x * 1024 + (1 # 2))).
    assert (nearest x == inject_Z f * (1 # 1024)) as E by reflexivity.
    unfold nearest at 1.
    assert (Qfloor (- nearest x * 1024 + (1 # 2)) = (- f)%Z) as ->.
    { assert (- nearest x * 1024 + (1 # 2) == inject_Z (- f) + (1 # 2)) as E'.
      { rewrite inject_Z_opp, E. field. }
      rewrite E'. apply Z.le_antisymm.
      - assert (inject_Z (Qfloor (inject_Z (- f) + (1 # 2))) < inject_Z (- f + 1)) as H.
        { eapply Qle_lt_trans; [apply Qfloor_le|].
          rewrite inject_Z_plus. change (inject_Z 1) with 1. lra. }
        rewrite <- Zlt_Qlt in H. lia.
      - rewrite <- (Qfloor_Z (- f)) at 1. apply Qfloor_resp_le. lra. }
    rewrite inject_Z_opp, E. ring.
Qed.

Lemma Nearest_nearest : Nearest nearest.
Proof.
  split; intros x Hx; unfold nearest; set (f := Qfloor (x * 1024 + (1 # 2))).
  - pose proof (Qfloor_le (x * 1024 + (1 # 2))) as Hf. fold f in Hf.
    destruct (Z_le_gt_dec f 0) as [H0|H1].
    + rewrite Zle_Qle in H0. change (inject_Z 0) with 0 in H0. lra.
    + assert (1 <= f)%Z as H by lia. rewrite Zle_Qle in H.
      change (inject_Z 1) with 1 in H. lra.
  - pose proof (Qlt_floor (x * 1024 + (1 # 2))) as Hf. fold f in Hf.
    rewrite inject_Z_plus in Hf. change (inject_Z 1) with 1 in Hf.
    destruct (Z_le_gt_dec 0 f) as [H0|H1].
    + rewrite Zle_Qle in H0. change (inject_Z 0) with 0 in H0. lra.
    + assert (f <= -1)%Z as H by lia. rewrite Zle_Qle in H.
      change (inject_Z (-1)) with (-1) in H. lra.
Qed.

(** From 1 on, rounding to the nearest multiple of [1/1024] has a relative
    error of at most [1/2048]. *)
Lemma nearest_error (x : Q) : 1 <= x -> nearest x <= x * (1 + (1 # 2048)).
Proof.
  intros Hx. unfold nearest.
  pose proof (Qfloor_le (x * 1024 + (1 # 2))) as Hf. lra.
Qed.

Section Rounded.
Variable fl : Q -> Q.
Hypothesis Hfl : Rounding fl.

(** A value the rounding produced is one it leaves unchanged. *)
Lemma fl_idem (x : Q) : fl (fl x) == fl x.
Proof using Hfl.
  pose proof (fl_neg fl Hfl (- fl x)) as H.
  rewrite (fl_proper fl Hfl (- fl (- fl x)) (fl x)) in H.
  - rewrite H, (fl_neg fl Hfl x). ring.
  - rewrite (fl_neg fl Hfl x). ring.
Qed.

Lemma cameraStep_idem (z t : Q) : fl (cameraStep fl z t) == cameraStep fl z t.
Proof using Hfl. unfold cameraStep, fadd. apply fl_idem. Qed.

Lemma targetDepth_idem (y : Q) : fl (targetDepth fl y) == targetDepth fl y.
Proof using Hfl. unfold targetDepth, fmul. apply fl_idem. Qed.

(** At the target the step changes nothing. *)
Lemma cameraStep_fixed (t : Q) : fl t == t -> cameraStep fl t t == t.
Proof using Hfl.
  intros Ht. unfold cameraStep, fadd, fmul, fsub.
  assert (fl (t - t) == 0) as E1.
  { rewrite (fl_proper fl Hfl (t - t) 0) by ring. by apply fl_zero. }
  assert (fl (fl (t - t) * SMOOTHING fl) == 0) as E2.
  { rewrite (fl_proper fl Hfl _ 0) by (rewrite E1; ring). by apply fl_zero. }
  rewrite (fl_proper fl Hfl _ t) by (rewrite E2; ring). exact Ht.
Qed.

Lemma cameraStep_proper (z z' t : Q) :
  z == z' -> cameraStep fl z t == cameraStep fl z' t.
Proof using Hfl.
  intros E. unfold cameraStep, fadd, fmul, fsub.
  apply (fl_proper fl Hfl).
  assert (fl (t - z) == fl (t - z')) as E1
    by (apply (fl_proper fl Hfl); rewrite E; reflexivity).
  assert (fl (fl (t - z) * SMOOTHING fl) == fl (fl (t - z') * SMOOTHING fl)) as E2
    by (apply (fl_proper fl Hfl); rewrite E1; reflexivity).
  rewrite E2, E. reflexivity.
Qed.

Lemma approach_fixed (n : nat) (t : Q) : fl t == t -> approach fl n t t == t.
Proof using Hfl.
  intros Ht. induction n as [|n IH]; [reflexivity|].
  rewrite approach_S, (cameraStep_proper _ t) by exact IH.
  by apply cameraStep_fixed.
Qed.

Hypothesis Hnear : Nearest fl.

Lemma SMOOTHING_small : 0 <= SMOOTHING fl <= 1 # 5.
Proof using Hfl Hnear.
  unfold SMOOTHING. split; [apply (fl_nonneg fl Hfl); lra|].
  pose proof (near_pos fl Hnear (1 # 10)). lra.
Qed.

Lemma SCROLL_FACTOR_small : 0 <= SCROLL_FACTOR fl <= 1 # 10.
Proof using Hfl Hnear.
  unfold SCROLL_FACTOR. split; [apply (fl_nonneg fl Hfl); lra|].
  pose proof (near_pos fl Hnear (5 # 100)). lra.
Qed.

(** One step takes the camera to a depth between the depth it had and the
    target. *)
Lemma cameraStep_up (z t : Q) :
  fl z == z -> fl t == t -> z <= t ->
  z <= cameraStep fl z t <= t.
Proof using Hfl Hnear.
  intros Hz Ht Hzt. unfold cameraStep, fadd, fmul, fsub.
  pose proof SMOOTHING_small as [Hk0 Hk1].
  set (d := fl (t - z)).
  assert (0 <= d <= 2 * (t - z)) as [Hd0 Hd1].
  { split; [apply (fl_nonneg fl Hfl); lra|apply (near_pos fl Hnear); lra]. }
  set (inc := fl (d * SMOOTHING fl)).
  assert (0 <= d * SMOOTHING fl) as Hp by nra.
  assert (0 <= inc <= 2 * (d * SMOOTHING fl)) as [Hi0 Hi1].
  { split; [by apply (fl_nonneg fl Hfl)|by apply (near_pos fl Hnear)]. }
  assert (inc <= t - z) as Hi by nra.
  split.
  - apply Qle_trans with (fl z); [rewrite Hz; apply Qle_refl|].
    apply (fl_mono fl Hfl). lra.
  - apply Qle_trans with (fl t); [|rewrite Ht; apply Qle_refl].
    apply (fl_mono fl Hfl). lra.
Qed.

Lemma cameraStep_down (z t : Q) :
  fl z == z -> fl t == t -> t <= z ->
  t <= cameraStep fl z t <= z.
Proof using Hfl Hnear.
  intros Hz Ht Hzt. unfold cameraStep, fadd, fmul, fsub.
  pose proof SMOOTHING_small as [Hk0 Hk1].
  set (d := fl (t - z)).
  assert (2 * (t - z) <= d <= 0) as [Hd0 Hd1].
  { split; [apply (near_neg fl Hnear); lra|apply (fl_nonpos fl Hfl); lra]. }
  set (inc := fl (d * SMOOTHING fl)).
  assert (d * SMOOTHING fl <= 0) as Hp by nra.
  assert (2 * (d * SMOOTHING fl) <= inc <= 0) as [Hi0 Hi1].
  { split; [by apply (near_neg fl Hnear)|by apply (fl_nonpos fl Hfl)]. }
  assert (t - z <= inc) as Hi by nra.
  split.
  - apply Qle_trans with (fl t); [rewrite Ht; apply Qle_refl|].
    apply (fl_mono fl Hfl). lra.
  - apply Qle_trans with (fl z); [|rewrite Hz; apply Qle_refl].
    apply (fl_mono fl Hfl). lra.
Qed.

Lemma approach_idem (n : nat) (z t : Q) :
  fl z == z -> fl (approach fl n z t) == approach fl n z t.
Proof using Hfl.
  intros Hz. destruct n as [|n]; [done|].
  rewrite approach_S. apply cameraStep_idem.
Qed.

Lemma approach_le (n : nat) (z t : Q) :
  fl z == z -> fl t == t -> z <= t -> approach fl n z t <= t.
Proof using Hfl Hnear.
  intros Hz Ht Hzt. induction n as [|n IH]; [done|].
  rewrite approach_S. apply cameraStep_up; [by apply approach_idem|done..].
Qed.

Lemma approach_ge (n : nat) (z t : Q) :
  fl z == z -> fl t == t -> t <= z -> t <= approach fl n z t.
Proof using Hfl Hnear.
  intros Hz Ht Hzt. induction n as [|n IH]; [done|].
  rewrite approach_S. apply cameraStep_down; [by apply approach_idem|done..].
Qed.

(** The target of a scroll offset between 0 and 9999990 lies between
    -999999 and 0. *)
Lemma targetDepth_range (y : Q) :
  0 <= y <= 9999990 -> -999999 <= targetDepth fl y <= 0.
Proof using Hfl Hnear.
  intros [Hy0 Hy1]. split; [|by apply targetDepth_nonpos].
  unfold targetDepth, fmul.
  pose proof SCROLL_FACTOR_small as [Hc0 Hc1].
  apply (fl_ge_int fl Hfl (- y * SCROLL_FACTOR fl) (-999999)); [done|].
  change (inject_Z (-999999)) with (-999999). nra.
Qed.

(** One frame keeps a camera between -999999 and 0 there. *)
Lemma frameDepth_range (z y : Q) :
  fl z == z -> -999999 <= z <= 0 -> 0 <= y <= 9999990 ->
  -999999 <= frameDepth fl z y <= 0.
Proof using Hfl Hnear.
  intros Hz [Hz0 Hz1] Hy. unfold frameDepth.
  pose proof (targetDepth_range y Hy) as [Ht0 Ht1].
  pose proof (targetDepth_idem y) as Ht.
  destruct (Qlt_le_dec z (targetDepth fl y)) as [Hlt|Hge].
  - pose proof (cameraStep_up z _ Hz Ht (Qlt_le_weak _ _ Hlt)). lra.
  - pose proof (cameraStep_down z _ Hz Ht Hge). lra.
Qed.

End Rounded.

(** Whatever the rounding, scrolling further never brings the target
    nearer: the target depth of a larger scroll offset is at most that of a
    smaller one. *)
Theorem scroll_deeper (fl : Q -> Q) (y y' : Q) :
  Rounding fl -> y <= y' -> targetDepth fl y' <= targetDepth fl y.
Proof.
  intros Hfl Hy. unfold targetDepth, fmul. apply (fl_mono fl Hfl).
  assert (0 <= SCROLL_FACTOR fl) by (apply (fl_nonneg fl Hfl); lra). nra.
Qed.

Lemma scroll_deeper_witness : targetDepth grid 2500 <= targetDepth grid 100.
Proof. apply (scroll_deeper grid 100 2500 Rounding_grid). discriminate. Defined.

(** Whatever the rounding, a camera that is at its target stays there:
    with the target held at a depth the arithmetic represents and the
    camera at that depth, every later frame leaves the camera at it. *)
Theorem camera_rests_at_target (fl : Q -> Q) (n : nat) (t : Q) :
  Rounding fl -> fl t == t -> approach fl n t t == t.
Proof. intros Hfl Ht. by apply approach_fixed. Qed.

Lemma camera_rests_at_target_witness : approach nearest 3 (-5) (-5) == -5.
Proof.
  apply (camera_rests_at_target nearest 3 (-5) Rounding_nearest). reflexivity.
Defined.

(** Under any monotone rounding to nearest, with the target held at [t]
    and the camera started at [z] (two depths the arithmetic represents),
    the camera never moves away from the target and never passes it: from
    below the depths increase and stay at most [t], from above they
    decrease and stay at least [t]. *)
Theorem camera_never_overshoots (fl : Q -> Q) (n : nat) (z t : Q) :
  Rounding fl -> Nearest fl -> fl z == z -> fl t == t ->
  (z <= t -> approach fl n z t <= approach fl (S n) z t <= t)
  /\ (t <= z -> t <= approach fl (S n) z t <= approach fl n z t).
Proof.
  intros Hfl Hnear Hz Ht. rewrite approach_S.
  pose proof (approach_idem fl Hfl n z t Hz) as Ha.
  split; intros Hzt.
  - apply cameraStep_up; try done. by apply approach_le.
  - apply cameraStep_down; try done. by apply approach_ge.
Qed.

Lemma camera_never_overshoots_witness :
  (0 <= -5 -> approach nearest 7 0 (-5) <= approach nearest 8 0 (-5) <= -5)
  /\ (-5 <= 0 -> -5 <= approach nearest 8 0 (-5) <= approach nearest 7 0 (-5)).
Proof.
  apply (camera_never_overshoots nearest 7 0 (-5) Rounding_nearest Nearest_nearest);
    reflexivity.
Defined.

End CameraBounds.

(** ** Content placement: what one run adds *)

Module PlacementBounds.
Import Placement Invariants PlacementFacts.

Lemma addedSlab_weaken (rnd : nat -> Q) (fl : Q -> Q) (face : Face)
    (cells cells' : list nat) (o : Object3D) :
  (forall i, i ∈ cells -> i ∈ cells') ->
  addedSlab rnd fl face cells o -> addedSlab rnd fl face cells' o.
Proof. intros Hsub (id & i & k & Hi & ->). exists id, i, k. auto. Qed.

Section WithRandom.
Variable rnd : nat -> Q.
Variable fl : Q -> Q.

Lemma faceLoop_added (face : Face) (thr : Q) (cells : list nat) :
  forall (lastIdx : Z) (g g' : list Object3D) (h h' : Heap),
  faceLoop rnd fl face thr cells lastIdx g h = (g', h') ->
  exists new, g' = g ++ new /\ Forall (addedSlab rnd fl face cells) new.
Proof.
  induction cells as [|i rest IH]; intros lastIdx g g' h h' E.
  - injection E as <- <-. exists []. by rewrite app_nil_r.
  - assert (forall o, addedSlab rnd fl face rest o -> addedSlab rnd fl face (i :: rest) o)
      as Hw.
    { intros o. apply addedSlab_weaken. intros j Hj. by apply elem_of_cons; right. }
    simpl in E. destruct (lastIdx + 1 <? Z.of_nat i)%Z eqn:Hgate.
    + apply bind_inv in E as (r & h1 & Er & E). injection Er as <- <-.
      destruct (Qltb thr (rnd (draws h))) eqn:Hroll.
      * apply bind_inv in E as (g1 & h2 & Ea & E).
        injection Ea as <- <-.
        apply IH in E as (new & -> & Hnew).
        eexists (_ :: new). split; [by rewrite <- app_assoc|].
        constructor; [|by eapply Forall_impl].
        eexists _, i, _. split; [by apply elem_of_cons; left|reflexivity].
      * apply IH in E as (new & -> & Hnew).
        exists new. split; [done|by eapply Forall_impl].
    + apply IH in E as (new & -> & Hnew).
      exists new. split; [done|by eapply Forall_impl].
Qed.

Lemma populateImages_added (g g' : list Object3D) (h h' : Heap) :
  populateImages rnd fl g h = (g', h') ->
  exists new,
    g' = g ++ new
    /\ Forall (fun o => exists face,
                 addedSlab rnd fl face (seq 0 (faceCells face)) o) new.
Proof.
  unfold populateImages, floorLoop, ceilingLoop, leftWallLoop, rightWallLoop.
  intros E.
  apply bind_inv in E as (g1 & h1 & E1 & E).
  apply bind_inv in E as (g2 & h2 & E2 & E).
  apply bind_inv in E as (g3 & h3 & E3 & E4).
  apply faceLoop_added in E1 as (n1 & -> & A1).
  apply faceLoop_added in E2 as (n2 & -> & A2).
  apply faceLoop_added in E3 as (n3 & -> & A3).
  apply faceLoop_added in E4 as (n4 & -> & A4).
  exists (n1 ++ n2 ++ n3 ++ n4).
  split; [by rewrite <- !app_assoc|].
  repeat (apply Forall_app; split);
    (eapply Forall_impl; [eassumption|]); intros o Ho.
  - by exists Floor.
  - by exists Ceiling.
  - by exists LeftWall.
  - by exists RightWall.
Qed.

End WithRandom.

(** What follows of an object from its being added by a face loop. *)
Lemma addedSlab_mesh (rnd : nat -> Q) (fl : Q -> Q) (face : Face) (o : Object3D) :
  addedSlab rnd fl face (seq 0 (faceCells face)) o ->
  exists s, o = Mesh "slab_image" s
    /\ slab_face s = face
    /\ slab_cell s < faceCells face
    /\ slab_map s = false
    /\ slab_opacity s = 0%Q
    /\ exists k, slab_url s = Qfloor (fmul fl (rnd k) (inject_Z IMAGE_COUNT)).
Proof.
  intros (id & i & k & Hi & ->). eexists. split; [reflexivity|]. simpl.
  apply elem_of_seq in Hi. repeat split; [lia|by exists k].
Qed.

Lemma added_slabs (rnd : nat -> Q) (fl : Q -> Q) (new : list Object3D) :
  Forall (fun o => exists face, addedSlab rnd fl face (seq 0 (faceCells face)) o) new ->
  Theme.linesOf new = []
  /\ Forall slabOK (slabsOf new)
  /\ Forall (fun s => slab_map s = false /\ slab_opacity s = 0%Q
                      /\ exists k, slab_url s
                                    = Qfloor (fmul fl (rnd k) (inject_Z IMAGE_COUNT)))
            (slabsOf new).
Proof.
  induction 1 as [|o new (face & Ho) _ (IH1 & IH2 & IH3)]; [by repeat split|].
  apply addedSlab_mesh in Ho as (s & -> & Hf & Hc & Hm & Hop & Hu).
  simpl. repeat split; [done| |].
  - constructor; [|done]. unfold slabOK. rewrite Hf, Hm. done.
  - by constructor.
Qed.

(** Cells under the adjacency gate lie at least two apart, so [n] cells
    hold at most [(n + 1) / 2] of them. *)
Lemma Gated_count (n : Z) (cells : list nat) :
  forall lastIdx lo : Z,
  Gated lastIdx cells ->
  Forall (fun i => lo <= Z.of_nat i < n)%Z cells ->
  (2 * Z.of_nat (length cells) <= Z.max 0 (n - lo + 1))%Z.
Proof.
  induction cells as [|i rest IH]; intros lastIdx lo Hg Hr; simpl; [lia|].
  destruct Hg as [_ Hg]. inversion Hr as [|? ? Hi Hrest]; subst.
  pose proof (Gated_lower _ _ Hg) as Hlow.
  specialize (IH (Z.of_nat i) (Z.of_nat i + 2)%Z Hg).
  assert (2 * Z.of_nat (length rest) <= Z.max 0 (n - (Z.of_nat i + 2) + 1))%Z.
  { apply IH. rewrite Forall_forall in *. intros j Hj.
    specialize (Hlow j Hj). specialize (Hrest j Hj). lia. }
  lia.
Qed.

Lemma slabsOf_app (g1 g2 : list Object3D) :
  slabsOf (g1 ++ g2) = slabsOf g1 ++ slabsOf g2.
Proof. unfold slabsOf. apply flat_map_app. Qed.

Lemma linesOf_app (g1 g2 : list Object3D) :
  Theme.linesOf (g1 ++ g2) = Theme.linesOf g1 ++ Theme.linesOf g2.
Proof. unfold Theme.linesOf. apply flat_map_app. Qed.

(** The slabs of a group are those of its four faces. *)
Lemma slabs_by_face (g : list Object3D) :
  length (slabsOf g)
  = length (filledCells Floor g) + length (filledCells Ceiling g)
    + length (filledCells LeftWall g) + length (filledCells RightWall g).
Proof.
  unfold filledCells. rewrite !length_map.
  induction (slabsOf g) as [|s l IH]; [done|].
  simpl. destruct (slab_face s); simpl; lia.
Qed.

Lemma filledCells_range (face : Face) (g : list Object3D) :
  Forall slabOK (slabsOf g) ->
  Forall (fun i => i < faceCells face) (filledCells face g).
Proof.
  unfold filledCells. induction 1 as [|s l [Hs _] _ IH]; [constructor|].
  simpl. case_bool_decide as Hf; [|done]. simpl. constructor; [|done].
  by rewrite <- Hf.
Qed.

(** Under the gate, a face holds at most three slabs on floor and ceiling
    and two on a wall: at most ten slabs in a group. *)
Lemma gated_counts (g : list Object3D) :
  Forall slabOK (slabsOf g) ->
  (forall face, Gated (-999) (filledCells face g)) ->
  length (filledCells Floor g) <= 3
  /\ length (filledCells Ceiling g) <= 3
  /\ length (filledCells LeftWall g) <= 2
  /\ length (filledCells RightWall g) <= 2
  /\ length (slabsOf g) <= 10.
Proof.
  intros Hok Hg.
  assert (forall face,
    (2 * Z.of_nat (length (filledCells face g))
     <= Z.max 0 (Z.of_nat (faceCells face) - 0 + 1))%Z) as Hc.
  { intros face. apply (Gated_count _ _ (-999)); [apply Hg|].
    eapply Forall_impl; [by apply filledCells_range|]. simpl. lia. }
  pose proof (Hc Floor). pose proof (Hc Ceiling).
  pose proof (Hc LeftWall). pose proof (Hc RightWall).
  rewrite slabs_by_face. simpl in *. unfold FLOOR_COLS, WALL_ROWS in *. lia.
Qed.

(** Whatever the random source, one run of [populateImages] adds nothing
    but slabs: each in a cell of its face (below 6 on floor and ceiling,
    below 4 on a wall), without texture and invisible; at most three on
    the floor, three on the ceiling and two on each wall, so at most ten. *)
Theorem populate_bounds (rnd : nat -> Q) (fl : Q -> Q) (group : list Object3D)
    (h : Heap) :
  exists new,
    fst (populateImages rnd fl group h) = group ++ new
    /\ Theme.linesOf new = []
    /\ Forall (fun s => slab_cell s < faceCells (slab_face s)
                        /\ slab_map s = false /\ slab_opacity s = 0%Q)
              (slabsOf new)
    /\ length (filledCells Floor new) <= 3
    /\ length (filledCells Ceiling new) <= 3
    /\ length (filledCells LeftWall new) <= 2
    /\ length (filledCells RightWall new) <= 2
    /\ length (slabsOf new) <= 10.
Proof.
  destruct (populateImages rnd fl group h) as [g' h'] eqn:E.
  pose proof (populateImages_spec _ _ _ _ _ _ E) as (new & -> & Hg & _).
  apply populateImages_added in E as (new' & E' & Ha).
  apply app_inv_head in E' as <-.
  apply added_slabs in Ha as (Hl & Hok & Hs).
  exists new. split; [done|]. split; [done|]. split.
  - rewrite Forall_forall in *. intros s Hin.
    destruct (Hok s Hin) as [Hc _]. destruct (Hs s Hin) as (Hm & Ho & _). done.
  - by apply gated_counts.
Qed.

(** The image index stays within [imageUrls], rounding included: let the
    arithmetic be monotone with relative error at most [u] on the numbers
    from 1 to 14 (for binary64, [u] is 2^-53), and let the draws lie
    between 0 and [1 - u], the largest value below 1, as [Math.random()]
    gives them.  Then every slab that [populateImages] adds picks an image
    index [Math.floor(r * 14)] from 0 to 13; slabs with such an index keep
    it. *)
Theorem image_index_in_range (rnd : nat -> Q) (fl : Q -> Q) (u : Q)
    (group : list Object3D) (h : Heap) :
  Camera.Rounding fl ->
  (0 < u)%Q ->
  (forall x, 1 <= x <= 14 -> fl x <= x * (1 + u))%Q ->
  (forall k, 0 <= rnd k <= 1 - u)%Q ->
  Forall (fun s => 0 <= slab_url s < IMAGE_COUNT)%Z (slabsOf group) ->
  Forall (fun s => 0 <= slab_url s < IMAGE_COUNT)%Z
         (slabsOf (fst (populateImages rnd fl group h))).
Proof.
  intros Hfl Hu Herr Hr Hg.
  destruct (populateImages rnd fl group h) as [g' h'] eqn:E.
  apply populateImages_added in E as (new & -> & Ha). simpl.
  rewrite slabsOf_app. apply Forall_app. split; [done|].
  apply added_slabs in Ha as (_ & _ & Hs).
  eapply Forall_impl; [exact Hs|]. intros s (_ & _ & k & ->).
  destruct (Hr k) as [H0 H1]. unfold IMAGE_COUNT, fmul.
  change (inject_Z 14) with 14%Q.
  assert (0 <= fl (rnd k * 14) < 14)%Q as [Hlo Hhi].
  { split; [apply (CameraFacts.fl_nonneg fl Hfl); lra|].
    destruct (Qlt_le_dec (rnd k * 14) 1) as [Hsmall|Hbig].
    - apply Qle_lt_trans with (fl 1%Q);
        [|rewrite (CameraFacts.fl_one fl Hfl); reflexivity].
      apply (Camera.fl_mono fl Hfl). lra.
    - eapply Qle_lt_trans; [apply Herr; lra|]. nra. }
  split.
  - change 0%Z with (Qfloor 0). by apply Qfloor_resp_le.
  - assert (inject_Z (Qfloor (fl (rnd k * 14))) < inject_Z 14)%Q as Hlt.
    { eapply Qle_lt_trans; [apply Qfloor_le|]. exact Hhi. }
    by rewrite <- Zlt_Qlt in Hlt.
Qed.

Lemma image_index_in_range_witness :
  Forall (fun s => 0 <= slab_url s < IMAGE_COUNT)%Z
         (slabsOf (fst (populateImages allSlabs Camera.nearest []
                                       (mkHeap 0 0 ∅)))).
Proof.
  apply (image_index_in_range allSlabs Camera.nearest (1 # 2048) []
           (mkHeap 0 0 ∅) CameraBounds.Rounding_nearest).
  - reflexivity.
  - intros x [Hx _]. by apply CameraBounds.nearest_error.
  - intros k. unfold allSlabs. split; discriminate.
  - constructor.
Defined.

(** The corners of the slab of one cell, checked by evaluation. *)
Ltac corners_inside :=
  vm_compute (slabCorners _ _);
  do 4 (constructor; [vm_compute; repeat split; reflexivity|]);
  constructor.

(** Every slab lies flat on its face and strictly inside its cell: the
    four corners of the slab of cell [i] of a face are on the plane of the
    face, strictly between the grid lines [i] and [i + 1] of the wireframe,
    and strictly between the near and the far end of the segment. *)
Theorem slab_inside_cell (face : Face) (i : nat) :
  i < faceCells face ->
  Forall (insideCell face i) (slabCorners face i).
Proof.
  intros Hi.
  destruct face; simpl in Hi; unfold FLOOR_COLS, WALL_ROWS in Hi.
  - do 6 (destruct i as [|i]; [corners_inside|]). lia.
  - do 6 (destruct i as [|i]; [corners_inside|]). lia.
  - do 4 (destruct i as [|i]; [corners_inside|]). lia.
  - do 4 (destruct i as [|i]; [corners_inside|]). lia.
Qed.

Lemma slab_inside_cell_witness :
  Forall (insideCell LeftWall 3) (slabCorners LeftWall 3).
Proof. apply (slab_inside_cell LeftWall 3). simpl. unfold WALL_ROWS. lia. Defined.

End PlacementBounds.

(** ** The recycling pass: how far it moves the pool, and when it rests *)

Module PoolPass.
Import Pool Invariants NumFacts PoolFacts.
Local Open Scope Z_scope.

Lemma filter_all_false {A} (p : A -> bool) (l : list A) :
  Forall (fun x => p x = false) l -> List.filter p l = [].
Proof. induction 1 as [|x l Hx _ IH]; [done|]. simpl. by rewrite Hx. Qed.

Lemma filter_length_le {A} (p : A -> bool) (l : list A) :
  (length (List.filter p l) <= length l)%nat.
Proof.
  induction l as [|x l IH]; [done|]. simpl. destruct (p x); simpl; lia.
Qed.

(** A test that fails somewhere selects fewer elements than there are. *)
Lemma filter_length_lt {A} (p : A -> bool) (l : list A) :
  Exists (fun x => p x = false) l -> (length (List.filter p l) < length l)%nat.
Proof.
  induction 1 as [x l Hx|x l _ IH]; simpl.
  - rewrite Hx. pose proof (filter_length_le p l). lia.
  - destruct (p x); simpl; lia.
Qed.

Section Tests.
Variables fwd bwd : Z -> bool.
Hypothesis fwd_up : forall a b, fwd a = true -> a <= b -> fwd b = true.
Hypothesis bwd_down : forall a b, bwd a = true -> b <= a -> bwd b = true.
Hypothesis apart : forall a b, fwd a = true -> bwd b = true -> b + 84 < a.
Hypothesis fwd_low : forall a, fwd a = true -> -999993 < a.
Hypothesis bwd_high : forall b, bwd b = true -> b < -90.

(** A pass moves the pool as many places deeper as it finds segments
    behind the camera, or as many places nearer as it finds segments past
    the far end; and unless it found every segment on one side, it leaves
    no segment for which a test holds. *)
Lemma passDepths_shift (top : Z) (l : list Z) :
  PoolInv top l ->
  let k := length (List.filter fwd l) in
  let k' := length (List.filter bwd l) in
  PoolInv (top - Z.of_nat k + Z.of_nat k') (passDepths fwd bwd [] l)
  /\ ((0 < k)%nat -> k' = O)
  /\ ((k < 14)%nat -> (k' < 14)%nat ->
      Forall (fun z => fwd z = false /\ bwd z = false) (passDepths fwd bwd [] l)).
Proof using All.
  intros Hinv. pose proof Hinv as [Hperm Hrange].
  assert (forall z, z ∈ l -> exists i, 0 <= i < 14 /\ z = 6 * (top - i)) as Hl.
  { intros z Hz. rewrite Hperm, run_desc in Hz. by apply elem_of_desc in Hz. }
  destruct (desc_split fwd 14 fwd_up top) as (k & Hk & Hf & Hn & Hw).
  rewrite <- run_desc in Hf, Hn.
  assert (length (List.filter fwd l) = k) as Ek.
  { rewrite (Permutation_length (filter_perm fwd _ _ Hperm)), Hf.
    apply length_desc. }
  cbv zeta. rewrite Ek. destruct k as [|k].
  - assert (Forall (fun z => fwd z = false) l) as Hnone by (by apply filter_none).
    destruct (desc_split (fun z => negb (bwd z)) 14) with (top := top)
      as (k0 & Hk0 & Hf0 & Hn0 & _).
    { intros a b Ha Hab. destruct (bwd b) eqn:E; [|done].
      by rewrite (bwd_down _ _ E Hab) in Ha. }
    rewrite <- run_desc in Hf0, Hn0.
    rewrite (filter_ext_bool _ bwd) in Hn0 by (intros; apply negb_involutive).
    assert (length (List.filter bwd l) = (14 - k0)%nat) as Ek'.
    { rewrite (Permutation_length (filter_perm bwd _ _ Hperm)), Hn0.
      apply length_desc. }
    rewrite Ek'.
    assert (PoolInv (top + Z.of_nat (14 - k0)) (passDepths fwd bwd [] l)) as Hnew.
    { apply passDepths_backward; try done.
      - lia.
      - rewrite Hf0. f_equal. lia.
      - rewrite Hn0. f_equal. f_equal. lia. }
    split; [|split].
    + replace (top - Z.of_nat 0 + Z.of_nat (14 - k0))
        with (top + Z.of_nat (14 - k0)) by lia. exact Hnew.
    + lia.
    + intros _ Hlt. destruct Hnew as [Hp' _].
      apply Forall_forall. intros z Hz. rewrite Hp', run_desc in Hz.
      apply elem_of_desc in Hz as (i & Hi & ->).
      assert (bwd (6 * (top - Z.of_nat k0 + 1)) = false) as Hkeep.
      { assert (6 * (top - Z.of_nat k0 + 1)
                ∈ List.filter (fun z => negb (bwd z)) (run top)) as Hin.
        { rewrite Hf0. apply elem_of_desc. exists (Z.of_nat k0 - 1). lia. }
        apply list_elem_of_In, filter_In in Hin as [_ Hin].
        by apply negb_true_iff in Hin. }
      split.
      * destruct (fwd (6 * (top + Z.of_nat (14 - k0) - i))) eqn:E; [|done].
        destruct (Nat.eq_dec k0 14) as [->|Hne].
        { rewrite Forall_forall in Hnone.
          rewrite Hnone in E; [done|].
          rewrite Hperm, run_desc. apply elem_of_desc. exists i. lia. }
        assert (bwd (6 * (top - Z.of_nat k0)) = true) as Hb.
        { assert (6 * (top - Z.of_nat k0) ∈ List.filter bwd (run top)) as Hin.
          { rewrite Hn0. apply elem_of_desc. exists 0. lia. }
          apply list_elem_of_In, filter_In in Hin. apply Hin. }
        pose proof (apart _ _ E Hb). lia.
      * destruct (bwd (6 * (top + Z.of_nat (14 - k0) - i))) eqn:E; [|done].
        rewrite (bwd_down _ (6 * (top - Z.of_nat k0 + 1)) E) in Hkeep by lia.
        done.
  - assert (fwd (6 * (top - Z.of_nat (S k) + 1)) = true) as Hw' by (apply Hw; lia).
    assert (Forall (fun z => bwd z = false) l) as Hnone.
    { apply Forall_forall. intros z Hz. destruct (Hl z Hz) as (i & Hi & ->).
      destruct (bwd (6 * (top - i))) eqn:E; [|done].
      pose proof (apart _ _ Hw' E). lia. }
    rewrite (filter_all_false bwd l Hnone). simpl length.
    assert (PoolInv (top - Z.of_nat (S k)) (passDepths fwd bwd [] l)) as Hnew.
    { apply passDepths_forward; try done. lia. }
    split; [|split].
    + replace (top - Z.of_nat (S k) + Z.of_nat 0)
        with (top - Z.of_nat (S k)) by lia. exact Hnew.
    + done.
    + intros Hlt _. destruct Hnew as [Hp' _].
      apply Forall_forall. intros z Hz. rewrite Hp', run_desc in Hz.
      apply elem_of_desc in Hz as (i & Hi & ->).
      assert (fwd (6 * (top - Z.of_nat (S k))) = false) as Hkeep.
      { assert (6 * (top - Z.of_nat (S k))
                ∈ List.filter (fun z => negb (fwd z)) (run top)) as Hin.
        { rewrite Hn. apply elem_of_desc. exists 0. lia. }
        apply list_elem_of_In, filter_In in Hin as [_ Hin].
        by apply negb_true_iff in Hin. }
      split.
      * destruct (fwd (6 * (top - Z.of_nat (S k) - i))) eqn:E; [|done].
        rewrite (fwd_up _ (6 * (top - Z.of_nat (S k))) E) in Hkeep by lia.
        done.
      * destruct (bwd (6 * (top - Z.of_nat (S k) - i))) eqn:E; [|done].
        pose proof (apart _ _ Hw' E). lia.
Qed.

End Tests.

Section Segments.
Variable rnd : nat -> Q.
Variable fl : Q -> Q.

(** The segments of which no test holds are left as they are. *)
Lemma pass_idle (camZ : Q) (todo : list Group) :
  forall (visited : list Group) (h : Heap),
  Forall (fun z => passedBehind fl camZ z = false
                   /\ passedAhead fl camZ z = false) (depths todo) ->
  pass rnd fl camZ visited todo h = (visited ++ todo, h).
Proof.
  induction todo as [|segment rest IH]; intros visited h Hq; simpl.
  - by rewrite app_nil_r.
  - inversion Hq as [|? ? [Hb Ha] Hrest]; subst.
    unfold Store.bind at 1, visit. rewrite Hb. unfold Store.bind, Store.ret.
    rewrite Ha, IH by done. by rewrite <- app_assoc.
Qed.

Lemma pass_length (camZ : Q) (todo : list Group) :
  forall (visited : list Group) (h : Heap),
  length (fst (pass rnd fl camZ visited todo h))
  = (length visited + length todo)%nat.
Proof.
  induction todo as [|segment rest IH]; intros visited h; simpl; [lia|].
  unfold Store.bind at 1.
  destruct (visit rnd fl camZ visited rest segment h) as [s h1].
  rewrite IH, length_app. simpl. lia.
Qed.

End Segments.

(** The running extrema of the pass start from their sentinels: the
    minimum is at most 0 and at most every depth, and it is 0 or a depth of
    the pool; the maximum is at least -999999 and at least every depth, and
    it is -999999 or a depth of the pool.  So for a pool that lies wholly
    in front of depth 0 the minimum is 0, which is no depth of the pool,
    and for a pool wholly beyond -999999 the maximum is -999999. *)
Theorem extrema_sentinels (positions : list Z) :
  (minZ positions <= 0
   /\ Forall (fun z => minZ positions <= z) positions
   /\ (minZ positions = 0 \/ minZ positions ∈ positions)
   /\ (Forall (fun z => 0 < z) positions -> minZ positions = 0))
  /\ (-999999 <= maxZ positions
      /\ Forall (fun z => z <= maxZ positions) positions
      /\ (maxZ positions = -999999 \/ maxZ positions ∈ positions)
      /\ (Forall (fun z => z < -999999) positions -> maxZ positions = -999999)).
Proof.
  unfold minZ, maxZ.
  destruct (foldl_min_spec positions 0) as (A1 & A2 & A3).
  destruct (foldl_max_spec positions (-999999)) as (B1 & B2 & B3).
  repeat split; try done.
  - intros Hpos. destruct A3 as [E|Hin]; [done|].
    rewrite Forall_forall in Hpos. specialize (Hpos _ Hin). lia.
  - intros Hneg. destruct B3 as [E|Hin]; [done|].
    rewrite Forall_forall in Hneg. specialize (Hneg _ Hin). lia.
Qed.

(** The size of the pool, with no condition on the camera: whatever the
    random source, the rounding and the camera depths, also depths in front
    of 0 or beyond -999999, the recycling passes leave as many segments in
    the pool as there were; from the pool the set-up builds, that is 14. *)
Theorem pool_size_constant (rnd : nat -> Q) (fl : Q -> Q) (camZs : list Q)
    (pool : list Group * Heap) :
  length (fst (recycleFrames rnd fl camZs pool)) = length (fst pool)
  /\ length (fst (recycleFrames rnd fl camZs (generateSegments rnd fl heap0)))
     = NUM_SEGMENTS.
Proof.
  assert (forall p, length (fst (recycleFrames rnd fl camZs p)) = length (fst p))
    as Hlen.
  { induction camZs as [|camZ rest IH]; intros p; [done|].
    simpl. rewrite IH. unfold recyclePass. by rewrite pass_length. }
  split; [apply Hlen|]. rewrite Hlen.
  rewrite <- (length_map position_z). fold (depths (fst (generateSegments rnd fl heap0))).
  by rewrite initial_depths.
Qed.

(** A frame in which no segment lies behind the camera or past the far end
    is idle: the pass returns the pool as it was and leaves the store
    untouched; it draws no random number, allocates nothing and disposes
    nothing. *)
Theorem idle_pass (rnd : nat -> Q) (fl : Q -> Q) (camZ : Q)
    (segments : list Group) (h : Heap) :
  Forall (fun z => passedBehind fl camZ z = false
                   /\ passedAhead fl camZ z = false) (depths segments) ->
  recyclePass rnd fl camZ segments h = (segments, h).
Proof. intros Hq. unfold recyclePass. by rewrite pass_idle. Qed.

Lemma idle_pass_witness :
  recyclePass allSlabs Camera.grid (-3 # 2)
              (fst (generateSegments allSlabs Camera.grid heap0))
              (snd (generateSegments allSlabs Camera.grid heap0))
  = (fst (generateSegments allSlabs Camera.grid heap0), snd (generateSegments allSlabs Camera.grid heap0)).
Proof.
  apply (idle_pass allSlabs Camera.grid (-3 # 2)).
  rewrite initial_depths. repeat constructor.
Defined.

(** For a camera depth between -999999 and 0 and a pool at fourteen
    consecutive multiples of 6, the largest of them, [6 * top], between
    -999999 and 0: a pass that finds [k] segments behind the camera and
    [k'] past the far end leaves the pool at the fourteen consecutive
    multiples below [6 * (top - k + k')], which again lies between -999999
    and 0; it never finds both kinds in one frame. *)
Theorem pass_shift (rnd : nat -> Q) (fl : Q -> Q) (camZ : Q)
    (segments : list Group) (h : Heap) (top : Z) :
  Camera.Rounding fl -> (-999999 <= camZ <= 0)%Q ->
  depths segments ≡ₚ run top -> -999999 <= 6 * top <= 0 ->
  let k := length (List.filter (passedBehind fl camZ) (depths segments)) in
  let k' := length (List.filter (passedAhead fl camZ) (depths segments)) in
  let top' := top - Z.of_nat k + Z.of_nat k' in
  depths (fst (recyclePass rnd fl camZ segments h)) ≡ₚ run top'
  /\ -999999 <= 6 * top' <= 0
  /\ (k = O \/ k' = O).
Proof.
  intros Hfl [Hlo Hhi] Hperm Hrange k k' top'.
  destruct (program_tests fl Hfl camZ Hlo Hhi) as (T1 & T2 & T3 & T4 & T5).
  destruct (passDepths_shift _ _ T1 T2 T3 T4 T5 top _ (conj Hperm Hrange))
    as ([Hp Hr] & Hx & _).
  fold k k' top' in Hp, Hr, Hx. rewrite recyclePass_depths.
  split; [exact Hp|]. split; [exact Hr|].
  destruct k as [|n]; [by left|right]. apply Hx. lia.
Qed.

Lemma pass_shift_witness :
  let pool := generateSegments allSlabs Camera.grid heap0 in
  let k := length (List.filter (passedBehind Camera.grid (-20))
                               (depths (fst pool))) in
  let k' := length (List.filter (passedAhead Camera.grid (-20))
                                (depths (fst pool))) in
  let top' := 0 - Z.of_nat k + Z.of_nat k' in
  depths (fst (recyclePass allSlabs Camera.grid (-20) (fst pool) (snd pool)))
  ≡ₚ run top'
  /\ -999999 <= 6 * top' <= 0
  /\ (k = O \/ k' = O).
Proof.
  apply (pass_shift allSlabs Camera.grid (-20) _ _ 0 CameraFacts.Rounding_grid).
  - split; discriminate.
  - by rewrite initial_depths.
  - lia.
Defined.

(** One pass is enough: for a camera depth between -999999 and 0 and a
    pool at fourteen consecutive multiples of 6, the largest of them
    between -999999 and 0, unless every segment lay behind the camera or
    every segment lay past the far end, a second pass at the same camera
    depth changes nothing. *)
Theorem pass_settles (rnd : nat -> Q) (fl : Q -> Q) (camZ : Q)
    (segments : list Group) (h : Heap) (top : Z) :
  Camera.Rounding fl -> (-999999 <= camZ <= 0)%Q ->
  depths segments ≡ₚ run top -> -999999 <= 6 * top <= 0 ->
  Exists (fun z => passedBehind fl camZ z = false) (depths segments) ->
  Exists (fun z => passedAhead fl camZ z = false) (depths segments) ->
  let once := recyclePass rnd fl camZ segments h in
  recyclePass rnd fl camZ (fst once) (snd once) = once.
Proof.
  intros Hfl [Hlo Hhi] Hperm Hrange Hb Ha once.
  destruct (program_tests fl Hfl camZ Hlo Hhi) as (T1 & T2 & T3 & T4 & T5).
  destruct (passDepths_shift _ _ T1 T2 T3 T4 T5 top _ (conj Hperm Hrange))
    as (_ & _ & Hq).
  assert (length (depths segments) = 14%nat) as Hlen
    by (by rewrite (Permutation_length Hperm)).
  apply filter_length_lt in Hb, Ha. rewrite Hlen in Hb, Ha.
  specialize (Hq Hb Ha). rewrite <- (recyclePass_depths rnd fl camZ segments h) in Hq.
  fold once in Hq. unfold recyclePass at 1. rewrite pass_idle by exact Hq.
  by destruct once.
Qed.

Lemma pass_settles_witness :
  let once := recyclePass allSlabs Camera.grid (-20)
                (fst (generateSegments allSlabs Camera.grid heap0))
                (snd (generateSegments allSlabs Camera.grid heap0)) in
  recyclePass allSlabs Camera.grid (-20) (fst once) (snd once) = once.
Proof.
  apply (pass_settles allSlabs Camera.grid (-20) _ _ 0 CameraFacts.Rounding_grid).
  - split; discriminate.
  - by rewrite initial_depths.
  - lia.
  - rewrite initial_depths. do 3 apply Exists_cons_tl. by apply Exists_cons_hd.
  - rewrite initial_depths. by apply Exists_cons_hd.
Defined.

End PoolPass.

(** ** The mounted component: what every reachable state satisfies *)

Module Reachable.
Import Pool Lifecycle Invariants.
Import PlacementFacts LifecycleFacts PlacementBounds PoolFacts PoolPass.

(** *** Theme changes compose *)

Lemma themeChild_last (b b' : bool) (o : Object3D) :
  Theme.themeChild b' (Theme.themeChild b o) = Theme.themeChild b' o.
Proof. by destruct o. Qed.

Lemma themeSegment_last (b b' : bool) (g : Group) :
  Theme.themeSegment b' (Theme.themeSegment b g) = Theme.themeSegment b' g.
Proof.
  unfold Theme.themeSegment; simpl. f_equal.
  rewrite <- list_fmap_compose.
  apply list_fmap_ext; intros i o _. apply themeChild_last.
Qed.

Lemma themeScene_last (b b' : bool) (sc : Scene) :
  Theme.themeScene b' (Theme.themeScene b sc) = Theme.themeScene b' sc.
Proof. unfold Theme.themeScene; simpl. by destruct (fog sc). Qed.

(** The last theme wins: applying a theme flag and then another leaves the
    world that applying the second alone gives; nothing of the first
    palette remains. *)
Theorem theme_last_wins (b b' : bool) (w : World) :
  Theme.applyTheme b' (Theme.applyTheme b w) = Theme.applyTheme b' w.
Proof.
  unfold Theme.applyTheme.
  destruct (sceneRef w) as [sc|] eqn:E; simpl; [|by rewrite E].
  rewrite themeScene_last. f_equal.
  rewrite <- list_fmap_compose.
  apply list_fmap_ext; intros i g _. apply themeSegment_last.
Qed.

(** *** What the events do to lines and slabs *)

Lemma linesOf_themed_palette (b : bool) (g : list Object3D) :
  Forall (palette b) (Theme.linesOf (map (Theme.themeChild b) g))
  /\ length (Theme.linesOf (map (Theme.themeChild b) g))
     = length (Theme.linesOf g).
Proof.
  induction g as [|[id mat|name s] g [IH1 IH2]]; simpl; [done| |done].
  split; [by constructor|by rewrite IH2].
Qed.

Lemma filledCells_themed (b : bool) (face : Face) (g : list Object3D) :
  filledCells face (map (Theme.themeChild b) g) = filledCells face g.
Proof. unfold filledCells. by rewrite ThemeFacts.slabsOf_themed. Qed.

Lemma linesOf_loaded (id : nat) (g : list Object3D) :
  Theme.linesOf (map (loadSlab id) g) = Theme.linesOf g.
Proof.
  induction g as [|[i mat|name s] g IH]; simpl; [done|by rewrite IH|].
  by destruct (slab_id s =? id).
Qed.

(** The load callback on the slab itself. *)
Lemma slabsOf_loaded (id : nat) (g : list Object3D) :
  Forall2 (fun s' s => slab_face s' = slab_face s
                       /\ slab_cell s' = slab_cell s
                       /\ (s' = s \/ (slab_map s' = true
                                      /\ slab_opacity s' = (85 # 100)%Q)))
          (slabsOf (map (loadSlab id) g)) (slabsOf g).
Proof.
  induction g as [|[i mat|name s] g IH]; simpl; [constructor|done|].
  destruct (slab_id s =? id); simpl; constructor; auto.
Qed.

Lemma filledCells_loaded (id : nat) (face : Face) (g : list Object3D) :
  filledCells face (map (loadSlab id) g) = filledCells face g.
Proof.
  unfold filledCells.
  induction (slabsOf_loaded id g) as [|s' s l' l (Hf & Hc & _) _ IH]; [done|].
  simpl. rewrite Hf. case_bool_decide; simpl; by rewrite ?Hc, IH.
Qed.

Lemma slabOK_loaded (id : nat) (g : list Object3D) :
  Forall slabOK (slabsOf g) -> Forall slabOK (slabsOf (map (loadSlab id) g)).
Proof.
  intros Hok.
  induction (slabsOf_loaded id g) as [|s' s l' l (Hf & Hc & Hs) _ IH];
    [constructor|].
  inversion Hok as [|? ? [H1 H2] Hrest]; subst.
  constructor; [|by apply IH].
  destruct Hs as [->|[Hm Ho]]; [done|].
  unfold slabOK. by rewrite Hf, Hc, Hm, Ho.
Qed.

Lemma filledCells_lines (face : Face) (g : list Object3D) :
  filledCells face (List.filter (fun o => negb (isMesh o)) g) = [].
Proof. unfold filledCells. by rewrite slabsOf_lines. Qed.

Lemma contentOK_added (rnd : nat -> Q) (fl : Q -> Q) (lines new : list Object3D) :
  slabsOf lines = [] ->
  (forall face, Placement.Gated (-999) (filledCells face new)) ->
  Forall (fun o => exists face,
            addedSlab rnd fl face (seq 0 (Placement.faceCells face)) o) new ->
  Forall slabOK (slabsOf (lines ++ new))
  /\ forall face, Placement.Gated (-999) (filledCells face (lines ++ new)).
Proof.
  intros Hl Hg Ha. apply added_slabs in Ha as (_ & Hok & _).
  split.
  - by rewrite slabsOf_app, Hl.
  - intros face. rewrite filledCells_app.
    unfold filledCells at 1. rewrite Hl. apply Hg.
Qed.

Section WithSources.
Variable rnd : nat -> Q.
Variable fl : Q -> Q.

(** *** Recycling a segment *)

Lemma repopulate_shape (z : Z) (segment segment' : Group) (h h' : Heap) :
  Forall wellNamed (children segment) ->
  NoDup (map objId (children segment)) ->
  repopulate rnd fl z segment h = (segment', h') ->
  exists new,
    children segment'
    = List.filter (fun o => negb (isMesh o)) (children segment) ++ new
    /\ (forall face, Placement.Gated (-999) (filledCells face new))
    /\ Forall (fun o => exists face,
                 addedSlab rnd fl face (seq 0 (Placement.faceCells face)) o) new.
Proof.
  intros Hn Hd E. unfold repopulate in E.
  apply bind_inv in E as (g1 & h1 & Es & E).
  apply bind_inv in E as (g2 & h2 & Ep & E). injection E as <- <-. simpl.
  apply sweep_spec in Es as (-> & _ & _ & _); [|done..].
  pose proof (populateImages_spec _ _ _ _ _ _ Ep) as (new & -> & Hg & _).
  apply populateImages_added in Ep as (new' & E' & Ha).
  apply app_inv_head in E' as <-. by exists new.
Qed.

Lemma createSegment_shape (z : Z) (segment : Group) (h h' : Heap) :
  Placement.createSegment rnd fl z h = (segment, h') ->
  exists id new,
    children segment
    = [LineSegments id (mkLineMaterial 0xb0b0b0 true (1 # 2) false)] ++ new
    /\ (forall face, Placement.Gated (-999) (filledCells face new))
    /\ Forall (fun o => exists face,
                 addedSlab rnd fl face (seq 0 (Placement.faceCells face)) o) new.
Proof.
  unfold Placement.createSegment. intros E.
  apply bind_inv in E as (id & h1 & [= <- <-] & E).
  apply bind_inv in E as (u1 & h2 & [= <- <-] & E).
  apply bind_inv in E as (u2 & h3 & [= <- <-] & E).
  apply bind_inv in E as (g & h4 & Ep & [= <- <-]).
  pose proof (populateImages_spec _ _ _ _ _ _ Ep) as (new & -> & Hg & _).
  apply populateImages_added in Ep as (new' & E' & Ha).
  apply app_inv_head in E' as <-. by exists (nextId h), new.
Qed.

(** Recycling leaves the lines of a segment as they are. *)
Lemma repopulate_lines (z : Z) (segment segment' : Group) (h h' : Heap) :
  Forall wellNamed (children segment) ->
  NoDup (map objId (children segment)) ->
  repopulate rnd fl z segment h = (segment', h') ->
  Theme.linesOf (children segment') = Theme.linesOf (children segment).
Proof.
  intros Hn Hd E.
  apply repopulate_shape in E as (new & -> & _ & Ha); [|done..].
  apply added_slabs in Ha as (Hl & _).
  by rewrite linesOf_app, Hl, app_nil_r, linesOf_lines.
Qed.

Lemma repopulate_content (z : Z) (segment segment' : Group) (h h' : Heap) :
  Forall wellNamed (children segment) ->
  NoDup (map objId (children segment)) ->
  repopulate rnd fl z segment h = (segment', h') ->
  contentOK segment'.
Proof.
  intros Hn Hd E.
  apply repopulate_shape in E as (new & E & Hg & Ha); [|done..].
  unfold contentOK. rewrite E.
  apply (contentOK_added rnd fl); [apply slabsOf_lines|done..].
Qed.

(** *** Properties of the segments that a pass keeps *)

Section Preserved.
Variable P : Group -> Prop.
Hypothesis P_repopulate :
  forall z segment segment' h h',
  Forall wellNamed (children segment) ->
  NoDup (map objId (children segment)) ->
  P segment -> repopulate rnd fl z segment h = (segment', h') -> P segment'.

Lemma visit_pres (camZ : Q) (visited rest : list Group)
    (segment segment' : Group) (h h' : Heap) :
  ObjInv (objects (visited ++ segment :: rest)) h -> P segment ->
  visit rnd fl camZ visited rest segment h = (segment', h') -> P segment'.
Proof using P_repopulate.
  rewrite !objects_app, !objects_cons. intros Hinv Hp E. unfold visit in E.
  apply bind_inv in E as (s1 & h1 & E1 & E2).
  assert (ObjInv (objects visited ++ children s1 ++ objects rest) h1 /\ P s1)
    as [Hinv1 Hp1].
  { destruct (passedBehind fl camZ (position_z segment)).
    - split; [by eapply repopulate_inv|].
      destruct (ObjInv_part _ _ _ _ Hinv) as [Hn Hd].
      by eapply P_repopulate.
    - by injection E1 as <- <-. }
  destruct (passedAhead fl camZ (position_z s1)).
  - destruct (ObjInv_part _ _ _ _ Hinv1) as [Hn Hd]. by eapply P_repopulate.
  - by injection E2 as <- <-.
Qed.

Lemma pass_pres (camZ : Q) (todo : list Group) :
  forall (visited segments' : list Group) (h h' : Heap),
  ObjInv (objects (visited ++ todo)) h -> Forall P (visited ++ todo) ->
  pass rnd fl camZ visited todo h = (segments', h') ->
  Forall P segments'.
Proof using P_repopulate.
  induction todo as [|segment rest IH]; intros visited segments' h h' Hinv Hp E.
  - injection E as <- <-. by rewrite app_nil_r in Hp.
  - simpl in E. apply bind_inv in E as (s & h1 & Ev & E).
    eapply IH; [| |exact E]; rewrite <- app_assoc; simpl.
    + by eapply visit_inv.
    + apply Forall_app in Hp as [Hv Ht]. inversion Ht; subst.
      apply Forall_app. split; [done|]. constructor; [|done].
      by eapply visit_pres.
Qed.

Lemma animate_pres (w : World) :
  WorldInv w -> Forall P (segmentsRef w) ->
  Forall P (segmentsRef (animate rnd fl w)).
Proof using P_repopulate.
  unfold WorldInv, animate. intros Hinv Hp.
  destruct (sceneRef w); [|done].
  destruct (recyclePass rnd fl _ (segmentsRef w) (heap w)) as [segments h] eqn:E.
  simpl. eapply (pass_pres _ _ []); [exact Hinv|exact Hp|exact E].
Qed.

Hypothesis P_create :
  forall z segment h h',
  Placement.createSegment rnd fl z h = (segment, h') -> P segment.

Lemma generate_pres (indices : list nat) :
  forall (segments segments' : list Group) (h h' : Heap),
  Forall P segments ->
  generate rnd fl indices segments h = (segments', h') ->
  Forall P segments'.
Proof using P_create.
  induction indices as [|i rest IH]; intros segments segments' h h' Hp E.
  - by injection E as <- <-.
  - simpl in E. apply bind_inv in E as (s & h1 & Ec & E).
    eapply IH; [|exact E]. apply Forall_app. split; [done|].
    constructor; [by eapply P_create|constructor].
Qed.

End Preserved.

(** *** The set-up *)

(** The world the set-up effect has built before the first call of
    [animate], and what the rest of the effect makes of it. *)
Lemma setup_unfold :
  exists segments h,
    generateSegments rnd fl heap0 = (segments, h)
    /\ let w0 := mkWorld (Some (mkScene None None)) 0 0 segments h
                         false false false in
       segmentsRef (setup rnd fl) = segmentsRef (animate rnd fl w0)
       /\ heap (setup rnd fl) = heap (animate rnd fl w0)
       /\ cameraZ (setup rnd fl) = cameraZ (animate rnd fl w0)
       /\ scrollPosRef (setup rnd fl) = scrollPosRef (animate rnd fl w0)
       /\ sceneRef (setup rnd fl) = sceneRef (animate rnd fl w0)
       /\ WorldInv w0.
Proof.
  unfold setup.
  destruct (generateSegments rnd fl heap0) as [segments h] eqn:E.
  exists segments, h. split; [done|]. cbv zeta. do 5 (split; [done|]).
  unfold WorldInv; simpl. eapply generate_inv; [|exact E]. apply heap0_inv.
Qed.

Lemma animate_scene (w : World) : sceneRef (animate rnd fl w) = sceneRef w.
Proof.
  unfold animate. destruct (sceneRef w) eqn:E; [|done].
  by destruct (recyclePass rnd fl _ _ _).
Qed.

Lemma animate_scroll (w : World) :
  scrollPosRef (animate rnd fl w) = scrollPosRef w.
Proof.
  unfold animate. destruct (sceneRef w) eqn:E; [|done].
  by destruct (recyclePass rnd fl _ _ _).
Qed.

Lemma animate_length (w : World) :
  length (segmentsRef (animate rnd fl w)) = length (segmentsRef w).
Proof.
  unfold animate. destruct (sceneRef w); [|done].
  pose proof (pass_length rnd fl (Camera.frameDepth fl (cameraZ w) (scrollPosRef w))
                          (segmentsRef w) [] (heap w)) as Hl.
  unfold recyclePass.
  destruct (pass rnd fl _ [] (segmentsRef w) (heap w)) as [segments h].
  exact Hl.
Qed.

Lemma setup_scene : exists scene, sceneRef (setup rnd fl) = Some scene.
Proof.
  destruct setup_unfold as (segments & h & _ & _ & _ & _ & _ & Hs & _).
  rewrite animate_scene in Hs. simpl in Hs. eauto.
Qed.

Lemma mount_scene (isDarkMode : bool) :
  exists scene, sceneRef (mount rnd fl isDarkMode) = Some scene.
Proof.
  unfold mount, Theme.applyTheme. destruct setup_scene as [scene ->]. simpl. eauto.
Qed.

Lemma step_scene (w : World) (e : Event) :
  (exists scene, sceneRef w = Some scene) ->
  exists scene, sceneRef (step rnd fl w e) = Some scene.
Proof.
  intros [scene Hs]. destruct e as [|y|id|b]; simpl.
  - destruct (frameId w); [|eauto]. rewrite animate_scene. eauto.
  - destruct (scrollListener w); eauto.
  - unfold textureLoaded. destruct (attached id (segmentsRef w)); eauto.
  - unfold Theme.applyTheme. rewrite Hs. simpl. eauto.
Qed.

(** *** The shape of the pool *)

Lemma oneWireframe_repopulate z segment segment' h h' :
  Forall wellNamed (children segment) ->
  NoDup (map objId (children segment)) ->
  oneWireframe segment -> repopulate rnd fl z segment h = (segment', h') ->
  oneWireframe segment'.
Proof.
  intros Hn Hd Hp E. unfold oneWireframe in *.
  by rewrite (repopulate_lines _ _ _ _ _ Hn Hd E).
Qed.

Lemma contentOK_repopulate z segment segment' h h' :
  Forall wellNamed (children segment) ->
  NoDup (map objId (children segment)) ->
  contentOK segment -> repopulate rnd fl z segment h = (segment', h') ->
  contentOK segment'.
Proof. intros Hn Hd _ E. by eapply repopulate_content. Qed.

Lemma createSegment_wireframe z segment h h' :
  Placement.createSegment rnd fl z h = (segment, h') -> oneWireframe segment.
Proof.
  intros E. apply createSegment_shape in E as (id & new & E & _ & Ha).
  apply added_slabs in Ha as (Hl & _).
  unfold oneWireframe. by rewrite E, linesOf_app, Hl.
Qed.

Lemma createSegment_content z segment h h' :
  Placement.createSegment rnd fl z h = (segment, h') -> contentOK segment.
Proof.
  intros E. apply createSegment_shape in E as (id & new & E & Hg & Ha).
  unfold contentOK. rewrite E. by apply (contentOK_added rnd fl).
Qed.

Lemma Shape_animate (w : World) :
  WorldInv w -> Shape w -> Shape (animate rnd fl w).
Proof.
  intros Hinv (Hlen & Hw & Hc). split; [|split].
  - by rewrite animate_length.
  - apply animate_pres; try done. apply oneWireframe_repopulate.
  - apply animate_pres; try done. apply contentOK_repopulate.
Qed.

Lemma Shape_theme (b : bool) (w : World) : Shape w -> Shape (Theme.applyTheme b w).
Proof.
  intros (Hlen & Hw & Hc). unfold Shape, Theme.applyTheme.
  destruct (sceneRef w); [|done]. simpl. split; [|split].
  - by rewrite length_map.
  - apply Forall_fmap. eapply Forall_impl; [exact Hw|].
    intros g Hg. unfold oneWireframe in *. simpl.
    by rewrite (proj2 (linesOf_themed_palette b (children g))).
  - apply Forall_fmap. eapply Forall_impl; [exact Hc|].
    intros g [Hok Hg]. unfold contentOK. simpl.
    rewrite ThemeFacts.slabsOf_themed. split; [done|].
    intros face. by rewrite filledCells_themed.
Qed.

Lemma Shape_loaded (id : nat) (w : World) : Shape w -> Shape (textureLoaded id w).
Proof.
  intros (Hlen & Hw & Hc). unfold Shape, textureLoaded.
  destruct (attached id (segmentsRef w)); [|done]. simpl. split; [|split].
  - by rewrite length_map.
  - apply Forall_fmap. eapply Forall_impl; [exact Hw|].
    intros g Hg. unfold oneWireframe in *. simpl. by rewrite linesOf_loaded.
  - apply Forall_fmap. eapply Forall_impl; [exact Hc|].
    intros g [Hok Hg]. unfold contentOK. simpl.
    split; [by apply slabOK_loaded|].
    intros face. by rewrite filledCells_loaded.
Qed.

Lemma Shape_step (w : World) (e : Event) :
  WorldInv w -> Shape w -> Shape (step rnd fl w e).
Proof.
  intros Hinv Hs. destruct e as [|y|id|b]; simpl.
  - destruct (frameId w); [by apply Shape_animate|done].
  - by destruct (scrollListener w).
  - by apply Shape_loaded.
  - by apply Shape_theme.
Qed.

Lemma Shape_setup : Shape (setup rnd fl).
Proof.
  destruct setup_unfold as (segments & h & E & Hseg & _ & _ & _ & _ & Hinv).
  unfold Shape. rewrite Hseg. apply Shape_animate; [done|].
  unfold Shape; simpl. split; [|split].
  - rewrite <- (length_map position_z).
    change segments with (fst (segments, h)). rewrite <- E.
    fold (depths (fst (generateSegments rnd fl heap0))). by rewrite initial_depths.
  - eapply (generate_pres oneWireframe createSegment_wireframe); [|exact E].
    constructor.
  - eapply (generate_pres contentOK createSegment_content); [|exact E].
    constructor.
Qed.

Lemma Shape_runEvents (events : list Event) :
  forall w, WorldInv w -> Shape w -> Shape (runEvents rnd fl w events).
Proof.
  induction events as [|e events IH]; intros w Hinv Hs; [done|].
  simpl. apply IH; [by apply step_inv|by apply Shape_step].
Qed.

Lemma reachable_shape (isDarkMode : bool) (events : list Event) :
  Shape (runEvents rnd fl (mount rnd fl isDarkMode) events).
Proof.
  apply Shape_runEvents; [apply applyTheme_inv, setup_inv|].
  apply Shape_theme, Shape_setup.
Qed.

(** *** The palette of the lines *)

Lemma themed_repopulate (b : bool) z segment segment' h h' :
  Forall wellNamed (children segment) ->
  NoDup (map objId (children segment)) ->
  themed b segment -> repopulate rnd fl z segment h = (segment', h') ->
  themed b segment'.
Proof.
  intros Hn Hd Hp E. unfold themed in *.
  by rewrite (repopulate_lines _ _ _ _ _ Hn Hd E).
Qed.

Lemma themed_applied (b : bool) (w : World) :
  (exists scene, sceneRef w = Some scene) ->
  Forall (themed b) (segmentsRef (Theme.applyTheme b w)).
Proof.
  intros [scene Hs]. unfold Theme.applyTheme. rewrite Hs. simpl.
  apply Forall_fmap, Forall_forall. intros g _. unfold themed. simpl.
  apply linesOf_themed_palette.
Qed.

Lemma themed_step (b : bool) (w : World) (e : Event) :
  WorldInv w -> (exists scene, sceneRef w = Some scene) ->
  Forall (themed b) (segmentsRef w) ->
  Forall (themed (lastTheme b [e])) (segmentsRef (step rnd fl w e)).
Proof.
  intros Hinv Hs Ht. destruct e as [|y|id|b']; simpl.
  - destruct (frameId w); [|done].
    apply animate_pres; try done. apply themed_repopulate.
  - by destruct (scrollListener w).
  - unfold textureLoaded. destruct (attached id (segmentsRef w)); [|done].
    simpl. apply Forall_fmap. eapply Forall_impl; [exact Ht|].
    intros g Hg. unfold themed in *. simpl. by rewrite linesOf_loaded.
  - by apply themed_applied.
Qed.

Lemma themed_runEvents (events : list Event) :
  forall (b : bool) (w : World),
  WorldInv w -> (exists scene, sceneRef w = Some scene) ->
  Forall (themed b) (segmentsRef w) ->
  Forall (themed (lastTheme b events)) (segmentsRef (runEvents rnd fl w events)).
Proof.
  induction events as [|e events IH]; intros b w Hinv Hs Ht; [done|].
  simpl. apply IH; [by apply step_inv|by apply step_scene|].
  by apply themed_step.
Qed.

(** *** The camera and the pool under scrolling *)

Lemma depths_mapped (f : list Object3D -> list Object3D) (segments : list Group) :
  depths (map (fun g => mkGroup (position_z g) (f (children g))) segments)
  = depths segments.
Proof. unfold depths. rewrite map_map. by apply map_ext. Qed.

Lemma Tracking_animate (w : World) :
  Camera.Rounding fl -> Camera.Nearest fl ->
  Tracking fl w -> Tracking fl (animate rnd fl w).
Proof.
  intros Hfl Hnear Ht. pose proof Ht as ((top & Hp) & Hc & Hrep & Hs).
  unfold animate. destruct (sceneRef w); [|exact Ht].
  pose proof (CameraBounds.frameDepth_range fl Hfl Hnear _ _ Hrep Hc Hs) as [Hlo Hhi].
  set (camZ := Camera.frameDepth fl (cameraZ w) (scrollPosRef w)) in *.
  destruct (program_tests fl Hfl camZ Hlo Hhi) as (T1 & T2 & T3 & T4 & T5).
  destruct (passDepths_PoolInv _ _ T1 T2 T3 T4 T5 top _ Hp) as (top1 & Hp1).
  rewrite <- recyclePass_depths with (rnd := rnd) (h := heap w) in Hp1.
  destruct (recyclePass rnd fl camZ (segmentsRef w) (heap w)) as [segments h].
  simpl in Hp1. repeat split; simpl; try done; try apply Hs.
  - by exists top1.
  - apply CameraBounds.cameraStep_idem, Hfl.
Qed.

Lemma Tracking_step (w : World) (e : Event) :
  Camera.Rounding fl -> Camera.Nearest fl -> scrollWithin e ->
  Tracking fl w -> Tracking fl (step rnd fl w e).
Proof.
  intros Hfl Hnear He Ht. destruct e as [|y|id|b]; simpl.
  - destruct (frameId w); [by apply Tracking_animate|done].
  - destruct (scrollListener w); [|done].
    destruct Ht as (Hp & Hc & Hrep & _). unfold Tracking; simpl.
    do 3 (split; [done|]). exact He.
  - unfold textureLoaded. destruct (attached id (segmentsRef w)); [|done].
    destruct Ht as (Hp & Hc & Hrep & Hs).
    unfold Tracking; simpl. by rewrite (depths_mapped (map (loadSlab id))).
  - unfold Theme.applyTheme. destruct (sceneRef w); [|done].
    destruct Ht as (Hp & Hc & Hrep & Hs).
    unfold Tracking, Theme.themeSegment; simpl.
    by rewrite (depths_mapped (map (Theme.themeChild b))).
Qed.

Lemma Tracking_mount (isDarkMode : bool) :
  Camera.Rounding fl -> Camera.Nearest fl ->
  Tracking fl (mount rnd fl isDarkMode).
Proof.
  intros Hfl Hnear.
  destruct setup_unfold as (segments & h & E & Hseg & _ & Hcam & Hscr & Hsc & _).
  assert (Tracking fl (setup rnd fl)) as Ht.
  { unfold Tracking. rewrite Hseg, Hcam, Hscr.
    apply Tracking_animate; try done. unfold Tracking; simpl.
    split; [|split; [|split]].
    - exists 0%Z. split; [|lia].
      change segments with (fst (segments, h)). rewrite <- E.
      by rewrite initial_depths.
    - split; discriminate.
    - by apply CameraFacts.fl_zero.
    - split; discriminate. }
  apply (Tracking_step (setup rnd fl) (ThemeChange isDarkMode)); done.
Qed.

Lemma Tracking_runEvents (events : list Event) :
  Camera.Rounding fl -> Camera.Nearest fl -> Forall scrollWithin events ->
  forall w, Tracking fl w -> Tracking fl (runEvents rnd fl w events).
Proof.
  intros Hfl Hnear. induction 1 as [|e events He _ IH]; intros w Ht; [done|].
  simpl. by apply IH, Tracking_step.
Qed.

End WithSources.

(** *** The size of the store *)

Lemma size_union_le (X Y : gset Resource) : size (X ∪ Y) <= size X + size Y.
Proof.
  rewrite size_union_alt.
  assert (Y ∖ X ⊆ Y) as Hsub.
  { intros x Hx. by apply elem_of_difference in Hx as [Hx' _]. }
  apply subseteq_size in Hsub. lia.
Qed.

Lemma size_resourcesOf (o : Object3D) :
  size (resourcesOf o)
  <= 2 * length (Theme.linesOf [o]) + 3 * length (slabsOf [o]).
Proof.
  destruct o as [id mat|name s].
  - change (size ({[ LineGeometry id ]} ∪ {[ LineMaterial id ]} : gset Resource)
            <= 2 * 1 + 3 * 0).
    etrans; [apply size_union_le|]. rewrite !size_singleton. lia.
  - change (size (({[ SlabGeometry (slab_id s) ]} ∪ {[ SlabMaterial (slab_id s) ]})
                  ∪ (if slab_map s then {[ SlabTexture (slab_id s) ]} else ∅)
                  : gset Resource)
            <= 2 * 0 + 3 * 1).
    etrans; [apply size_union_le|].
    etrans; [apply Nat.add_le_mono; [apply size_union_le|reflexivity]|].
    rewrite !size_singleton.
    destruct (slab_map s); rewrite ?size_singleton, ?size_empty; lia.
Qed.

Lemma size_resources (g : list Object3D) :
  size (⋃ (map resourcesOf g))
  <= 2 * length (Theme.linesOf g) + 3 * length (slabsOf g).
Proof.
  induction g as [|o g IH].
  - change (size (∅ : gset Resource) <= 2 * 0 + 3 * 0). by rewrite size_empty.
  - change (size (resourcesOf o ∪ ⋃ (map resourcesOf g))
            <= 2 * length (Theme.linesOf ([o] ++ g))
               + 3 * length (slabsOf ([o] ++ g))).
    etrans; [apply size_union_le|].
    pose proof (size_resourcesOf o) as Ho.
    rewrite linesOf_app, slabsOf_app, !length_app. lia.
Qed.

Lemma size_objects (segments : list Group) :
  Forall oneWireframe segments -> Forall contentOK segments ->
  size (⋃ (map resourcesOf (objects segments))) <= 32 * length segments.
Proof.
  intros Hw. induction Hw as [|g l Hg _ IH]; intros Hc.
  - change (size (∅ : gset Resource) <= 32 * 0). by rewrite size_empty.
  - inversion Hc as [|? ? [Hok Hgate] Hrest]; subst.
    rewrite objects_cons, map_app, union_list_app_L.
    etrans; [apply size_union_le|].
    pose proof (size_resources (children g)) as Hs.
    pose proof (gated_counts (children g) Hok Hgate) as (_ & _ & _ & _ & H10).
    unfold oneWireframe in Hg. specialize (IH Hrest). simpl length. lia.
Qed.

Lemma WorldInv_size (w : World) :
  WorldInv w -> Shape w -> size (live (heap w)) <= 449.
Proof.
  intros [_ _ _ L] (Hlen & Hw & Hc).
  assert (live (heap w) ⊆ {[ Renderer ]} ∪ ⋃ (map resourcesOf (objects (segmentsRef w))))
    as Hsub.
  { intros r Hr. apply elem_of_union.
    destruct (proj1 (L r) Hr) as [->|Ho]; [left; by apply elem_of_singleton|].
    right. by apply elem_of_resources. }
  etrans; [by apply subseteq_size|].
  etrans; [apply size_union_le|]. rewrite size_singleton.
  pose proof (size_objects _ Hw Hc). rewrite Hlen in *. unfold NUM_SEGMENTS in *.
  lia.
Qed.

(** *** Theorems *)

(** Whatever the random source, the rounding, the theme and the events
    that follow the mount (frames with their recycling at any camera depth,
    scrolls, loads that resolve, theme changes), the pool holds 14
    segments and each of them holds exactly one wireframe: recycling and
    loading never add, remove or replace a wireframe. *)
Theorem pool_structure (rnd : nat -> Q) (fl : Q -> Q) (isDarkMode : bool)
    (events : list Event) :
  let w := runEvents rnd fl (mount rnd fl isDarkMode) events in
  length (segmentsRef w) = NUM_SEGMENTS
  /\ Forall (fun segment => length (Theme.linesOf (children segment)) = 1)
            (segmentsRef w)
  /\ length (Theme.lineMaterials w) = NUM_SEGMENTS.
Proof.
  intros w. destruct (reachable_shape rnd fl isDarkMode events) as (Hlen & Hw & _).
  fold w in Hlen, Hw. split; [done|]. split; [exact Hw|].
  unfold Theme.lineMaterials. rewrite <- Hlen.
  clear Hlen. induction Hw as [|g l Hg _ IH]; [done|].
  simpl. rewrite length_app, IH. unfold oneWireframe in Hg. lia.
Qed.

(** The theme persists: after any events, every wireframe of the pool
    shows the line colour and opacity of the last theme change (of the
    theme the component was mounted with when there was none), also on
    the segments recycled since. *)
Theorem theme_persists (rnd : nat -> Q) (fl : Q -> Q) (isDarkMode : bool)
    (events : list Event) :
  let w := runEvents rnd fl (mount rnd fl isDarkMode) events in
  let b := lastTheme isDarkMode events in
  Forall (fun m => color m = Theme.lineHex b /\ opacity m = Theme.lineOp b)
         (Theme.lineMaterials w).
Proof.
  intros w b.
  assert (Forall (themed b) (segmentsRef w)) as Ht.
  { apply themed_runEvents.
    - apply applyTheme_inv, setup_inv.
    - apply mount_scene.
    - apply themed_applied, setup_scene. }
  unfold Theme.lineMaterials.
  induction Ht as [|g l Hg _ IH]; [constructor|].
  simpl. by apply Forall_app.
Qed.

(** In every state the mounted component reaches, every slab sits in a
    cell of its face, and has opacity 0 as long as its texture is not set
    and opacity 0.85 once it is; so no slab shows before its image has
    loaded. *)
Theorem slabs_hidden_until_loaded (rnd : nat -> Q) (fl : Q -> Q)
    (isDarkMode : bool) (events : list Event) :
  let w := runEvents rnd fl (mount rnd fl isDarkMode) events in
  Forall (fun s => slab_cell s < Placement.faceCells (slab_face s)
                   /\ slab_opacity s = (if slab_map s then 85 # 100 else 0)%Q)
         (Theme.slabs w).
Proof.
  intros w. destruct (reachable_shape rnd fl isDarkMode events) as (_ & _ & Hc).
  fold w in Hc. unfold Theme.slabs.
  induction Hc as [|g l [Hg _] _ IH]; [constructor|].
  simpl. by apply Forall_app.
Qed.

(** The adjacency law holds of every state the mounted component reaches,
    not only of what one run of the placement adds: on each face of each
    segment the filled cells each lie more than one cell after the one
    filled before, so no two are neighbours, and a segment holds at most
    ten slabs. *)
Theorem no_adjacent_slabs_ever (rnd : nat -> Q) (fl : Q -> Q)
    (isDarkMode : bool) (events : list Event) :
  let w := runEvents rnd fl (mount rnd fl isDarkMode) events in
  Forall (fun segment =>
            (forall face,
               Placement.Gated (-999) (filledCells face (children segment))
               /\ forall i j, In i (filledCells face (children segment)) ->
                              In j (filledCells face (children segment)) ->
                              i <> S j)
            /\ length (slabsOf (children segment)) <= 10)
         (segmentsRef w).
Proof.
  intros w. destruct (reachable_shape rnd fl isDarkMode events) as (_ & _ & Hc).
  fold w in Hc. eapply Forall_impl; [exact Hc|].
  intros g [Hok Hg]. split.
  - intros face. split; [apply Hg|]. eapply Gated_no_neighbours, Hg.
  - by apply gated_counts.
Qed.

(** Recycled content is new content: in every state the mounted component
    reaches, recycling any segment of the pool to any depth leaves it at
    that depth with its wireframe and with slabs that all are without
    texture and invisible; no slab it held before stays, loaded or not. *)
Theorem recycled_content_is_fresh (rnd : nat -> Q) (fl : Q -> Q)
    (isDarkMode : bool) (events : list Event) :
  let w := runEvents rnd fl (mount rnd fl isDarkMode) events in
  Forall (fun segment => forall (z : Z) (h : Heap),
            let recycled := fst (repopulate rnd fl z segment h) in
            position_z recycled = z
            /\ Theme.linesOf (children recycled)
               = Theme.linesOf (children segment)
            /\ Forall (fun s => slab_map s = false /\ slab_opacity s = 0%Q
                                /\ nextId h <= slab_id s)
                      (slabsOf (children recycled)))
         (segmentsRef w).
Proof.
  intros w. pose proof (reachable_inv rnd fl isDarkMode events) as Hinv.
  fold w in Hinv. apply Forall_forall. intros segment Hin z h.
  destruct (WorldInv_segment w segment Hinv Hin) as [Hn Hd].
  destruct (repopulate rnd fl z segment h) as [recycled h'] eqn:E. cbv zeta. simpl.
  split; [|split].
  - pose proof (repopulate_depth rnd fl z segment h) as Hz. by rewrite E in Hz.
  - by eapply repopulate_lines.
  - pose proof E as E'. unfold repopulate in E'.
    apply bind_inv in E' as (g1 & h1 & Es & E').
    apply bind_inv in E' as (g2 & h2 & Ep & E'). injection E' as <- <-. simpl.
    apply sweep_spec in Es as (-> & _ & Hnext & _); [|done..].
    pose proof (populateImages_spec _ _ _ _ _ _ Ep) as (new & -> & _ & Hp).
    apply populateImages_added in Ep as (new' & E' & Ha).
    apply app_inv_head in E' as <-.
    rewrite slabsOf_app, slabsOf_lines, app_nil_l.
    apply added_slabs in Ha as (_ & _ & Hs).
    destruct Hp as [Hids _ _ _]. rewrite Hnext in Hids.
    apply Forall_forall. intros s Hs'.
    rewrite Forall_forall in Hs. destruct (Hs s Hs') as (Hm & Ho & _).
    repeat split; try done.
    assert (slab_id s ∈ map objId new) as Hid.
    { apply list_elem_of_In in Hs'. unfold slabsOf in Hs'.
      apply in_flat_map in Hs' as (o & Ho' & Hso).
      destruct o as [i mat|name s']; [done|]. destruct Hso as [->|[]].
      apply list_elem_of_In, in_map_iff. by exists (Mesh name s). }
    rewrite Hids in Hid. apply elem_of_seq in Hid. lia.
Qed.

(** The store stays bounded: in every state the mounted component reaches
    at most 449 resources are live (the renderer, the geometry and the
    material of 14 wireframes, and geometry, material and texture of at
    most ten slabs on each of the 14 segments), however long it runs. *)
Theorem bounded_store (rnd : nat -> Q) (fl : Q -> Q) (isDarkMode : bool)
    (events : list Event) :
  size (live (heap (runEvents rnd fl (mount rnd fl isDarkMode) events))) <= 449.
Proof.
  apply WorldInv_size; [apply reachable_inv|apply reachable_shape].
Qed.

(** The camera and the pool of the mounted component: under any monotone rounding to
    nearest, as long as every scroll offset lies between 0 and 9999990,
    after any events the camera depth lies between -999999 and 0 and the
    pool holds 14 segments at 14 consecutive multiples of 6. *)
Theorem pool_follows_scroll (rnd : nat -> Q) (fl : Q -> Q) (isDarkMode : bool)
    (events : list Event) :
  Camera.Rounding fl -> Camera.Nearest fl ->
  Forall scrollWithin events ->
  let w := runEvents rnd fl (mount rnd fl isDarkMode) events in
  (-999999 <= cameraZ w <= 0)%Q
  /\ length (segmentsRef w) = NUM_SEGMENTS
  /\ consecutive (depths (segmentsRef w)).
Proof.
  intros Hfl Hnear He w.
  destruct (Tracking_runEvents rnd fl events Hfl Hnear He _
              (Tracking_mount rnd fl isDarkMode Hfl Hnear))
    as ((top & Hp & _) & Hc & _).
  fold w in Hp, Hc. split; [done|]. split; [|by exists top].
  apply Permutation_length in Hp. unfold depths in Hp.
  by rewrite length_map in Hp.
Qed.

Lemma pool_follows_scroll_witness :
  let w := runEvents allSlabs Camera.nearest (mount allSlabs Camera.nearest false)
             [ScrollTo 2000; Tick; Tick; ThemeChange true; TextureLoaded 1;
              Tick; ScrollTo 0; Tick] in
  (-999999 <= cameraZ w <= 0)%Q
  /\ length (segmentsRef w) = NUM_SEGMENTS
  /\ consecutive (depths (segmentsRef w)).
Proof.
  apply (pool_follows_scroll allSlabs Camera.nearest false
           [ScrollTo 2000; Tick; Tick; ThemeChange true; TextureLoaded 1;
            Tick; ScrollTo 0; Tick]
           CameraBounds.Rounding_nearest CameraBounds.Nearest_nearest).
  repeat constructor; discriminate.
Defined.

End Reachable.

(** ** The wireframe stays in the box of its segment *)

Module GridBounds.
Import Geometry Invariants NumFacts GeometryFacts.
Local Open Scope Q_scope.

Section Builder.
Variables (width height depth : Q) (floorCols wallRows : nat).
Hypothesis Hwidth : 0 < width.
Hypothesis Hheight : 0 < height.
Hypothesis Hdepth : 0 < depth.

Lemma column_inside (i : nat) :
  (i <= floorCols)%nat ->
  - halfW width <= - halfW width + num i * colWidth width floorCols
  <= halfW width.
Proof using Hwidth.
  intros Hi. rewrite (halfW_eq width).
  destruct floorCols as [|c].
  - assert (i = O) as -> by lia. change (num 0) with 0. lra.
  - assert (colWidth width (S c) * num (S c) == width) as E.
    { unfold colWidth. field. unfold num. intros E.
      apply (Qeq_bool_neq _ _ (eq_refl : Qeq_bool (inject_Z (Z.of_nat (S c))) 0 = false))
        in E; done. }
    pose proof (num_lt 0 (S c) ltac:(lia)) as Hc. change (num 0) with 0 in Hc.
    pose proof (num_le 0 i ltac:(lia)) as H0. change (num 0) with 0 in H0.
    apply num_le in Hi.
    assert (0 < colWidth width (S c)) as Hq.
    { destruct (Qlt_le_dec 0 (colWidth width (S c))) as [|Hle]; [done|]. nra. }
    split; nra.
Qed.

Abbreviation box := (inBox width height depth).

Lemma floorCeiling_box (i : nat) :
  (i <= floorCols)%nat ->
  Forall (fun l => box (fst l) /\ box (snd l))
         (floorCeilingLines width height depth floorCols i).
Proof using Hwidth Hheight Hdepth.
  intros Hi. pose proof (column_inside i Hi) as [Hlo Hhi].
  pose proof (halfH_pos height Hheight) as Hh.
  unfold floorCeilingLines, inBox. repeat constructor; simpl; lra.
Qed.

Lemma wall_box (i : nat) :
  (1 <= i < wallRows)%nat ->
  Forall (fun l => box (fst l) /\ box (snd l))
         (wallLines width height depth wallRows i).
Proof using Hwidth Hheight Hdepth.
  intros Hi. pose proof (wall_height_inside height wallRows Hheight i Hi) as [Hlo Hhi].
  pose proof (halfW_pos width Hwidth) as Hw.
  unfold wallLines, inBox. repeat constructor; simpl; lra.
Qed.

Lemma ring_box :
  Forall (fun l => box (fst l) /\ box (snd l)) (ringLines width height).
Proof using Hwidth Hheight Hdepth.
  pose proof (halfW_pos width Hwidth) as Hw.
  pose proof (halfH_pos height Hheight) as Hh.
  unfold ringLines, inBox. repeat constructor; simpl; lra.
Qed.

End Builder.

Lemma Forall_flat_map_in {A B} (P : B -> Prop) (Q : A -> Prop)
    (f : A -> list B) (l : list A) :
  Forall Q l -> (forall a, Q a -> Forall P (f a)) -> Forall P (flat_map f l).
Proof.
  intros Hl Hf. induction Hl as [|a l Ha _ IH]; [constructor|].
  simpl. apply Forall_app. auto.
Qed.

(** For every grid, both ends of every line of the wireframe lie within
    the box of the segment: within the cross-section of the tunnel, and
    between the near end [z = 0] and the far end [z = -depth]. *)
Theorem grid_in_box (width height depth : Q) (floorCols wallRows : nat) :
  0 < width -> 0 < height -> 0 < depth ->
  Forall (fun l => inBox width height depth (fst l)
                   /\ inBox width height depth (snd l))
         (lineSegments (gridVertices width height depth floorCols wallRows)).
Proof.
  intros Hw Hh Hd. rewrite gridVertices_lines.
  apply Forall_app; split; [|apply Forall_app; split].
  - apply (Forall_flat_map_in _ (fun i => i <= floorCols)%nat).
    + apply Forall_seq. lia.
    + intros i Hi. by apply floorCeiling_box.
  - apply (Forall_flat_map_in _ (fun i => 1 <= i < wallRows)%nat).
    + apply Forall_seq. lia.
    + intros i Hi. by apply wall_box.
  - by apply ring_box.
Qed.

(** The grid of the program. *)
Lemma grid_in_box_witness :
  Forall (fun l => inBox 24 16 6 (fst l) /\ inBox 24 16 6 (snd l))
         (lineSegments lineVertices).
Proof. apply (grid_in_box 24 16 6 6 4); reflexivity. Defined.

End GridBounds.
